(** * Hope: deferred values and the job scheduler

    A shallow embedding of [Hope.js] (class [Hope]) and of the scheduler file
    that requires it (classes [Job] and [Scheduler]).

    JavaScript objects live in explicit stores: every [Hope] instance has an
    address in [heap]; the jobs of the scheduler live in its [jobs] map and
    are referred to by their id, so that the queue, the ledger and the
    closures all see the same (mutable) job.  Closures created by the library
    are defunctionalised: the type [fn] has one constructor per function
    expression of the source, holding the variables it captures.  The host's
    event loop is a FIFO of microtasks ([queueMicrotask]) and a registry of
    timers ([setTimeout]) with a logical clock ([Date.now]).

    The process-wide configuration is the one the source declares:
    [Hope.scheduler = 'microtask'], [Hope.freezeValues = false] and
    [Hope.strict = false] (a settlement attempt on a settled instance is
    ignored with a warning).  Diagnostics that no operation reads back
    (creation stacks, [console] output) and the settlement hooks are left
    out; the progress channel of an instance is described on its own, beside
    the heap (module [Progress]). *)

From Stdlib Require Import ZArith.
From stdpp Require Import gmap strings list pretty sorting.

Open Scope string_scope.
Open Scope list_scope.
Set Warnings "-register-all".

(** ** Values *)

Inductive error_class :=
| Error | TypeError | CancelError | SchedulerError
| JobTimeoutError | JobCanceledError.

Inductive value :=
| VUndefined
| VNull
| VNum (n : Z)
| VStr (s : string)
| VHope (h : nat)                 (* an instance of Hope, by address *)
| VThenable (t : nat)             (* a foreign object with a [then] method *)
| VError (cls : error_class) (message : string)
| VAggregateError (errors : list value) (message : string).

(** What a call of user code yields: a value or an exception. *)
Inductive completion :=
| Return (v : value)
| Throw (e : value).

(** [x && typeof x.then === 'function'] *)
Definition is_thenable (x : value) : bool :=
  match x with VHope _ | VThenable _ => true | _ => false end.

(** [x === this], for [this] the instance at address [h] *)
Definition same_hope (x : value) (h : nat) : bool :=
  match x with VHope h' => Nat.eqb h' h | _ => false end.

(** [error instanceof JobTimeoutError] *)
Definition instanceof_JobTimeoutError (e : value) : bool :=
  match e with VError JobTimeoutError _ => true | _ => false end.

(** [typeof reason === 'string' ? new Error(reason) : reason] *)
Definition wrap_reason (reason : value) : value :=
  match reason with VStr s => VError Error s | _ => reason end.

(** ** Closures *)

Inductive fn :=
| FnResolve (h : nat)
    (* value => this._resolve(value), made by the constructor of [h] *)
| FnReject (h : nat)
    (* reason => this._reject(reason) *)
| FnUser (f : value -> completion)
    (* a handler written by the caller *)
| FnAnyRejected (o : nat) (cell : nat) (index : nat)
    (* the rejection handler of Hope.any for the item at [index] *)
| FnAdoptFulfilled (this : nat) (called : nat) (target : nat)
    (* y => { if (called) return; called = true;
              this._resolvePromise(resolve, reject, y); } *)
| FnAdoptRejected (called : nat) (target : nat)
    (* r => { if (called) return; called = true; reject(r); } *)
| FnTimeoutFulfilled (timer : nat) (target : nat)
    (* value => { clearTimeout(timer); resolve(value); } *)
| FnTimeoutRejected (timer : nat) (target : nat)
    (* error => { clearTimeout(timer); reject(error); } *)
| FnTimeoutExpired (target : nat) (reason : value)
    (* () => { reject(typeof reason === 'string' ? new Error(reason) : reason); } *)
| FnJobFulfilled (id : string) (h : nat)
    (* result => { this.result = result; this.state = 'completed'; ... } *)
| FnJobRejected (id : string) (h : nat)
    (* error => { this.error = error; this.state = 'failed'; ... } *)
| FnJobCompleted (id : string)
    (* result => { this._jobCompleted(job.id, result); } *)
| FnJobFailed (id : string)
    (* error => { this._jobFailed(job.id, error); } *)
| FnRetry (id : string)
    (* the timer callback of Scheduler._jobFailed *)
| FnCall (f : fn) (v : value).
    (* () => f(v), a timer callback of user code *)

(** The closure [handleSettlement] of one call of [then]: the source
    instance, the two handlers ([None] when the argument is not a function)
    and the instance returned by [then], whose [resolve] and [reject] it
    holds. *)
Record continuation := Continuation {
  k_source : nat;
  k_onFulfilled : option fn;
  k_onRejected : option fn;
  k_target : nat
}.

(** ** Instances of Hope *)

Inductive hope_state := PENDING | FULFILLED | REJECTED.

Definition hope_state_eqb (a b : hope_state) : bool :=
  match a, b with
  | PENDING, PENDING | FULFILLED, FULFILLED | REJECTED, REJECTED => true
  | _, _ => false
  end.

Record hope := MkHope {
  _state : hope_state;
  _value : value;
  _reason : value;
  _onFulfilledCallbacks : list continuation;
  _onRejectedCallbacks : list continuation;
  _settled : bool;
  _isCancelable : bool
}.

(** The fields as the constructor initialises them. *)
Definition fresh_hope : hope :=
  MkHope PENDING VUndefined VUndefined [] [] false false.

Definition set_state (s : hope_state) (d : hope) : hope :=
  MkHope s (_value d) (_reason d) (_onFulfilledCallbacks d)
         (_onRejectedCallbacks d) (_settled d) (_isCancelable d).

Definition set_value (v : value) (d : hope) : hope :=
  MkHope (_state d) v (_reason d) (_onFulfilledCallbacks d)
         (_onRejectedCallbacks d) (_settled d) (_isCancelable d).

Definition set_reason (v : value) (d : hope) : hope :=
  MkHope (_state d) (_value d) v (_onFulfilledCallbacks d)
         (_onRejectedCallbacks d) (_settled d) (_isCancelable d).

Definition set_onFulfilledCallbacks (l : list continuation) (d : hope) : hope :=
  MkHope (_state d) (_value d) (_reason d) l
         (_onRejectedCallbacks d) (_settled d) (_isCancelable d).

Definition set_onRejectedCallbacks (l : list continuation) (d : hope) : hope :=
  MkHope (_state d) (_value d) (_reason d) (_onFulfilledCallbacks d)
         l (_settled d) (_isCancelable d).

Definition set_settled (b : bool) (d : hope) : hope :=
  MkHope (_state d) (_value d) (_reason d) (_onFulfilledCallbacks d)
         (_onRejectedCallbacks d) b (_isCancelable d).

Definition set_isCancelable (b : bool) (d : hope) : hope :=
  MkHope (_state d) (_value d) (_reason d) (_onFulfilledCallbacks d)
         (_onRejectedCallbacks d) (_settled d) b.

(** ** The runtime *)

Record timer := Timer {
  timer_id : nat;
  timer_due : nat;
  timer_callback : fn
}.

(** The variables [errors] and [rejected] shared by the closures of one call
    of [Hope.any], with [items.length]. *)
Record any_cell := AnyCell {
  cell_errors : list value;
  cell_rejected : nat;
  cell_length : nat
}.

(** A foreign thenable: its [then] hands each delivery to the matching
    callback from a later task of the event loop, in order ([true] calls the
    first callback, [false] the second), and then throws [then_throws] if
    there is one. *)
Record thenable := Thenable {
  deliveries : list (bool * value);
  then_throws : option value
}.

Record runtime := Runtime {
  heap : list hope;
  microtasks : list continuation;
  timers : list timer;
  next_timer : nat;
  clock : nat;
  called_flags : list bool;
  any_cells : list any_cell;
  thenables : list thenable;
  executionOrder : list string
}.

Definition empty_runtime : runtime :=
  Runtime [] [] [] 0 0 [] [] [] [].

Definition with_heap (f : list hope -> list hope) (r : runtime) : runtime :=
  Runtime (f (heap r)) (microtasks r) (timers r) (next_timer r) (clock r)
          (called_flags r) (any_cells r) (thenables r) (executionOrder r).

Definition with_microtasks (f : list continuation -> list continuation)
    (r : runtime) : runtime :=
  Runtime (heap r) (f (microtasks r)) (timers r) (next_timer r) (clock r)
          (called_flags r) (any_cells r) (thenables r) (executionOrder r).

Definition with_timers (f : list timer -> list timer) (r : runtime) : runtime :=
  Runtime (heap r) (microtasks r) (f (timers r)) (next_timer r) (clock r)
          (called_flags r) (any_cells r) (thenables r) (executionOrder r).

Definition with_next_timer (n : nat) (r : runtime) : runtime :=
  Runtime (heap r) (microtasks r) (timers r) n (clock r)
          (called_flags r) (any_cells r) (thenables r) (executionOrder r).

Definition with_clock (n : nat) (r : runtime) : runtime :=
  Runtime (heap r) (microtasks r) (timers r) (next_timer r) n
          (called_flags r) (any_cells r) (thenables r) (executionOrder r).

Definition with_called_flags (f : list bool -> list bool) (r : runtime) : runtime :=
  Runtime (heap r) (microtasks r) (timers r) (next_timer r) (clock r)
          (f (called_flags r)) (any_cells r) (thenables r) (executionOrder r).

Definition with_any_cells (f : list any_cell -> list any_cell) (r : runtime) : runtime :=
  Runtime (heap r) (microtasks r) (timers r) (next_timer r) (clock r)
          (called_flags r) (f (any_cells r)) (thenables r) (executionOrder r).

Definition with_thenables (f : list thenable -> list thenable) (r : runtime) : runtime :=
  Runtime (heap r) (microtasks r) (timers r) (next_timer r) (clock r)
          (called_flags r) (any_cells r) (f (thenables r)) (executionOrder r).

Definition with_executionOrder (f : list string -> list string) (r : runtime) : runtime :=
  Runtime (heap r) (microtasks r) (timers r) (next_timer r) (clock r)
          (called_flags r) (any_cells r) (thenables r) (f (executionOrder r)).

(** [queueMicrotask(scheduleTask)] *)
Definition queueMicrotask (k : continuation) : runtime -> runtime :=
  with_microtasks (fun q => q ++ [k]).

(** [setTimeout(callback, ms)]: the timer's id, and the runtime with the
    timer armed. *)
Definition setTimeout (callback : fn) (ms : nat) (r : runtime) : nat * runtime :=
  let id := next_timer r in
  (id, with_next_timer (S id)
         (with_timers (fun ts => ts ++ [Timer id (clock r + ms) callback]) r)).

(** [clearTimeout(timer)] *)
Definition clearTimeout (id : nat) : runtime -> runtime :=
  with_timers (filter (fun t => timer_id t ≠ id)).

(** ** Class Hope *)

Module Hope.

(** The instance a constructor call starts from, at a new address. *)
Definition alloc (r : runtime) : nat * runtime :=
  (length (heap r), with_heap (fun hp => hp ++ [fresh_hope]) r).

Definition update (h : nat) (f : hope -> hope) : runtime -> runtime :=
  with_heap (alter f h).

(** [handleSettlement] under [Hope.scheduler = 'microtask']. *)
Definition handleSettlement (k : continuation) : runtime -> runtime :=
  queueMicrotask k.

Definition _callFulfilledCallbacks (h : nat) (r : runtime) : runtime :=
  match heap r !! h with
  | None => r
  | Some d =>
      let callbacks := _onFulfilledCallbacks d in
      let r := update h (set_onFulfilledCallbacks []) r in
      foldl (fun r k => handleSettlement k r) r callbacks
  end.

Definition _callRejectedCallbacks (h : nat) (r : runtime) : runtime :=
  match heap r !! h with
  | None => r
  | Some d =>
      let callbacks := _onRejectedCallbacks d in
      let r := update h (set_onRejectedCallbacks []) r in
      foldl (fun r k => handleSettlement k r) r callbacks
  end.

Definition _reject (h : nat) (reason : value) (r : runtime) : runtime :=
  match heap r !! h with
  | None => r
  | Some d =>
      if _settled d then r
      else
        let r := update h (set_settled true) r in
        let r := update h (set_state REJECTED) r in
        let r := update h (set_reason reason) r in
        _callRejectedCallbacks h r
  end.

(** [new Hope(executor)]: the executor receives the address of the new
    instance, whose [resolve] and [reject] are [FnResolve] and [FnReject] of
    it; what it throws is routed to [_reject]. *)
Definition new (executor : nat -> runtime -> runtime * completion)
    (r : runtime) : nat * runtime :=
  let (h, r) := alloc r in
  let (r, c) := executor h r in
  (h, match c with Return _ => r | Throw error => _reject h error r end).

(** [this.then(onFulfilled, onRejected)] *)
Definition then_ (this : nat) (onFulfilled onRejected : option fn)
    (r : runtime) : nat * runtime :=
  new (fun target r =>
    let k := Continuation this onFulfilled onRejected target in
    match heap r !! this with
    | None => (r, Return VUndefined)
    | Some d =>
        if hope_state_eqb (_state d) PENDING then
          let r := update this (fun d =>
                     set_onFulfilledCallbacks (_onFulfilledCallbacks d ++ [k]) d) r in
          let r := update this (fun d =>
                     set_onRejectedCallbacks (_onRejectedCallbacks d ++ [k]) d) r in
          (r, Return VUndefined)
        else (handleSettlement k r, Return VUndefined)
    end) r.

(** [x.then(onFulfilled, onRejected)] for a thenable [x]: the method of
    class Hope when [x] is an instance, the foreign object's own otherwise. *)
Definition call_then (x : value) (onFulfilled onRejected : fn)
    (r : runtime) : runtime * completion :=
  match x with
  | VHope s =>
      let (p, r) := then_ s (Some onFulfilled) (Some onRejected) r in
      (r, Return (VHope p))
  | VThenable t =>
      match thenables r !! t with
      | None => (r, Return VUndefined)
      | Some th =>
          let r := foldl (fun r (d : bool * value) =>
                     let callback := if d.1 then onFulfilled else onRejected in
                     (setTimeout (FnCall callback d.2) 0 r).2) r (deliveries th) in
          (r, match then_throws th with
              | Some e => Throw e
              | None => Return VUndefined
              end)
      end
  | _ => (r, Throw (VError TypeError "then is not a function"))
  end.

Definition _resolve (h : nat) (value : value) (r : runtime) : runtime :=
  match heap r !! h with
  | None => r
  | Some d =>
      if _settled d then r
      else
        let r := update h (set_settled true) r in
        if same_hope value h then
          _reject h (VError TypeError "Hope cannot resolve to itself") r
        else if is_thenable value then
          let (r, c) := call_then value (FnResolve h) (FnReject h) r in
          match c with
          | Return _ => r
          | Throw error => _reject h error r
          end
        else
          let r := update h (set_state FULFILLED) r in
          let r := update h (set_value value) r in
          _callFulfilledCallbacks h r
  end.

(** [this._resolvePromise(resolve, reject, x)], where [resolve] and [reject]
    are those of the instance [target] that [then] returns (its only
    caller). *)
Definition _resolvePromise (this target : nat) (x : value) (r : runtime) : runtime :=
  if same_hope x this then
    _reject target (VError TypeError "Promise cannot be resolved with itself") r
  else if is_thenable x then
    let called := length (called_flags r) in
    let r := with_called_flags (fun l => l ++ [false]) r in
    let (r, c) := call_then x (FnAdoptFulfilled this called target)
                              (FnAdoptRejected called target) r in
    match c with
    | Return _ => r
    | Throw error =>
        match called_flags r !! called with
        | Some true => r
        | _ => _reject target error r
        end
    end
  else _resolve target x r.

(** [Hope.resolve(value)] *)
Definition resolve (value : value) (r : runtime) : nat * runtime :=
  match value with
  | VHope h => (h, r)
  | _ =>
      if is_thenable value then
        new (fun h r => call_then value (FnResolve h) (FnReject h) r) r
      else
        new (fun h r => (_resolve h value r, Return VUndefined)) r
  end.

(** [Hope.reject(reason)] *)
Definition reject (reason : value) (r : runtime) : nat * runtime :=
  new (fun h r => (_reject h reason r, Return VUndefined)) r.

(** [Hope.any(iterable)], for the array [items] of the iterable's elements. *)
Definition any (items : list value) (r : runtime) : nat * runtime :=
  new (fun o r =>
    let cell := length (any_cells r) in
    let r := with_any_cells (fun cs =>
               cs ++ [AnyCell (replicate (length items) VUndefined) 0 (length items)]) r in
    if Nat.eqb (length items) 0 then
      (_reject o (VAggregateError [] "All promises were rejected") r, Return VUndefined)
    else
      (foldl (fun r (entry : nat * value) =>
                let (p, r) := resolve entry.2 r in
                (then_ p (Some (FnResolve o)) (Some (FnAnyRejected o cell entry.1)) r).2)
             r (imap pair items),
       Return VUndefined)) r.

(** [this.timeout(ms, reason)] *)
Definition timeout (this : nat) (ms : nat) (reason : value)
    (r : runtime) : nat * runtime :=
  new (fun target r =>
    let (timer, r) := setTimeout (FnTimeoutExpired target reason) ms r in
    let (_, r) := then_ this (Some (FnTimeoutFulfilled timer target))
                             (Some (FnTimeoutRejected timer target)) r in
    (r, Return VUndefined)) r.

(** The [cancelFunction] that [Hope.cancellable] makes for the instance [h]. *)
Definition cancelFunction (h : nat) (reason : string) : runtime -> runtime :=
  _reject h (VError CancelError reason).

(** [Hope.cancellable(executor)]: the instance; its [cancel] is
    [cancelFunction] of it. *)
Definition cancellable (executor : nat -> runtime -> runtime * completion)
    (r : runtime) : nat * runtime :=
  let (h, r) := new executor r in
  (h, update h (set_isCancelable true) r).

(** [this.cancel(reason)] *)
Definition cancel (this : nat) (reason : string) (r : runtime) : bool * runtime :=
  match heap r !! this with
  | Some d =>
      if _isCancelable d && hope_state_eqb (_state d) PENDING
      then (true, _reject this (VError CancelError reason) r)
      else (false, r)
  | None => (false, r)
  end.

End Hope.

(** ** Tasks

    A task function is code of the caller.  It is described by what one call
    does: it pushes its label on [executionOrder] (the log the demonstration
    driver keeps) and then returns a new Hope, returns something else, or
    throws.  The description may depend on how many times the job has been
    attempted. *)

Inductive task_hope :=
| TaskResolved (v : value)           (* Hope.resolve(v) *)
| TaskRejected (e : value)           (* Hope.reject(e) *)
| TaskResolvesAfter (ms : nat) (v : value)
    (* new Hope(resolve => setTimeout(() => resolve(v), ms)) *)
| TaskRejectsAfter (ms : nat) (e : value)
    (* new Hope((_, reject) => setTimeout(() => reject(e), ms)) *)
| TaskNever.                         (* new Hope(() => {}) *)

Inductive task_result :=
| TaskHope (p : task_hope)
| TaskValue (v : value)
| TaskThrows (e : value).

Record task_function := TaskFn {
  task_label : string;
  task_attempt : nat -> task_result
}.

Definition make_task_hope (p : task_hope) (r : runtime) : nat * runtime :=
  match p with
  | TaskResolved v => Hope.resolve v r
  | TaskRejected e => Hope.reject e r
  | TaskResolvesAfter ms v =>
      Hope.new (fun h r =>
        ((setTimeout (FnCall (FnResolve h) v) ms r).2, Return VUndefined)) r
  | TaskRejectsAfter ms e =>
      Hope.new (fun h r =>
        ((setTimeout (FnCall (FnReject h) e) ms r).2, Return VUndefined)) r
  | TaskNever => Hope.new (fun h r => (r, Return VUndefined)) r
  end.

(** [taskFn()] on the attempt numbered [attempt]. *)
Definition call_task (t : task_function) (attempt : nat) (r : runtime) : runtime * completion :=
  let r := with_executionOrder (fun l => l ++ [task_label t]) r in
  match task_attempt t attempt with
  | TaskHope p => let (h, r) := make_task_hope p r in (r, Return (VHope h))
  | TaskValue v => (r, Return v)
  | TaskThrows e => (r, Throw e)
  end.

(** ** Class Job *)

Module Job.

Inductive status := pending | running | completed | failed | canceled.

Definition status_eqb (a b : status) : bool :=
  match a, b with
  | pending, pending | running, running | completed, completed
  | failed, failed | canceled, canceled => true
  | _, _ => false
  end.

(** The [options] argument: a field is [None] when the caller's object does
    not have it. *)
Record options_arg := OptionsArg {
  arg_timeout : option nat;
  arg_retries : option nat;
  arg_retryDelay : option nat;
  arg_priority : option Z
}.

Definition no_options : options_arg := OptionsArg None None None None.

Record options_t := Options {
  timeout : nat;
  retries : nat;
  retryDelay : nat;
  priority : Z
}.

(** [x || d] on a number that may be missing *)
Definition or_nat (x : option nat) (d : nat) : nat :=
  match x with
  | Some (S n) => S n
  | _ => d
  end.

Definition or_Z (x : option Z) (d : Z) : Z :=
  match x with
  | Some 0%Z | None => d
  | Some z => z
  end.

(** [{ timeout: options.timeout || 0, retries: options.retries || 0,
       retryDelay: options.retryDelay || 1000,
       priority: options.priority || 0, ...options }]: the fields the
    argument has overwrite the defaults computed before the spread. *)
Definition make_options (o : options_arg) : options_t :=
  Options (default (or_nat (arg_timeout o) 0) (arg_timeout o))
          (default (or_nat (arg_retries o) 0) (arg_retries o))
          (default (or_nat (arg_retryDelay o) 1000) (arg_retryDelay o))
          (default (or_Z (arg_priority o) 0) (arg_priority o)).

Record t := Make {
  id : string;
  taskFn : task_function;
  options : options_t;
  state : status;
  result : value;
  error : value;
  attempts : nat;
  startTime : option nat;
  endTime : option nat;
  _hope : option nat;
  _cancel : option nat     (* the instance whose [cancelFunction] it is *)
}.

(** [new Job(id, taskFn, options)] *)
Definition new (id : string) (taskFn : task_function) (o : options_arg) : t :=
  Make id taskFn (make_options o) pending VNull VNull 0 None None None None.

Definition set_state (s : status) (j : t) : t :=
  Make (id j) (taskFn j) (options j) s (result j) (error j) (attempts j)
       (startTime j) (endTime j) (_hope j) (_cancel j).

Definition set_result (v : value) (j : t) : t :=
  Make (id j) (taskFn j) (options j) (state j) v (error j) (attempts j)
       (startTime j) (endTime j) (_hope j) (_cancel j).

Definition set_error (v : value) (j : t) : t :=
  Make (id j) (taskFn j) (options j) (state j) (result j) v (attempts j)
       (startTime j) (endTime j) (_hope j) (_cancel j).

Definition set_attempts (n : nat) (j : t) : t :=
  Make (id j) (taskFn j) (options j) (state j) (result j) (error j) n
       (startTime j) (endTime j) (_hope j) (_cancel j).

Definition set_startTime (n : option nat) (j : t) : t :=
  Make (id j) (taskFn j) (options j) (state j) (result j) (error j) (attempts j)
       n (endTime j) (_hope j) (_cancel j).

Definition set_endTime (n : option nat) (j : t) : t :=
  Make (id j) (taskFn j) (options j) (state j) (result j) (error j) (attempts j)
       (startTime j) n (_hope j) (_cancel j).

Definition set_hope (h : option nat) (j : t) : t :=
  Make (id j) (taskFn j) (options j) (state j) (result j) (error j) (attempts j)
       (startTime j) (endTime j) h (_cancel j).

Definition set_cancel (h : option nat) (j : t) : t :=
  Make (id j) (taskFn j) (options j) (state j) (result j) (error j) (attempts j)
       (startTime j) (endTime j) (_hope j) h.

(** [this.run()]: the job as the call leaves it, the runtime, and the
    instance returned. *)
Definition run (this : t) (r : runtime) : t * runtime * nat :=
  if negb (status_eqb (state this) pending) then
    let (p, r) := Hope.reject
      (VError Error ("Job " +:+ id this +:+ " is not pending")) r in
    (this, r, p)
  else
    let this := set_state running this in
    let this := set_startTime (Some (clock r)) this in
    let this := set_attempts (S (attempts this)) this in
    let (hope, r) := Hope.cancellable (fun h r =>
      let (r, c) := call_task (taskFn this) (attempts this) r in
      match c with
      | Throw e => (r, Throw e)
      | Return (VHope task) =>                 (* task instanceof Hope *)
          let (_, r) := Hope.then_ task (Some (FnJobFulfilled (id this) h))
                                        (Some (FnJobRejected (id this) h)) r in
          (r, Return VUndefined)
      | Return _ =>
          (Hope._reject h (VError TypeError "Task must return a Hope instance") r,
           Return VUndefined)
      end) r in
    let this := set_hope (Some hope) this in
    let this := set_cancel (Some hope) this in
    if Nat.ltb 0 (timeout (options this)) then
      let (p, r) := Hope.timeout hope (timeout (options this))
        (VStr ("Job " +:+ id this +:+ " timed out after "
               +:+ pretty (timeout (options this)) +:+ "ms")) r in
      (set_hope (Some p) this, r, p)
    else (this, r, hope).

(** [this.cancel()] *)
Definition cancel (this : t) (r : runtime) : t * runtime * bool :=
  match state this, _cancel this with
  | running, Some h =>
      let this := set_state canceled this in
      let this := set_endTime (Some (clock r)) this in
      (this, Hope.cancelFunction h "Canceled" r, true)
  | pending, _ => (set_state canceled this, r, true)
  | _, _ => (this, r, false)
  end.

(** [this.getDuration()] at the time [now]; a start time of 0 is falsy. *)
Definition getDuration (this : t) (now : nat) : nat :=
  match startTime this with
  | None | Some 0 => 0
  | Some (S s) =>
      match endTime this with
      | None | Some 0 => now - S s
      | Some (S e) => S e - S s
      end
  end.

End Job.

(** ** Class Scheduler: the data *)

Module Stats.

(** [stats]; [avgTime], the quotient of [totalTime] by [completedJobs]
    recomputed at each completion, is not kept. *)
Record t := Make {
  totalJobs : nat;
  completedJobs : nat;
  failedJobs : nat;
  canceledJobs : nat;
  totalTime : nat
}.

Definition zero : t := Make 0 0 0 0 0.

Definition incr_totalJobs (s : t) : t :=
  Make (S (totalJobs s)) (completedJobs s) (failedJobs s) (canceledJobs s) (totalTime s).

Definition incr_completedJobs (s : t) : t :=
  Make (totalJobs s) (S (completedJobs s)) (failedJobs s) (canceledJobs s) (totalTime s).

Definition incr_failedJobs (s : t) : t :=
  Make (totalJobs s) (completedJobs s) (S (failedJobs s)) (canceledJobs s) (totalTime s).

Definition incr_canceledJobs (s : t) : t :=
  Make (totalJobs s) (completedJobs s) (failedJobs s) (S (canceledJobs s)) (totalTime s).

Definition add_totalTime (d : nat) (s : t) : t :=
  Make (totalJobs s) (completedJobs s) (failedJobs s) (canceledJobs s) (totalTime s + d).

End Stats.

(** [maxQueueSize]: a number, or [Infinity] *)
Inductive limit := Finite (n : nat) | Infinity.

(** [n >= m] for a length [n] and a limit [m] *)
Definition reaches (n : nat) (m : limit) : bool :=
  match m with
  | Finite k => Nat.leb k n
  | Infinity => false
  end.

(** The options as the constructor stores them; [concurrency] is a number
    of jobs. *)
Record scheduler_options := SchedulerOptions {
  concurrency : nat;
  maxQueueSize : limit;
  autoStart : bool
}.

(** The [options] argument of the constructor; [None] for a field the
    caller's object does not have. *)
Record scheduler_options_arg := SchedulerOptionsArg {
  arg_concurrency : option nat;
  arg_maxQueueSize : option nat;
  arg_autoStart : option bool
}.

(** [{ concurrency: options.concurrency || 1,
       maxQueueSize: options.maxQueueSize || Infinity,
       autoStart: options.autoStart !== false, ...options }] *)
Definition make_scheduler_options (o : scheduler_options_arg) : scheduler_options :=
  SchedulerOptions
    (default (Job.or_nat (arg_concurrency o) 1) (arg_concurrency o))
    (match arg_maxQueueSize o with
     | Some n => Finite n
     | None => Infinity
     end)
    (default (match arg_autoStart o with Some false => false | _ => true end)
             (arg_autoStart o)).

(** The queue, the ledger and the running set refer to jobs by id; the job
    objects themselves are the entries of [jobs].  [runningJobs], a Set, is a
    duplicate-free list in insertion order. *)
Record scheduler := Scheduler {
  options : scheduler_options;
  jobs : gmap string Job.t;
  pendingJobs : list string;
  runningJobs : list string;
  completedJobs : list string;
  _nextJobId : nat;
  _isRunning : bool;
  _idleHope : option nat;
  _idleResolve : option nat;   (* the instance whose [resolve] it is *)
  stats : Stats.t
}.

Definition set_jobs (f : gmap string Job.t -> gmap string Job.t) (s : scheduler) : scheduler :=
  Scheduler (options s) (f (jobs s)) (pendingJobs s) (runningJobs s) (completedJobs s)
            (_nextJobId s) (_isRunning s) (_idleHope s) (_idleResolve s) (stats s).

Definition set_pendingJobs (f : list string -> list string) (s : scheduler) : scheduler :=
  Scheduler (options s) (jobs s) (f (pendingJobs s)) (runningJobs s) (completedJobs s)
            (_nextJobId s) (_isRunning s) (_idleHope s) (_idleResolve s) (stats s).

Definition set_runningJobs (f : list string -> list string) (s : scheduler) : scheduler :=
  Scheduler (options s) (jobs s) (pendingJobs s) (f (runningJobs s)) (completedJobs s)
            (_nextJobId s) (_isRunning s) (_idleHope s) (_idleResolve s) (stats s).

Definition set_completedJobs (f : list string -> list string) (s : scheduler) : scheduler :=
  Scheduler (options s) (jobs s) (pendingJobs s) (runningJobs s) (f (completedJobs s))
            (_nextJobId s) (_isRunning s) (_idleHope s) (_idleResolve s) (stats s).

Definition set_nextJobId (n : nat) (s : scheduler) : scheduler :=
  Scheduler (options s) (jobs s) (pendingJobs s) (runningJobs s) (completedJobs s)
            n (_isRunning s) (_idleHope s) (_idleResolve s) (stats s).

Definition set_isRunning (b : bool) (s : scheduler) : scheduler :=
  Scheduler (options s) (jobs s) (pendingJobs s) (runningJobs s) (completedJobs s)
            (_nextJobId s) b (_idleHope s) (_idleResolve s) (stats s).

Definition set_idleHope (h : option nat) (s : scheduler) : scheduler :=
  Scheduler (options s) (jobs s) (pendingJobs s) (runningJobs s) (completedJobs s)
            (_nextJobId s) (_isRunning s) h (_idleResolve s) (stats s).

Definition set_idleResolve (h : option nat) (s : scheduler) : scheduler :=
  Scheduler (options s) (jobs s) (pendingJobs s) (runningJobs s) (completedJobs s)
            (_nextJobId s) (_isRunning s) (_idleHope s) h (stats s).

Definition set_stats (f : Stats.t -> Stats.t) (s : scheduler) : scheduler :=
  Scheduler (options s) (jobs s) (pendingJobs s) (runningJobs s) (completedJobs s)
            (_nextJobId s) (_isRunning s) (_idleHope s) (_idleResolve s) (f (stats s)).

(** [Set.prototype.add] and [Set.prototype.delete] *)
Definition set_add (x : string) (l : list string) : list string :=
  if bool_decide (x ∈ l) then l else l ++ [x].

Definition set_delete (x : string) (l : list string) : list string :=
  filter (fun y => y ≠ x) l.

(** [l.splice(l.findIndex(y => y === x), 1)] when the index is not -1 *)
Fixpoint remove_first (x : string) (l : list string) : list string :=
  match l with
  | [] => []
  | y :: l' => if bool_decide (y = x) then l' else y :: remove_first x l'
  end.

(** [Array.prototype.sort] with the comparator
    [(a, b) => b.options.priority - a.options.priority]: a stable sort,
    highest priority first. *)
Fixpoint insert_by_priority (prio : string -> Z) (x : string) (l : list string)
    : list string :=
  match l with
  | [] => [x]
  | y :: l' =>
      if Z.ltb (prio x) (prio y) then y :: insert_by_priority prio x l'
      else x :: y :: l'
  end.

Definition sort_by_priority (prio : string -> Z) (l : list string) : list string :=
  foldr (insert_by_priority prio) [] l.

(** The whole state: the runtime and the one scheduler it hosts. *)
Record world := World {
  rt : runtime;
  sched : scheduler
}.

Definition on_rt (f : runtime -> runtime) (w : world) : world :=
  World (f (rt w)) (sched w).

Definition on_sched (f : scheduler -> scheduler) (w : world) : world :=
  World (rt w) (f (sched w)).

(** ** Class Scheduler: the methods *)

Module Scheduler.

Definition job_priority (s : scheduler) (id : string) : Z :=
  match jobs s !! id with
  | Some j => Job.priority (Job.options j)
  | None => 0%Z
  end.

(** [this.pendingJobs.sort((a, b) => b.options.priority - a.options.priority)] *)
Definition sort_pending (s : scheduler) : scheduler :=
  set_pendingJobs (sort_by_priority (job_priority s)) s.

(** [this.runningJobs.size === 0 && this.pendingJobs.length === 0] *)
Definition is_idle (s : scheduler) : bool :=
  Nat.eqb (length (runningJobs s)) 0 && Nat.eqb (length (pendingJobs s)) 0.

Definition _checkIdle (w : world) : world :=
  if is_idle (sched w) then
    match _idleResolve (sched w) with
    | Some h =>
        let w := on_rt (Hope._resolve h VUndefined) w in
        let w := on_sched (set_idleHope None) w in
        on_sched (set_idleResolve None) w
    | None => w
    end
  else w.

(** [job.run()] on the job object with the given id, in place. *)
Definition run_job_object (id : string) (w : world) : world * option nat :=
  match jobs (sched w) !! id with
  | None => (w, None)
  | Some job =>
      let '(job, r, p) := Job.run job (rt w) in
      (World r (set_jobs (insert id job) (sched w)), Some p)
  end.

(** [job.cancel()] on the job object with the given id, in place. *)
Definition cancel_job_object (id : string) (w : world) : world * bool :=
  match jobs (sched w) !! id with
  | None => (w, false)
  | Some job =>
      let '(job, r, b) := Job.cancel job (rt w) in
      (World r (set_jobs (insert id job) (sched w)), b)
  end.

Definition _runJob (id : string) (w : world) : world :=
  match run_job_object id w with
  | (w, Some p) =>
      on_rt (fun r => (Hope.then_ p (Some (FnJobCompleted id))
                                    (Some (FnJobFailed id)) r).2) w
  | (w, None) => w
  end.

(** The [while] loop of [_processQueue]; each iteration shifts one job off
    the queue, so the length of the queue at entry bounds the iterations. *)
Fixpoint _processQueue_loop (fuel : nat) (w : world) : world :=
  match fuel with
  | 0 => w
  | S fuel =>
      if Nat.ltb (length (runningJobs (sched w))) (concurrency (options (sched w))) then
        match pendingJobs (sched w) with
        | [] => w
        | id :: rest =>
            let w := on_sched (set_pendingJobs (fun _ => rest)) w in
            let w := on_sched (set_runningJobs (set_add id)) w in
            _processQueue_loop fuel (_runJob id w)
        end
      else w
  end.

Definition _processQueue (w : world) : world :=
  if negb (_isRunning (sched w)) then w
  else
    let w := _processQueue_loop (length (pendingJobs (sched w))) w in
    if is_idle (sched w) then _checkIdle w else w.

Definition _jobCompleted (jobId : string) (result : value) (w : world) : world :=
  let w := on_sched (set_runningJobs (set_delete jobId)) w in
  let w :=
    match jobs (sched w) !! jobId with
    | None => w
    | Some job =>
        let job := Job.set_result result job in
        let job := Job.set_state Job.completed job in
        let job := Job.set_endTime (Some (clock (rt w))) job in
        let w := on_sched (set_jobs (insert jobId job)) w in
        let w := on_sched (set_completedJobs (fun l => l ++ [jobId])) w in
        let w := on_sched (set_stats Stats.incr_completedJobs) w in
        let duration := Job.getDuration job (clock (rt w)) in
        on_sched (set_stats (Stats.add_totalTime duration)) w
    end in
  _processQueue w.

Definition _jobFailed (jobId : string) (error : value) (w : world) : world :=
  match jobs (sched w) !! jobId with
  | None => w
  | Some job =>
      if Nat.leb (Job.attempts job) (Job.retries (Job.options job))
         && negb (instanceof_JobTimeoutError error) then
        let job := Job.set_state Job.pending job in
        let job := Job.set_error VNull job in
        let w := on_sched (set_jobs (insert jobId job)) w in
        on_rt (fun r => (setTimeout (FnRetry jobId) (Job.retryDelay (Job.options job)) r).2) w
      else
        let job := Job.set_state Job.failed job in
        let job := Job.set_error error job in
        let job := Job.set_endTime (Some (clock (rt w))) job in
        let w := on_sched (set_jobs (insert jobId job)) w in
        let w := on_sched (set_runningJobs (set_delete jobId)) w in
        let w := on_sched (set_completedJobs (fun l => l ++ [jobId])) w in
        let w := on_sched (set_stats Stats.incr_failedJobs) w in
        _processQueue w
  end.

(** The timer callback of [_jobFailed], for the job with the given id. *)
Definition retry (jobId : string) (w : world) : world :=
  let w := on_sched (set_pendingJobs (fun l => l ++ [jobId])) w in
  let w := on_sched sort_pending w in
  _processQueue w.

(** [this.add(taskFn, options)]: the id, or the exception thrown. *)
Definition add (taskFn : task_function) (o : Job.options_arg) (w : world) : world * completion :=
  if reaches (length (pendingJobs (sched w))) (maxQueueSize (options (sched w))) then
    (w, Throw (VError SchedulerError "Queue is full"))
  else
    let id := "job-" +:+ pretty (_nextJobId (sched w)) in
    let w := on_sched (set_nextJobId (S (_nextJobId (sched w)))) w in
    let job := Job.new id taskFn o in
    let w := on_sched (set_jobs (insert id job)) w in
    let w := on_sched (set_pendingJobs (fun l => l ++ [id])) w in
    let w := on_sched (set_stats Stats.incr_totalJobs) w in
    let w := on_sched sort_pending w in
    let w := if _isRunning (sched w) then _processQueue w else w in
    (w, Return (VStr id)).

Definition start (w : world) : world :=
  if _isRunning (sched w) then w
  else
    let w := on_sched (set_isRunning true) w in
    _processQueue w.

Definition stop (w : world) : world :=
  let w := on_sched (set_isRunning false) w in
  let w := foldl (fun w id => (cancel_job_object id w).1) w (pendingJobs (sched w)) in
  let w := on_sched (set_pendingJobs (fun _ => [])) w in
  foldl (fun w jobId => (cancel_job_object jobId w).1) w (runningJobs (sched w)).

(** [this.onIdle()] *)
Definition onIdle (w : world) : world * nat :=
  match _idleHope (sched w) with
  | Some h => (w, h)
  | None =>
      let (h, r) := Hope.new (fun h r =>
        (if is_idle (sched w) then Hope._resolve h VUndefined r else r,
         Return VUndefined)) (rt w) in
      let w := World r (set_idleResolve (Some h) (sched w)) in
      let w := on_sched (set_idleHope (Some h)) w in
      (w, h)
  end.

Definition cancelJob (jobId : string) (w : world) : world * bool :=
  match jobs (sched w) !! jobId with
  | None => (w, false)
  | Some _ =>
      let (w, canceled) := cancel_job_object jobId w in
      if canceled then
        let w := on_sched (set_pendingJobs (remove_first jobId)) w in
        let w := on_sched (set_runningJobs (set_delete jobId)) w in
        let w := on_sched (set_stats Stats.incr_canceledJobs) w in
        (_checkIdle w, canceled)
      else (w, canceled)
  end.

(** One iteration of the loops of [cancelAll], over the world and the
    [canceledIds] collected so far. *)
Definition cancelAll_step (acc : world * list string) (id : string)
    : world * list string :=
  let (w, canceledIds) := acc in
  let (w, canceled) := cancel_job_object id w in
  if canceled then
    (on_sched (set_stats Stats.incr_canceledJobs) w, canceledIds ++ [id])
  else (w, canceledIds).

Definition cancelAll (w : world) : world * list string :=
  let acc := foldl cancelAll_step (w, []) (pendingJobs (sched w)) in
  let acc := (on_sched (set_pendingJobs (fun _ => [])) acc.1, acc.2) in
  let acc := foldl cancelAll_step acc (runningJobs (sched acc.1)) in
  let w := on_sched (set_runningJobs (fun _ => [])) acc.1 in
  (_checkIdle w, acc.2).

Definition getJob (jobId : string) (w : world) : option Job.t :=
  jobs (sched w) !! jobId.

(** [new Scheduler(options)] *)
Definition new (o : scheduler_options_arg) (r : runtime) : world :=
  let w := World r (Scheduler (make_scheduler_options o) ∅ [] [] [] 1 false
                              None None Stats.zero) in
  if autoStart (options (sched w)) then start w else w.

End Scheduler.

(** ** Calls of closures and the event loop *)

(** [f(arg)] *)
Fixpoint apply_fn (f : fn) (arg : value) (w : world) : world * completion :=
  match f with
  | FnResolve h => (on_rt (Hope._resolve h arg) w, Return VUndefined)
  | FnReject h => (on_rt (Hope._reject h arg) w, Return VUndefined)
  | FnUser g => (w, g arg)
  | FnAnyRejected o cell index =>
      match any_cells (rt w) !! cell with
      | None => (w, Return VUndefined)
      | Some c =>
          let c := AnyCell (<[index := arg]> (cell_errors c))
                           (S (cell_rejected c)) (cell_length c) in
          let w := on_rt (with_any_cells (<[cell := c]>)) w in
          if Nat.eqb (cell_rejected c) (cell_length c) then
            (on_rt (Hope._reject o
               (VAggregateError (cell_errors c) "All promises were rejected")) w,
             Return VUndefined)
          else (w, Return VUndefined)
      end
  | FnAdoptFulfilled this called target =>
      match called_flags (rt w) !! called with
      | Some false =>
          let w := on_rt (with_called_flags (<[called := true]>)) w in
          (on_rt (Hope._resolvePromise this target arg) w, Return VUndefined)
      | _ => (w, Return VUndefined)
      end
  | FnAdoptRejected called target =>
      match called_flags (rt w) !! called with
      | Some false =>
          let w := on_rt (with_called_flags (<[called := true]>)) w in
          (on_rt (Hope._reject target arg) w, Return VUndefined)
      | _ => (w, Return VUndefined)
      end
  | FnTimeoutFulfilled timer target =>
      let w := on_rt (clearTimeout timer) w in
      (on_rt (Hope._resolve target arg) w, Return VUndefined)
  | FnTimeoutRejected timer target =>
      let w := on_rt (clearTimeout timer) w in
      (on_rt (Hope._reject target arg) w, Return VUndefined)
  | FnTimeoutExpired target reason =>
      (on_rt (Hope._reject target (wrap_reason reason)) w, Return VUndefined)
  | FnJobFulfilled id h =>
      let update job :=
        Job.set_endTime (Some (clock (rt w)))
          (Job.set_state Job.completed (Job.set_result arg job)) in
      let w := on_sched (set_jobs (alter update id)) w in
      (on_rt (Hope._resolve h arg) w, Return VUndefined)
  | FnJobRejected id h =>
      let update job :=
        Job.set_endTime (Some (clock (rt w)))
          (Job.set_state Job.failed (Job.set_error arg job)) in
      let w := on_sched (set_jobs (alter update id)) w in
      (on_rt (Hope._reject h arg) w, Return VUndefined)
  | FnJobCompleted id => (Scheduler._jobCompleted id arg w, Return VUndefined)
  | FnJobFailed id => (Scheduler._jobFailed id arg w, Return VUndefined)
  | FnRetry id => (Scheduler.retry id w, Return VUndefined)
  | FnCall g v => apply_fn g v w
  end.

(** [scheduleTask], the microtask that [handleSettlement] queues. *)
Definition scheduleTask (k : continuation) (w : world) : world :=
  match heap (rt w) !! k_source k with
  | None => w
  | Some this =>
      let fulfilled := hope_state_eqb (_state this) FULFILLED in
      let handler := if fulfilled then k_onFulfilled k else k_onRejected k in
      match handler with
      | None =>
          if fulfilled
          then on_rt (Hope._resolve (k_target k) (_value this)) w
          else on_rt (Hope._reject (k_target k) (_reason this)) w
      | Some handler =>
          let (w, c) := apply_fn handler
                          (if fulfilled then _value this else _reason this) w in
          match c with
          | Return result =>
              on_rt (Hope._resolvePromise (k_source k) (k_target k) result) w
          | Throw error => on_rt (Hope._reject (k_target k) error) w
          end
      end
  end.

(** The timer the host fires next: the earliest due, the first armed among
    equals. *)
Fixpoint next_due (ts : list timer) : option timer :=
  match ts with
  | [] => None
  | t :: ts' =>
      match next_due ts' with
      | Some t' => if Nat.ltb (timer_due t') (timer_due t) then Some t' else Some t
      | None => Some t
      end
  end.

(** One turn of the event loop: the oldest microtask if there is one,
    otherwise the next timer, with the clock moved to its due time. *)
Definition turn (w : world) : option world :=
  match microtasks (rt w) with
  | k :: rest =>
      Some (scheduleTask k (on_rt (with_microtasks (fun _ => rest)) w))
  | [] =>
      match next_due (timers (rt w)) with
      | None => None
      | Some t =>
          let w := on_rt (clearTimeout (timer_id t)) w in
          let w := on_rt (fun r => with_clock (Nat.max (clock r) (timer_due t)) r) w in
          Some (apply_fn (timer_callback t) VUndefined w).1
      end
  end.

(** The event loop, for at most [fuel] turns. *)
Fixpoint run (fuel : nat) (w : world) : world :=
  match fuel with
  | 0 => w
  | S fuel =>
      match turn w with
      | Some w => run fuel w
      | None => w
      end
  end.

(** Nothing is left to run. *)
Definition quiescent (w : world) : Prop := turn w = None.

(** ** Executions of a scheduler

    What can happen to a world between two observations: a call of the
    scheduler's public interface, a turn of the event loop, or code of the
    caller working on the runtime (creating and settling Hope instances,
    arming timers). *)

Inductive step : world -> world -> Prop :=
| step_add taskFn o w : step w (Scheduler.add taskFn o w).1
| step_start w : step w (Scheduler.start w)
| step_stop w : step w (Scheduler.stop w)
| step_onIdle w : step w (Scheduler.onIdle w).1
| step_cancelJob jobId w : step w (Scheduler.cancelJob jobId w).1
| step_cancelAll w : step w (Scheduler.cancelAll w).1
| step_turn w w' : turn w = Some w' -> step w w'
| step_caller (f : runtime -> runtime) w : step w (on_rt f w).

(** The states of the scheduler made by [new Scheduler(o)] in the runtime [r]. *)
Definition reachable (o : scheduler_options_arg) (r : runtime) (w : world) : Prop :=
  rtc step (Scheduler.new o r) w.

(** The observed totals of property 6:
    pending + running + completed + failed + canceled. *)
Definition observed_total (s : scheduler) : nat :=
  length (pendingJobs s) + length (runningJobs s)
  + Stats.completedJobs (stats s) + Stats.failedJobs (stats s)
  + Stats.canceledJobs (stats s).

(** ** What the inputs of [Hope.any] do

    After [Hope.any(items)] has returned, the handlers it attached run when
    the inputs settle: [resolve] of the returned instance [o] for an input
    that fulfils, the rejection handler of its index for one that rejects.
    Anything else may happen in between, as long as it leaves [o] and the
    variables of this call alone. *)

Inductive any_event :=
| InputFulfils (index : nat) (v : value)
| InputRejects (index : nat) (e : value)
| Elsewhere (g : world -> world).

Definition any_handle (o cell : nat) (w : world) (ev : any_event) : world :=
  match ev with
  | InputFulfils _ v => (apply_fn (FnResolve o) v w).1
  | InputRejects index e => (apply_fn (FnAnyRejected o cell index) e w).1
  | Elsewhere g => g w
  end.

Definition unrelated (o cell : nat) (ev : any_event) : Prop :=
  match ev with
  | Elsewhere g =>
      forall w, heap (rt (g w)) !! o = heap (rt w) !! o
             /\ any_cells (rt (g w)) !! cell = any_cells (rt w) !! cell
  | _ => True
  end.



(** ** The scenarios *)

Definition default_options : scheduler_options_arg :=
  SchedulerOptionsArg None None None.

(** [() => { executionOrder.push(l); return Hope.resolve(l); }] *)
Definition labelled_task (l : string) : task_function :=
  TaskFn l (fun _ => TaskHope (TaskResolved (VStr l))).

Definition with_priority (p : Z) : Job.options_arg :=
  Job.OptionsArg None None None (Some p).

(** Tasks A, B, C, D added with priorities 1, 10, 5, 100. *)
Definition add_ABCD (w : world) : world :=
  let w := (Scheduler.add (labelled_task "A") (with_priority 1) w).1 in
  let w := (Scheduler.add (labelled_task "B") (with_priority 10) w).1 in
  let w := (Scheduler.add (labelled_task "C") (with_priority 5) w).1 in
  (Scheduler.add (labelled_task "D") (with_priority 100) w).1.

(** The priority demonstration of the driver:
    [new Scheduler({ concurrency: 1, autoStart: true })] and the four adds,
    then the event loop until nothing is left to run. *)
Definition priority_demo : world :=
  run 100 (add_ABCD (Scheduler.new (SchedulerOptionsArg (Some 1) None (Some true))
                                   empty_runtime)).

(** The same four adds on a scheduler made with [autoStart: false] and
    started afterwards. *)
Definition priority_demo_started_late : world :=
  run 100 (Scheduler.start
    (add_ABCD (Scheduler.new (SchedulerOptionsArg (Some 1) None (Some false))
                             empty_runtime))).

(** A task that rejects on its first 2 attempts and fulfils with 'ok' on
    attempt 3. *)
Definition flaky_task : task_function :=
  TaskFn "flaky" (fun attempt =>
    if Nat.leb attempt 2 then TaskHope (TaskRejected (VError Error "not yet"))
    else TaskHope (TaskResolved (VStr "ok"))).

(** [add(flaky, { retries: 2, retryDelay: 0 })] on a scheduler made with the
    given options, then the event loop until nothing is left to run. *)
Definition retry_scenario (o : scheduler_options_arg) : world :=
  run 100 (Scheduler.add flaky_task (Job.OptionsArg None (Some 2) (Some 0) None)
             (Scheduler.new o empty_runtime)).1.

(** A task whose Hope never settles. *)
Definition hanging_task : task_function :=
  TaskFn "hanging" (fun _ => TaskHope TaskNever).

(** [add(hanging, { timeout: 1000, retries: 1, retryDelay: 500 })] on
    [new Scheduler({ concurrency: 2 })], then [turns] turns of the event
    loop. *)
Definition timeout_scenario (turns : nat) : world :=
  run turns (Scheduler.add hanging_task
               (Job.OptionsArg (Some 1000) (Some 1) (Some 500) None)
               (Scheduler.new (SchedulerOptionsArg (Some 2) None None) empty_runtime)).1.

(** [s = new Scheduler({ autoStart: false }); s.add(hanging); s.stop()] *)
Definition add_then_stop : world :=
  Scheduler.stop
    (Scheduler.add hanging_task Job.no_options
       (Scheduler.new (SchedulerOptionsArg None None (Some false)) empty_runtime)).1.

(** [s = new Scheduler(); first = s.onIdle(); s.add(hanging);
     second = s.onIdle()]: the world at the end, and the two instances. *)
Definition idle_scenario : world * nat * nat :=
  let (w, first) := Scheduler.onIdle (Scheduler.new default_options empty_runtime) in
  let w := (Scheduler.add hanging_task Job.no_options w).1 in
  let (w, second) := Scheduler.onIdle w in
  (w, first, second).

(** [x = Hope.resolve(1); d = new Hope(resolve => resolve(x))], then the
    event loop until nothing is left to run: the world, [x] and [d]. *)
Definition adoption_scenario : world * nat * nat :=
  let (x, r) := Hope.resolve (VNum 1) empty_runtime in
  let (d, r) := Hope.new (fun d r =>
                  (Hope._resolve d (VHope x) r, Return VUndefined)) r in
  (run 100 (Scheduler.new default_options r), x, d).

(** [x = { then(f) { setTimeout(() => f(1), 0); } }], a thenable that is
    not an instance of Hope, at index 0 of the table. *)
Definition foreign_runtime : runtime :=
  with_thenables (fun _ => [Thenable [(true, VNum 1)] None]) empty_runtime.

(** [d = new Hope(resolve => resolve(x)); e = Hope.resolve(x)], then the
    event loop until nothing is left to run: the world, [d] and [e]. *)
Definition foreign_scenario : world * nat * nat :=
  let (d, r) := Hope.new (fun d r =>
                  (Hope._resolve d (VThenable 0) r, Return VUndefined))
                  foreign_runtime in
  let (e, r) := Hope.resolve (VThenable 0) r in
  (run 100 (Scheduler.new default_options r), d, e).

(** [d = new Hope(resolve => setTimeout(() => resolve(d), 0))], then the
    event loop until nothing is left to run: the world and [d]. *)
Definition self_resolution_scenario : world * nat :=
  let (d, r) := Hope.new (fun d r =>
                  ((setTimeout (FnCall (FnResolve d) (VHope d)) 0 r).2,
                   Return VUndefined)) empty_runtime in
  (run 100 (Scheduler.new default_options r), d).

(** [p = Hope.resolve(1); q = p.then(() => q)], then the event loop until
    nothing is left to run: the world and [q].  [q] is the second instance
    made, at address 1. *)
Definition then_self_scenario : world * nat :=
  let (p, r) := Hope.resolve (VNum 1) empty_runtime in
  let (q, r) := Hope.then_ p (Some (FnUser (fun _ => Return (VHope 1)))) None r in
  (run 100 (Scheduler.new default_options r), q).

(** [Hope.any([Hope.reject('a'), Hope.reject('b')])], then the event loop
    until nothing is left to run: the world and the instance returned. *)
Definition any_all_reject_scenario : world * nat :=
  let (a, r) := Hope.reject (VStr "a") empty_runtime in
  let (b, r) := Hope.reject (VStr "b") r in
  let (o, r) := Hope.any [VHope a; VHope b] r in
  (run 100 (Scheduler.new default_options r), o).

(** [a = Hope.reject('a');
     b = new Hope(resolve => setTimeout(() => resolve('b'), 20));
     c = new Hope(resolve => setTimeout(() => resolve('c'), 10));
     o = Hope.any([a, b, c])], then the event loop until nothing is left to
    run: the world and [o]. *)
Definition any_first_fulfilment_scenario : world * nat :=
  let (a, r) := Hope.reject (VStr "a") empty_runtime in
  let (b, r) := make_task_hope (TaskResolvesAfter 20 (VStr "b")) r in
  let (c, r) := make_task_hope (TaskResolvesAfter 10 (VStr "c")) r in
  let (o, r) := Hope.any [VHope a; VHope b; VHope c] r in
  (run 100 (Scheduler.new default_options r), o).

(** A scheduler with [maxQueueSize: 1] and [autoStart: false] whose queue
    holds one job. *)
Definition full_queue : world :=
  (Scheduler.add hanging_task Job.no_options
     (Scheduler.new (SchedulerOptionsArg None (Some 1) (Some false)) empty_runtime)).1.



(** [d = new Hope(() => {})] and [x = Hope.resolve(1)], in this order. *)
Definition pending_and_fulfilled : runtime :=
  (Hope.resolve (VNum 1) (Hope.new (fun _ r => (r, Return VUndefined)) empty_runtime).2).2.

(** ** Programs

    The steps of a program that uses the library through its interface: the
    caller's steps are calls of the methods of class Hope and of the host's
    timers. *)

(** What code of the caller does with class Hope, as steps of the runtime. *)
Inductive caller_step : runtime -> runtime -> Prop :=
| caller_new r : caller_step r (Hope.alloc r).2
| caller_resolve h v r : caller_step r (Hope._resolve h v r)
| caller_reject h reason r : caller_step r (Hope._reject h reason r)
| caller_then h onFulfilled onRejected r :
    caller_step r (Hope.then_ h onFulfilled onRejected r).2
| caller_static_resolve v r : caller_step r (Hope.resolve v r).2
| caller_static_reject reason r : caller_step r (Hope.reject reason r).2
| caller_any items r : caller_step r (Hope.any items r).2
| caller_timeout h ms reason r : caller_step r (Hope.timeout h ms reason r).2
| caller_cancel h reason r : caller_step r (Hope.cancel h reason r).2
| caller_setTimeout f ms r : caller_step r (setTimeout f ms r).2
| caller_clearTimeout id r : caller_step r (clearTimeout id r).

Inductive program_step : world -> world -> Prop :=
| program_add taskFn o w : program_step w (Scheduler.add taskFn o w).1
| program_start w : program_step w (Scheduler.start w)
| program_stop w : program_step w (Scheduler.stop w)
| program_onIdle w : program_step w (Scheduler.onIdle w).1
| program_cancelJob jobId w : program_step w (Scheduler.cancelJob jobId w).1
| program_cancelAll w : program_step w (Scheduler.cancelAll w).1
| program_turn w w' : turn w = Some w' -> program_step w w'
| program_caller w r' : caller_step (rt w) r' -> program_step w (World r' (sched w)).

(** ** Predicates of the proofs *)


(** [w'] has the running set and the options of [w]. *)
Definition same_load (w w' : world) : Prop :=
  runningJobs (sched w') = runningJobs (sched w)
  /\ options (sched w') = options (sched w).

(** What a settlement decides of an instance. *)
Definition core (d : hope) : hope_state * value * value * bool :=
  (_state d, _value d, _reason d, _settled d).

(** [r'] has at the address [o] an instance with the core it has in [r]. *)
Definition kept (o : nat) (r r' : runtime) : Prop :=
  forall d, heap r !! o = Some d ->
    exists d', heap r' !! o = Some d' /\ core d' = core d.

(** The instance at [o] has had its [_settled] flag set. *)
Definition frozen (o : nat) (r : runtime) : Prop :=
  exists d, heap r !! o = Some d /\ _settled d = true.

(** [w'] keeps the instance at [o] as it is in [w], if it is settled there. *)
Definition steady (o : nat) (w w' : world) : Prop :=
  frozen o (rt w) -> kept o (rt w) (rt w').






(** ** Class Hope: further methods *)

Module HopeMore.

(** [this.catch(onRejected)] *)
Definition catch (this : nat) (onRejected : option fn) : runtime -> nat * runtime :=
  Hope.then_ this None onRejected.


(** [Hope.withTimeout(promise, ms, reason)] *)
Definition withTimeout (promise : value) (ms : nat) (reason : value)
    (r : runtime) : nat * runtime :=
  let (p, r) := Hope.resolve promise r in
  Hope.timeout p ms reason r.

(** The getters [state], [value] and [reason]; the last two throw when the
    state does not permit them. *)
Definition get_state (this : nat) (r : runtime) : option hope_state :=
  _state <$> heap r !! this.

Definition get_value (this : nat) (r : runtime) : completion :=
  match heap r !! this with
  | Some d =>
      if hope_state_eqb (_state d) FULFILLED then Return (_value d)
      else Throw (VError Error "Cannot get value from non-fulfilled Hope")
  | None => Throw (VError Error "Cannot get value from non-fulfilled Hope")
  end.

Definition get_reason (this : nat) (r : runtime) : completion :=
  match heap r !! this with
  | Some d =>
      if hope_state_eqb (_state d) REJECTED then Return (_reason d)
      else Throw (VError Error "Cannot get reason from non-rejected Hope")
  | None => Throw (VError Error "Cannot get reason from non-rejected Hope")
  end.

End HopeMore.

(** ** The progress channel

    The fields [_progressCallbacks] and [_pendingProgressValues] of one
    instance, kept beside the heap.  A subscriber is code of the caller that
    does not call back into the instance: it is known by a number, and
    [received] logs each call [callback(value)] the two methods make, in
    order.  What a subscriber throws is caught and logged to the console by
    both methods. *)

Module Progress.

Record channel := Channel {
  _progressCallbacks : list nat;
  _pendingProgressValues : list value;
  received : list (nat * value)
}.

(** The fields as the constructor initialises them. *)
Definition empty : channel := Channel [] [] [].

(** [this._state === Hope.PENDING] *)
Definition is_pending (this : nat) (r : runtime) : bool :=
  match heap r !! this with
  | Some d => hope_state_eqb (_state d) PENDING
  | None => false
  end.

(** [this.progress(callback)] *)
Definition progress (this : nat) (callback : nat) (r : runtime) (c : channel) : channel :=
  if is_pending this r then
    Channel (_progressCallbacks c ++ [callback])
            (_pendingProgressValues c)
            (received c ++ ((fun v => (callback, v)) <$> _pendingProgressValues c))
  else c.

(** [this._progress(value)] *)
Definition _progress (this : nat) (v : value) (r : runtime) (c : channel) : channel :=
  if negb (is_pending this r) then c
  else
    Channel (_progressCallbacks c)
            (_pendingProgressValues c ++ [v])
            (received c ++ ((fun callback => (callback, v)) <$> _progressCallbacks c)).

(** What the executor and the subscribers do to the channel. *)
Inductive op :=
| Emit (v : value)              (* the executor calls progress(v) *)
| Subscribe (callback : nat).   (* the caller calls hope.progress(callback) *)

Definition step (this : nat) (r : runtime) (c : channel) (o : op) : channel :=
  match o with
  | Emit v => _progress this v r c
  | Subscribe callback => progress this callback r c
  end.

(** The values a subscriber has been called with, in order. *)
Definition received_by (callback : nat) (c : channel) : list value :=
  (filter (fun p : nat * value => p.1 = callback) (received c)).*2.

(** The values emitted by the operations, in order, and the subscribers. *)
Definition emitted (ops : list op) : list value :=
  omap (fun o => match o with Emit v => Some v | Subscribe _ => None end) ops.

Definition subscribers (ops : list op) : list nat :=
  omap (fun o => match o with Subscribe cb => Some cb | Emit _ => None end) ops.

End Progress.

(** ** Class Scheduler: further methods *)

Module SchedulerMore.

(** The object [getStatus] returns. *)
Record status := Status {
  isRunning : bool;
  pending : nat;
  running : nat;
  completed : nat;
  stats_copy : Stats.t
}.

Definition getStatus (w : world) : status :=
  Status (_isRunning (sched w))
         (length (pendingJobs (sched w)))
         (length (runningJobs (sched w)))
         (length (completedJobs (sched w)))
         (stats (sched w)).

(** The string a job state is. *)
Definition status_name (s : Job.status) : string :=
  match s with
  | Job.pending => "pending"
  | Job.running => "running"
  | Job.completed => "completed"
  | Job.failed => "failed"
  | Job.canceled => "canceled"
  end.

(** [v || ...]: is [v] truthy? *)
Definition truthy (v : value) : bool :=
  match v with
  | VUndefined | VNull => false
  | VNum n => negb (Z.eqb n 0)
  | VStr s => negb (String.eqb s "")
  | _ => true
  end.

(** The body of the async function [waitForJob]: what it returns, which
    settles the promise of the call (a Hope returned is adopted by it), or
    throws, which rejects it. *)
Definition waitForJob (jobId : string) (w : world) : completion :=
  match jobs (sched w) !! jobId with
  | None => Throw (VError SchedulerError ("Job " +:+ jobId +:+ " not found"))
  | Some job =>
      match Job.state job with
      | Job.completed => Return (Job.result job)
      | Job.failed | Job.canceled =>
          if truthy (Job.error job) then Throw (Job.error job)
          else Throw (VError Error ("Job " +:+ jobId +:+ " "
                                    +:+ status_name (Job.state job)))
      | _ =>
          Return (match Job._hope job with
                  | Some h => VHope h
                  | None => VNull
                  end)
      end
  end.

End SchedulerMore.

(** ** Invariants of the scheduler *)

(** What holds of every job in the map: it is filed under its own id, it
    has been attempted at most once more than its retries, while it is
    pending it has an attempt left, before its first attempt it has no
    instance, and it has no error unless it is completed or failed. *)
Definition job_ok (id : string) (j : Job.t) : Prop :=
  Job.id j = id
  /\ Job.attempts j <= S (Job.retries (Job.options j))
  /\ (Job.state j = Job.pending -> Job.attempts j <= Job.retries (Job.options j))
  /\ (Job.attempts j = 0 -> Job._hope j = None)
  /\ (Job.state j <> Job.completed -> Job.state j <> Job.failed ->
      Job.error j = VNull).

(** Every slot is taken, or no job waits. *)
Definition saturated (s : scheduler) : Prop :=
  concurrency (options s) <= length (runningJobs s) \/ pendingJobs s = [].

(** [a] may stand before [b] in the queue. *)
Definition by_priority (s : scheduler) (a b : string) : Prop :=
  (Scheduler.job_priority s b <= Scheduler.job_priority s a)%Z.

(** The ids in the map are those that [add] has minted so far. *)
Definition minted (s : scheduler) : Prop :=
  forall id, is_Some (jobs s !! id) <->
    exists k, 0 < k < _nextJobId s /\ id = "job-" +:+ pretty k.

(** The invariant: the jobs are in order, the queue is sorted, the history
    has one entry per job counted as completed or failed, and the id counter
    is one ahead of the jobs added. *)
Definition well_formed (s : scheduler) : Prop :=
  map_Forall job_ok (jobs s)
  /\ StronglySorted (by_priority s) (pendingJobs s)
  /\ length (completedJobs s)
     = Stats.completedJobs (stats s) + Stats.failedJobs (stats s)
  /\ S (Stats.totalJobs (stats s)) = _nextJobId s
  /\ minted s.

(** ** What the inputs of [Hope.race] do

    The handlers that [Hope.race(items)] attaches to each input are
    [resolve] and [reject] of the returned instance [o]. *)

Definition race_handle (o : nat) (w : world) (ev : any_event) : world :=
  match ev with
  | InputFulfils _ v => (apply_fn (FnResolve o) v w).1
  | InputRejects _ e => (apply_fn (FnReject o) e w).1
  | Elsewhere g => g w
  end.



(** ** What a settlement leaves behind *)

(** The instance [d] after [_resolve] with a value that is not a thenable,
    after [_reject], and after a call of [then] with the closure [k]. *)
Definition fulfilled_with (v : value) (d : hope) : hope :=
  MkHope FULFILLED v (_reason d) [] (_onRejectedCallbacks d) true (_isCancelable d).

Definition rejected_because (reason : value) (d : hope) : hope :=
  MkHope REJECTED (_value d) reason (_onFulfilledCallbacks d) [] true (_isCancelable d).

Definition registered (k : continuation) (d : hope) : hope :=
  set_onRejectedCallbacks (_onRejectedCallbacks d ++ [k])
    (set_onFulfilledCallbacks (_onFulfilledCallbacks d ++ [k]) d).

(** What a settled instance hands to a handler: its value or its reason. *)
Definition outcome (d : hope) : value :=
  if hope_state_eqb (_state d) FULFILLED then _value d else _reason d.

(** [s'] has the options, the id counter, the running flag, the history and
    the counters of [s]. *)
Definition same_books (s s' : scheduler) : Prop :=
  options s' = options s
  /\ _nextJobId s' = _nextJobId s
  /\ _isRunning s' = _isRunning s
  /\ completedJobs s' = completedJobs s
  /\ stats s' = stats s.

(** [job.cancel()] would return true. *)
Definition cancelable (j : Job.t) : Prop :=
  Job.state j = Job.pending
  \/ (Job.state j = Job.running /\ is_Some (Job._cancel j)).

(** The job with the id [id] is canceled, or would be by [job.cancel()]. *)
Definition doomed (id : string) (w : world) : Prop :=
  exists j, jobs (sched w) !! id = Some j
    /\ (cancelable j \/ Job.state j = Job.canceled).

(** The job with the id [id] would be canceled by [job.cancel()], or it is
    canceled and [cancelAll] has collected its id. *)
Definition collected (id : string) (acc : world * list string) : Prop :=
  exists j, jobs (sched acc.1) !! id = Some j
    /\ (cancelable j \/ (Job.state j = Job.canceled /\ id ∈ acc.2)).

(** The counters other than [canceledJobs]. *)
Definition other_counters (s : Stats.t) : nat * nat * nat * nat :=
  (Stats.totalJobs s, Stats.completedJobs s, Stats.failedJobs s, Stats.totalTime s).

(** * Properties *)

(** Closed statements about a scenario are settled by running it. *)
Ltac by_running :=
  vm_compute;
  repeat match goal with |- _ /\ _ => split end;
  reflexivity.

(** ** Settlement *)

Section Settlement.

Lemma kept_refl o r : kept o r r.
Proof. intros d Hd. eauto. Qed.

Lemma kept_trans o r1 r2 r3 : kept o r1 r2 -> kept o r2 r3 -> kept o r1 r3.
Proof.
  intros H12 H23 d Hd.
  destruct (H12 d Hd) as (d2 & Hd2 & Hc2).
  destruct (H23 d2 Hd2) as (d3 & Hd3 & Hc3).
  exists d3. split; [done | congruence].
Qed.

Lemma kept_heap_eq o r r' : heap r' = heap r -> kept o r r'.
Proof. intros Heq d Hd. rewrite Heq. eauto. Qed.

Lemma kept_frozen o r r' : kept o r r' -> frozen o r -> frozen o r'.
Proof.
  intros Hk (d & Hd & Hs). destruct (Hk d Hd) as (d' & Hd' & Hc).
  exists d'. split; [done|]. unfold core in Hc. congruence.
Qed.

Lemma kept_alloc o r : kept o r (Hope.alloc r).2.
Proof.
  intros d Hd. exists d. split; [|done]. simpl.
  apply lookup_app_l_Some. done.
Qed.

Lemma kept_update_ne o h f r : h <> o -> kept o r (Hope.update h f r).
Proof.
  intros Hne d Hd. exists d. split; [|done].
  simpl. by rewrite list_lookup_alter_ne.
Qed.

Lemma kept_update_core o h f r :
  (forall d, core (f d) = core d) -> kept o r (Hope.update h f r).
Proof.
  intros Hf d Hd. destruct (decide (h = o)) as [->|Hne].
  - exists (f d). split; [|done]. simpl. by rewrite list_lookup_alter_eq, Hd.
  - by apply kept_update_ne.
Qed.

Lemma heap_handleSettlements ks r :
  heap (foldl (fun r k => Hope.handleSettlement k r) r ks) = heap r.
Proof. revert r. induction ks as [|k ks IH]; intros r; [done|]. simpl. by rewrite IH. Qed.

Lemma kept_callFulfilledCallbacks o h r : kept o r (Hope._callFulfilledCallbacks h r).
Proof.
  unfold Hope._callFulfilledCallbacks.
  destruct (heap r !! h) as [d|]; [|apply kept_refl].
  eapply kept_trans; [|apply kept_heap_eq, heap_handleSettlements].
  by apply kept_update_core.
Qed.

Lemma kept_callRejectedCallbacks o h r : kept o r (Hope._callRejectedCallbacks h r).
Proof.
  unfold Hope._callRejectedCallbacks.
  destruct (heap r !! h) as [d|]; [|apply kept_refl].
  eapply kept_trans; [|apply kept_heap_eq, heap_handleSettlements].
  by apply kept_update_core.
Qed.

(** A settlement attempt on a settled instance changes nothing. *)
Lemma _reject_settled h reason r d :
  heap r !! h = Some d -> _settled d = true -> Hope._reject h reason r = r.
Proof. intros Hd Hs. unfold Hope._reject. by rewrite Hd, Hs. Qed.

Lemma _resolve_settled h v r d :
  heap r !! h = Some d -> _settled d = true -> Hope._resolve h v r = r.
Proof. intros Hd Hs. unfold Hope._resolve. by rewrite Hd, Hs. Qed.

Lemma kept_reject o h reason r :
  h <> o \/ frozen o r -> kept o r (Hope._reject h reason r).
Proof.
  intros Hside. destruct (decide (h = o)) as [->|Hne].
  - destruct Hside as [?|(d & Hd & Hs)]; [done|].
    rewrite (_reject_settled _ _ _ _ Hd Hs). apply kept_refl.
  - unfold Hope._reject.
    destruct (heap r !! h) as [d|]; [|apply kept_refl].
    destruct (_settled d); [apply kept_refl|].
    eapply kept_trans; [|apply kept_callRejectedCallbacks].
    eapply kept_trans; [|by apply kept_update_ne].
    eapply kept_trans; [|by apply kept_update_ne].
    by apply kept_update_ne.
Qed.

Lemma kept_new o executor r :
  (forall h r0, h <> o -> kept o r0 (executor h r0).1) ->
  kept o r (Hope.new executor r).2.
Proof.
  intros Hex d Hd.
  assert (length (heap r) <> o) as Hne.
  { apply lookup_lt_Some in Hd. lia. }
  revert d Hd. change (kept o r (Hope.new executor r).2).
  unfold Hope.new. simpl.
  pose proof (Hex (length (heap r)) (Hope.alloc r).2 Hne) as Hk.
  simpl in Hk.
  destruct (executor (length (heap r)) _) as [r1 [v|error]]; simpl in *.
  - eapply kept_trans; [apply kept_alloc | exact Hk].
  - eapply kept_trans; [apply kept_alloc|].
    eapply kept_trans; [exact Hk|].
    apply kept_reject. by left.
Qed.

Lemma kept_then o this onFulfilled onRejected r :
  kept o r (Hope.then_ this onFulfilled onRejected r).2.
Proof.
  unfold Hope.then_. apply kept_new. intros h r0 _.
  destruct (heap r0 !! this) as [d|]; [|apply kept_refl].
  destruct (hope_state_eqb (_state d) PENDING); simpl.
  - eapply kept_trans; [|by apply kept_update_core].
    by apply kept_update_core.
  - by apply kept_heap_eq.
Qed.

Lemma heap_setTimeouts (cb : bool * value -> fn) ds r :
  heap (foldl (fun r d => (setTimeout (cb d) 0 r).2) r ds) = heap r.
Proof. revert r. induction ds as [|d ds IH]; intros r; [done|]. simpl. by rewrite IH. Qed.

Lemma kept_call_then o x onFulfilled onRejected r :
  kept o r (Hope.call_then x onFulfilled onRejected r).1.
Proof.
  unfold Hope.call_then. destruct x; try apply kept_refl.
  - pose proof (kept_then o h (Some onFulfilled) (Some onRejected) r) as H.
    by destruct (Hope.then_ h _ _ r).
  - destruct (thenables r !! t) as [th|]; [|apply kept_refl].
    simpl. apply kept_heap_eq.
    apply (heap_setTimeouts
             (fun d => FnCall (if d.1 then onFulfilled else onRejected) d.2)).
Qed.

Lemma kept_resolve o h v r :
  h <> o \/ frozen o r -> kept o r (Hope._resolve h v r).
Proof.
  intros Hside. destruct (decide (h = o)) as [->|Hne].
  - destruct Hside as [?|(d & Hd & Hs)]; [done|].
    rewrite (_resolve_settled _ _ _ _ Hd Hs). apply kept_refl.
  - unfold Hope._resolve.
    destruct (heap r !! h) as [d|]; [|apply kept_refl].
    destruct (_settled d); [apply kept_refl|].
    assert (kept o r (Hope.update h (set_settled true) r)) as H0
      by (by apply kept_update_ne).
    destruct (same_hope v h).
    { eapply kept_trans; [exact H0|]. apply kept_reject. by left. }
    destruct (is_thenable v).
    + pose proof (kept_call_then o v (FnResolve h) (FnReject h)
                    (Hope.update h (set_settled true) r)) as Hk.
      destruct (Hope.call_then v _ _ _) as [r1 [?|error]]; simpl in Hk.
      * by eapply kept_trans.
      * eapply kept_trans; [exact H0|].
        eapply kept_trans; [exact Hk|]. apply kept_reject. by left.
    + eapply kept_trans; [exact H0|].
      eapply kept_trans; [|apply kept_callFulfilledCallbacks].
      eapply kept_trans; [|by apply kept_update_ne].
      by apply kept_update_ne.
Qed.

Lemma kept_resolvePromise o this target x r :
  target <> o \/ frozen o r -> kept o r (Hope._resolvePromise this target x r).
Proof.
  intros Hside. unfold Hope._resolvePromise.
  destruct (same_hope x this); [by apply kept_reject|].
  destruct (is_thenable x); [|by apply kept_resolve].
  pose proof (kept_call_then o x
    (FnAdoptFulfilled this (length (called_flags r)) target)
    (FnAdoptRejected (length (called_flags r)) target)
    (with_called_flags (fun l => l ++ [false]) r)) as Hk.
  destruct (Hope.call_then x _ _ _) as [r1 [?|error]]; simpl in Hk.
  - eapply kept_trans; [by apply kept_heap_eq | done].
  - destruct (called_flags r1 !! length (called_flags r)) as [[|]|].
    + eapply kept_trans; [by apply kept_heap_eq | done].
    + eapply kept_trans; [by apply kept_heap_eq|].
      eapply kept_trans; [exact Hk|]. apply kept_reject.
      destruct Hside as [?|Hfr]; [by left|right].
      eapply kept_frozen; [|exact Hfr].
      eapply kept_trans; [by apply kept_heap_eq | exact Hk].
    + eapply kept_trans; [by apply kept_heap_eq|].
      eapply kept_trans; [exact Hk|]. apply kept_reject.
      destruct Hside as [?|Hfr]; [by left|right].
      eapply kept_frozen; [|exact Hfr].
      eapply kept_trans; [by apply kept_heap_eq | exact Hk].
Qed.

(** [Hope.resolve] and [Hope.reject] only settle instances they create. *)
Lemma kept_static_resolve o v r : kept o r (Hope.resolve v r).2.
Proof.
  unfold Hope.resolve.
  assert (kept o r
    (if is_thenable v
     then Hope.new (fun h r => Hope.call_then v (FnResolve h) (FnReject h) r) r
     else Hope.new (fun h r => (Hope._resolve h v r, Return VUndefined)) r).2) as H.
  { destruct (is_thenable v); apply kept_new; intros h r0 Hne; simpl.
    - apply kept_call_then.
    - apply kept_resolve. by left. }
  destruct v; try exact H. apply kept_refl.
Qed.

Lemma kept_static_reject o reason r : kept o r (Hope.reject reason r).2.
Proof.
  unfold Hope.reject. apply kept_new. intros h r0 Hne. simpl.
  apply kept_reject. by left.
Qed.

End Settlement.

(** ** The variables of [Hope.any]

    No method of class Hope other than [any] and its rejection handler
    touches the cells that hold them. *)

Section Cells.

Lemma cells_handleSettlements ks r :
  any_cells (foldl (fun r k => Hope.handleSettlement k r) r ks) = any_cells r.
Proof. revert r. induction ks as [|k ks IH]; intros r; [done|]. simpl. by rewrite IH. Qed.

Lemma cells_callFulfilledCallbacks h r :
  any_cells (Hope._callFulfilledCallbacks h r) = any_cells r.
Proof.
  unfold Hope._callFulfilledCallbacks.
  destruct (heap r !! h); [|done]. by rewrite cells_handleSettlements.
Qed.

Lemma cells_callRejectedCallbacks h r :
  any_cells (Hope._callRejectedCallbacks h r) = any_cells r.
Proof.
  unfold Hope._callRejectedCallbacks.
  destruct (heap r !! h); [|done]. by rewrite cells_handleSettlements.
Qed.

Lemma cells_reject h reason r : any_cells (Hope._reject h reason r) = any_cells r.
Proof.
  unfold Hope._reject.
  destruct (heap r !! h) as [d|]; [|done].
  destruct (_settled d); [done|]. by rewrite cells_callRejectedCallbacks.
Qed.

Lemma cells_new executor r :
  (forall h r0, any_cells (executor h r0).1 = any_cells r0) ->
  any_cells (Hope.new executor r).2 = any_cells r.
Proof.
  intros Hex. unfold Hope.new. simpl.
  pose proof (Hex (length (heap r)) (Hope.alloc r).2) as H. simpl in H.
  destruct (executor _ _) as [r1 [v|error]]; simpl in *; [done|].
  by rewrite cells_reject.
Qed.

Lemma cells_then this onFulfilled onRejected r :
  any_cells (Hope.then_ this onFulfilled onRejected r).2 = any_cells r.
Proof.
  unfold Hope.then_. apply cells_new. intros h r0.
  destruct (heap r0 !! this) as [d|]; [|done].
  by destruct (hope_state_eqb (_state d) PENDING).
Qed.

Lemma cells_setTimeouts (cb : bool * value -> fn) ds r :
  any_cells (foldl (fun r d => (setTimeout (cb d) 0 r).2) r ds) = any_cells r.
Proof. revert r. induction ds as [|d ds IH]; intros r; [done|]. simpl. by rewrite IH. Qed.

Lemma cells_call_then x onFulfilled onRejected r :
  any_cells (Hope.call_then x onFulfilled onRejected r).1 = any_cells r.
Proof.
  unfold Hope.call_then. destruct x; try done.
  - pose proof (cells_then h (Some onFulfilled) (Some onRejected) r) as H.
    by destruct (Hope.then_ h _ _ r).
  - destruct (thenables r !! t) as [th|]; [|done]. simpl.
    apply (cells_setTimeouts
             (fun d => FnCall (if d.1 then onFulfilled else onRejected) d.2)).
Qed.

Lemma cells_resolve h v r : any_cells (Hope._resolve h v r) = any_cells r.
Proof.
  unfold Hope._resolve.
  destruct (heap r !! h) as [d|]; [|done].
  destruct (_settled d); [done|].
  destruct (same_hope v h); [by rewrite cells_reject|].
  destruct (is_thenable v).
  - pose proof (cells_call_then v (FnResolve h) (FnReject h)
                  (Hope.update h (set_settled true) r)) as H.
    destruct (Hope.call_then v _ _ _) as [r1 [?|error]]; simpl in H; [done|].
    by rewrite cells_reject.
  - by rewrite cells_callFulfilledCallbacks.
Qed.

Lemma cells_static_resolve v r : any_cells (Hope.resolve v r).2 = any_cells r.
Proof.
  unfold Hope.resolve.
  assert (any_cells
    (if is_thenable v
     then Hope.new (fun h r => Hope.call_then v (FnResolve h) (FnReject h) r) r
     else Hope.new (fun h r => (Hope._resolve h v r, Return VUndefined)) r).2
    = any_cells r) as H.
  { destruct (is_thenable v); apply cells_new; intros h r0; simpl.
    - apply cells_call_then.
    - apply cells_resolve. }
  destruct v; try exact H. done.
Qed.

End Cells.

(** ** Settling an instance that is not settled *)

Section Settling.


Lemma _resolve_unsettled o v r d :
  heap r !! o = Some d -> _settled d = false -> is_thenable v = false ->
  exists d', heap (Hope._resolve o v r) !! o = Some d'
    /\ _state d' = FULFILLED /\ _value d' = v /\ _settled d' = true.
Proof.
  intros Hd Hs Hv. unfold Hope._resolve. rewrite Hd, Hs.
  assert (same_hope v o = false) as -> by (by destruct v).
  rewrite Hv.
  unfold Hope._callFulfilledCallbacks. simpl.
  rewrite !list_lookup_alter_eq, Hd. simpl.
  rewrite heap_handleSettlements. simpl.
  rewrite !list_lookup_alter_eq, Hd. simpl.
  eexists. split; [reflexivity|]. done.
Qed.

End Settling.

(** ** Resolution with a thenable, and with the instance itself *)

(** What [_resolve] does for a thenable other than the instance itself: it
    sets the flag and calls [then]; a throw of [then] is ignored as a second
    settlement. *)
Lemma _resolve_thenable r h d x :
  heap r !! h = Some d -> _settled d = false ->
  is_thenable x = true -> same_hope x h = false ->
  Hope._resolve h x r
  = (Hope.call_then x (FnResolve h) (FnReject h)
       (Hope.update h (set_settled true) r)).1
  /\ exists d', heap (Hope._resolve h x r) !! h = Some d'
       /\ core d' = core (set_settled true d).
Proof.
  intros Hd Hs Hx Hself.
  assert (heap (Hope.update h (set_settled true) r) !! h
          = Some (set_settled true d)) as Hd1.
  { simpl. by rewrite list_lookup_alter_eq, Hd. }
  pose proof (kept_call_then h x (FnResolve h) (FnReject h)
                (Hope.update h (set_settled true) r)) as Hk.
  destruct (Hk _ Hd1) as (d' & Hd' & Hcore).
  assert (Hope._resolve h x r
          = (Hope.call_then x (FnResolve h) (FnReject h)
               (Hope.update h (set_settled true) r)).1) as Hr'.
  { unfold Hope._resolve. rewrite Hd, Hs, Hself, Hx.
    destruct (Hope.call_then x _ _ _) as [r1 [?|error]]; [done|].
    simpl in *. eapply _reject_settled; [exact Hd'|].
    unfold core in Hcore. simpl in Hcore. congruence. }
  split; [done|]. rewrite Hr'. by exists d'.
Qed.

(** What [_resolve] does for the instance itself: it sets the flag, and the
    [_reject] it calls is ignored as a second settlement. *)
Lemma _resolve_self r h d :
  heap r !! h = Some d -> _settled d = false ->
  Hope._resolve h (VHope h) r = Hope.update h (set_settled true) r
  /\ heap (Hope._resolve h (VHope h) r) !! h = Some (set_settled true d).
Proof.
  intros Hd Hs.
  assert (heap (Hope.update h (set_settled true) r) !! h
          = Some (set_settled true d)) as Hd1.
  { simpl. by rewrite list_lookup_alter_eq, Hd. }
  assert (Hope._resolve h (VHope h) r = Hope.update h (set_settled true) r) as ->.
  { unfold Hope._resolve. rewrite Hd, Hs.
    cbn [same_hope]. rewrite Nat.eqb_refl.
    by eapply _reject_settled. }
  done.
Qed.

(** C1.  When [_resolve] is called on a pending instance [h] with a
    thenable [x], it sets [_settled] and calls [x.then] once, with the
    instance's own [resolve] and [reject] as callbacks.  The instance stays
    pending, and since it now counts as settled both callbacks are ignored
    whenever the thenable delivers: the settlement of [x] never reaches
    [h]. *)
Theorem resolve_with_thenable_stays_pending r h d x :
  heap r !! h = Some d -> _settled d = false -> _state d = PENDING ->
  is_thenable x = true -> same_hope x h = false ->
  let r' := Hope._resolve h x r in
  r' = (Hope.call_then x (FnResolve h) (FnReject h)
          (Hope.update h (set_settled true) r)).1
  /\ (exists d', heap r' !! h = Some d'
        /\ _state d' = PENDING /\ _settled d' = true)
  /\ (forall r'', kept h r' r'' ->
        forall v, Hope._resolve h v r'' = r'' /\ Hope._reject h v r'' = r'').
Proof.
  intros Hd Hs Hst Hx Hself r'.
  destruct (_resolve_thenable r h d x Hd Hs Hx Hself) as (Hr' & d' & Hd' & Hcore).
  assert (_state d' = PENDING /\ _settled d' = true) as [Hst' Hs'].
  { unfold core in Hcore. simpl in Hcore. split; congruence. }
  split; [done|]. split; [by exists d'|].
  intros r'' Hkept v.
  destruct (Hkept d' Hd') as (d'' & Hd'' & Hcore'').
  assert (_settled d'' = true) as Hs'' by (unfold core in Hcore''; congruence).
  split; [by eapply _resolve_settled | by eapply _reject_settled].
Qed.

Lemma resolve_with_thenable_stays_pending_witness :
  let r' := Hope._resolve 0 (VHope 1) pending_and_fulfilled in
  (_state <$> heap pending_and_fulfilled !! 1 = Some FULFILLED)
  /\ (exists d', heap r' !! 0 = Some d' /\ _state d' = PENDING /\ _settled d' = true)
  /\ (forall v, Hope._resolve 0 v r' = r' /\ Hope._reject 0 v r' = r').
Proof.
  pose proof (resolve_with_thenable_stays_pending pending_and_fulfilled 0 fresh_hope
                (VHope 1) eq_refl eq_refl eq_refl eq_refl eq_refl) as (_ & H2 & H3).
  split; [reflexivity|]. split; [exact H2|].
  intros v. apply H3, kept_refl.
Defined.

(** The same through the event loop: when nothing is left to run, [x] is
    fulfilled with 1 and [d], resolved with [x], is still pending. *)
Lemma adoption_scenario_runs :
  let '(w, x, d) := adoption_scenario in
  quiescent w
  /\ _state <$> heap (rt w) !! x = Some FULFILLED
  /\ _value <$> heap (rt w) !! x = Some (VNum 1)
  /\ _state <$> heap (rt w) !! d = Some PENDING
  /\ _settled <$> heap (rt w) !! d = Some true.
Proof. by_running. Qed.

(** With a thenable that is not an instance of Hope: [d], resolved with it
    through its [resolve] callback, stays pending, while [Hope.resolve] of
    the same thenable is fulfilled with the value it delivers. *)
Lemma foreign_scenario_runs :
  let '(w, d, e) := foreign_scenario in
  quiescent w
  /\ _state <$> heap (rt w) !! d = Some PENDING
  /\ _state <$> heap (rt w) !! e = Some FULFILLED
  /\ _value <$> heap (rt w) !! e = Some (VNum 1).
Proof. by_running. Qed.

(** An instance is only ever fulfilled with a value that is not a
    thenable. *)
Lemma fulfilled_value_not_thenable r h d v d' :
  heap r !! h = Some d -> _settled d = false -> _state d = PENDING ->
  heap (Hope._resolve h v r) !! h = Some d' -> _state d' = FULFILLED ->
  is_thenable v = false.
Proof.
  intros Hd Hs Hst Hd' Hst'.
  destruct (is_thenable v) eqn:Hv; [exfalso|done].
  destruct (same_hope v h) eqn:Hself.
  - destruct v; try done. simpl in Hself. apply Nat.eqb_eq in Hself as ->.
    destruct (_resolve_self r h d Hd Hs) as [_ Hd1].
    rewrite Hd1 in Hd'. injection Hd' as <-. simpl in Hst'. congruence.
  - destruct (_resolve_thenable r h d v Hd Hs Hv Hself) as (_ & d1 & Hd1 & Hcore).
    rewrite Hd1 in Hd'. injection Hd' as <-.
    unfold core in Hcore. simpl in Hcore. congruence.
Qed.

(** C2.  When [_resolve] is called on a pending instance with the instance
    itself, it sets [_settled] and nothing else: the [_reject] it calls with
    the TypeError finds the instance settled and returns.  The instance
    stays pending, with no reason, and every later attempt to settle it is
    ignored. *)
Theorem self_resolution_stays_pending r h d :
  heap r !! h = Some d -> _settled d = false -> _state d = PENDING ->
  let r' := Hope._resolve h (VHope h) r in
  r' = Hope.update h (set_settled true) r
  /\ (exists d', heap r' !! h = Some d'
        /\ _state d' = PENDING /\ _reason d' = _reason d /\ _settled d' = true)
  /\ (forall v, Hope._resolve h v r' = r' /\ Hope._reject h v r' = r').
Proof.
  intros Hd Hs Hst r'.
  destruct (_resolve_self r h d Hd Hs) as [Hr' Hd'].
  split; [done|]. split.
  - exists (set_settled true d). done.
  - intros v. split; [by eapply _resolve_settled | by eapply _reject_settled].
Qed.

Lemma self_resolution_stays_pending_witness :
  let r := (Hope.new (fun _ r => (r, Return VUndefined)) empty_runtime).2 in
  let r' := Hope._resolve 0 (VHope 0) r in
  exists d', heap r' !! 0 = Some d'
    /\ _state d' = PENDING /\ _reason d' = VUndefined /\ _settled d' = true.
Proof.
  exact (proj1 (proj2 (self_resolution_stays_pending
           (Hope.new (fun _ r => (r, Return VUndefined)) empty_runtime).2
           0 fresh_hope eq_refl eq_refl eq_refl))).
Defined.

(** The same through the event loop: an instance resolved with itself from a
    timer is pending when nothing is left to run. *)
Lemma self_resolution_scenario_runs :
  let '(w, d) := self_resolution_scenario in
  quiescent w
  /\ _state <$> heap (rt w) !! d = Some PENDING
  /\ _reason <$> heap (rt w) !! d = Some VUndefined
  /\ _settled <$> heap (rt w) !! d = Some true.
Proof. by_running. Qed.

(** On the path of [then], [_resolvePromise] compares the handler's result
    with the source instance, not with the instance [then] returned: a
    handler that returns the latter leaves it pending as well. *)
Lemma then_self_scenario_runs :
  let '(w, q) := then_self_scenario in
  q = 1
  /\ quiescent w
  /\ _state <$> heap (rt w) !! q = Some PENDING.
Proof. by_running. Qed.

(** ** Hope.any *)

Section Any.





Variables o cell n : nat.







End Any.

Section AnyCall.

(** One iteration of the [forEach] of [Hope.any]. *)
Lemma any_loop_frame (o cell : nat) (entries : list (nat * value)) o' r :
  let r' := foldl (fun r (entry : nat * value) =>
              let (p, r) := Hope.resolve entry.2 r in
              (Hope.then_ p (Some (FnResolve o))
                            (Some (FnAnyRejected o cell entry.1)) r).2) r entries in
  kept o' r r' /\ any_cells r' = any_cells r.
Proof.
  revert r. induction entries as [|entry entries IH]; intros r.
  - split; [apply kept_refl | done].
  - simpl.
    pose proof (kept_static_resolve o' entry.2 r) as Hk1.
    pose proof (cells_static_resolve entry.2 r) as Hc1.
    destruct (Hope.resolve entry.2 r) as [p r1]. simpl in Hk1, Hc1.
    pose proof (kept_then o' p (Some (FnResolve o))
                  (Some (FnAnyRejected o cell entry.1)) r1) as Hk2.
    pose proof (cells_then p (Some (FnResolve o))
                  (Some (FnAnyRejected o cell entry.1)) r1) as Hc2.
    destruct (IH (Hope.then_ p (Some (FnResolve o))
                   (Some (FnAnyRejected o cell entry.1)) r1).2) as [Hk3 Hc3].
    split.
    + eapply kept_trans; [exact Hk1|]. eapply kept_trans; [exact Hk2 | exact Hk3].
    + rewrite Hc3, Hc2, Hc1. done.
Qed.

Lemma any_address items r : (Hope.any items r).1 = length (heap r).
Proof.
  unfold Hope.any, Hope.new. simpl.
  by destruct (Nat.eqb (length items) 0).
Qed.




End AnyCall.



(** The third scenario of the specification, through the event loop:
    [any([reject('a'), reject('b')])] rejects with an aggregate of
    ['a', 'b']. *)
Lemma any_all_reject_scenario_runs :
  let '(w, o) := any_all_reject_scenario in
  quiescent w
  /\ _state <$> heap (rt w) !! o = Some REJECTED
  /\ _reason <$> heap (rt w) !! o
     = Some (VAggregateError [VStr "a"; VStr "b"] "All promises were rejected").
Proof. by_running. Qed.

(** With inputs that settle at different times, the instance returned takes
    the value of the one that fulfils first, here the last of the array. *)
Lemma any_first_fulfilment_scenario_runs :
  let '(w, o) := any_first_fulfilment_scenario in
  quiescent w
  /\ _state <$> heap (rt w) !! o = Some FULFILLED
  /\ _value <$> heap (rt w) !! o = Some (VStr "c").
Proof. by_running. Qed.

(** Resolving another instance with a value that is not a thenable leaves
    [o] and the cells alone. *)
Lemma _resolve_plain_elsewhere o target v r :
  target <> o -> is_thenable v = false ->
  heap (Hope._resolve target v r) !! o = heap r !! o
  /\ any_cells (Hope._resolve target v r) = any_cells r.
Proof.
  intros Hne Hv. split; [|apply cells_resolve].
  unfold Hope._resolve.
  destruct (heap r !! target) as [d|] eqn:Hd; [|done].
  destruct (_settled d); [done|].
  assert (same_hope v target = false) as -> by (by destruct v).
  rewrite Hv. unfold Hope._callFulfilledCallbacks. simpl.
  rewrite !list_lookup_alter_eq, Hd. simpl.
  rewrite heap_handleSettlements. simpl.
  by rewrite !list_lookup_alter_ne.
Qed.

(** What [scheduleTask] does after the handler of [Hope.any] has returned,
    resolving the instance that [then] returned with [undefined], is
    unrelated to this call of [Hope.any]. *)
Lemma resolvePromise_unrelated o cell p target :
  target <> o ->
  unrelated o cell (Elsewhere (on_rt (Hope._resolvePromise p target VUndefined))).
Proof.
  intros Hne w. simpl. unfold Hope._resolvePromise. simpl.
  destruct (_resolve_plain_elsewhere o target VUndefined (rt w) Hne eq_refl) as [-> ->].
  done.
Qed.

(** The microtask that [then] queues for an input of [Hope.any] calls the
    handler that [any_handle] calls, with the input's value or reason. *)
Lemma scheduleTask_any_fulfilled o cell index p target w this :
  heap (rt w) !! p = Some this -> _state this = FULFILLED ->
  scheduleTask (Continuation p (Some (FnResolve o))
                  (Some (FnAnyRejected o cell index)) target) w
  = on_rt (Hope._resolvePromise p target VUndefined)
      (any_handle o cell w (InputFulfils index (_value this))).
Proof.
  intros Hp Hst. unfold scheduleTask. cbn [k_source k_onFulfilled k_onRejected k_target].
  rewrite Hp, Hst. done.
Qed.

Lemma scheduleTask_any_rejected o cell index p target w this :
  heap (rt w) !! p = Some this -> _state this = REJECTED ->
  scheduleTask (Continuation p (Some (FnResolve o))
                  (Some (FnAnyRejected o cell index)) target) w
  = on_rt (Hope._resolvePromise p target VUndefined)
      (any_handle o cell w (InputRejects index (_reason this))).
Proof.
  intros Hp Hst. unfold scheduleTask. cbn [k_source k_onFulfilled k_onRejected k_target].
  rewrite Hp, Hst. cbn [hope_state_eqb any_handle].
  destruct (apply_fn (FnAnyRejected o cell index) (_reason this) w) as [w' c] eqn:Happ.
  assert (c = Return VUndefined) as ->.
  { cbn [apply_fn] in Happ. destruct (any_cells (rt w) !! cell) as [a|].
    - destruct (Nat.eqb _ _) in Happ; by injection Happ as _ <-.
    - by injection Happ as _ <-. }
  done.
Qed.

(** ** A settled instance stays as it is *)

Section Final.

Variable o : nat.

Lemma steady_refl w : steady o w w.
Proof. intros _. apply kept_refl. Qed.

Lemma steady_trans w1 w2 w3 : steady o w1 w2 -> steady o w2 w3 -> steady o w1 w3.
Proof.
  intros H12 H23 Hfr. eapply kept_trans; [by apply H12|].
  apply H23. eapply kept_frozen; [by apply H12 | done].
Qed.

Lemma steady_kept w w' : kept o (rt w) (rt w') -> steady o w w'.
Proof. by intros H _. Qed.

Lemma kept_any items r : kept o r (Hope.any items r).2.
Proof.
  unfold Hope.any. apply kept_new. intros h r0 Hne.
  destruct (Nat.eqb (length items) 0); simpl.
  - eapply kept_trans; [|apply kept_reject; by left]. by apply kept_heap_eq.
  - match goal with
    | |- kept o r0 (foldl ?f ?r1 ?l) =>
        destruct (any_loop_frame h (length (any_cells r0)) l o r1) as [Hk _]
    end.
    eapply kept_trans; [|exact Hk]. by apply kept_heap_eq.
Qed.

Lemma kept_timeout this ms reason r : kept o r (Hope.timeout this ms reason r).2.
Proof.
  unfold Hope.timeout. apply kept_new. intros h r0 _. simpl.
  pose proof (kept_then o this (Some (FnTimeoutFulfilled (next_timer r0) h))
                (Some (FnTimeoutRejected (next_timer r0) h))
                (setTimeout (FnTimeoutExpired h reason) ms r0).2) as Hk.
  simpl in Hk. destruct (Hope.then_ this _ _ _) as [p r1]. simpl in *.
  eapply kept_trans; [|exact Hk]. by apply kept_heap_eq.
Qed.

Lemma kept_cancellable executor r :
  (forall h r0, h <> o -> kept o r0 (executor h r0).1) ->
  kept o r (Hope.cancellable executor r).2.
Proof.
  intros Hex. unfold Hope.cancellable.
  pose proof (kept_new o executor r Hex) as Hk.
  destruct (Hope.new executor r) as [h r1]. simpl in *.
  eapply kept_trans; [exact Hk|]. by apply kept_update_core.
Qed.

Lemma kept_make_task_hope p r : kept o r (make_task_hope p r).2.
Proof.
  destruct p; cbn [make_task_hope].
  - apply kept_static_resolve.
  - apply kept_static_reject.
  - apply kept_new. intros h r0 _. by apply kept_heap_eq.
  - apply kept_new. intros h r0 _. by apply kept_heap_eq.
  - apply kept_new. intros h r0 _. apply kept_refl.
Qed.

Lemma kept_call_task t attempt r : kept o r (call_task t attempt r).1.
Proof.
  unfold call_task. destruct (task_attempt t attempt) as [p|v|e]; simpl.
  - pose proof (kept_make_task_hope p
      (with_executionOrder (fun l => l ++ [task_label t]) r)) as Hk.
    destruct (make_task_hope p _) as [h r1]. simpl in *.
    eapply kept_trans; [|exact Hk]. by apply kept_heap_eq.
  - by apply kept_heap_eq.
  - by apply kept_heap_eq.
Qed.

Lemma kept_Job_run job r : kept o r (Job.run job r).1.2.
Proof.
  unfold Job.run. destruct (negb _).
  - pose proof (kept_static_reject o
      (VError Error ("Job " +:+ Job.id job +:+ " is not pending")) r) as Hk.
    by destruct (Hope.reject _ r).
  - match goal with
    | |- context [Hope.cancellable ?ex r] =>
        pose proof (kept_cancellable ex r) as Hk;
        destruct (Hope.cancellable ex r) as [hope r1]
    end.
    simpl in Hk.
    assert (kept o r r1) as Hk1.
    { apply Hk. intros h r0 Hne.
      pose proof (kept_call_task (Job.taskFn job) (S (Job.attempts job)) r0) as Hc.
      destruct (call_task _ _ r0) as [r2 [v|e]]; simpl in *; [|done].
      destruct v; simpl;
        try (eapply kept_trans; [exact Hc|]; apply kept_reject; by left).
      pose proof (kept_then o h0 (Some (FnJobFulfilled (Job.id job) h))
                    (Some (FnJobRejected (Job.id job) h)) r2) as Ht.
      destruct (Hope.then_ h0 _ _ r2) as [p r3]. simpl in *.
      by eapply kept_trans. }
    destruct (Nat.ltb 0 _); simpl; [|done].
    match goal with
    | |- context [Hope.timeout hope ?ms ?reason r1] =>
        pose proof (kept_timeout hope ms reason r1) as Hk2;
        destruct (Hope.timeout hope ms reason r1) as [p r2]
    end.
    simpl in *. by eapply kept_trans.
Qed.

Lemma steady_Job_cancel job w s :
  steady o w (World (Job.cancel job (rt w)).1.2 s).
Proof.
  intros Hfr. unfold Job.cancel.
  destruct (Job.state job), (Job._cancel job); simpl; try apply kept_refl.
  apply kept_reject. by right.
Qed.

Lemma steady_cancel_job_object id w : steady o w (Scheduler.cancel_job_object id w).1.
Proof.
  unfold Scheduler.cancel_job_object.
  destruct (jobs (sched w) !! id) as [job|]; [|apply steady_refl].
  pose proof (steady_Job_cancel job w (sched w)) as H.
  destruct (Job.cancel job (rt w)) as [[j r] b]. exact H.
Qed.

Lemma steady_run_job_object id w : steady o w (Scheduler.run_job_object id w).1.
Proof.
  unfold Scheduler.run_job_object.
  destruct (jobs (sched w) !! id) as [job|]; [|apply steady_refl].
  pose proof (kept_Job_run job (rt w)) as H.
  destruct (Job.run job (rt w)) as [[j r] p]. by apply steady_kept.
Qed.

Lemma steady__runJob id w : steady o w (Scheduler._runJob id w).
Proof.
  unfold Scheduler._runJob.
  pose proof (steady_run_job_object id w) as H.
  destruct (Scheduler.run_job_object id w) as [w1 [p|]]; [|done].
  eapply steady_trans; [exact H|]. apply steady_kept, kept_then.
Qed.

Lemma steady__checkIdle w : steady o w (Scheduler._checkIdle w).
Proof.
  unfold Scheduler._checkIdle.
  destruct (Scheduler.is_idle (sched w)); [|apply steady_refl].
  destruct (_idleResolve (sched w)) as [h|]; [|apply steady_refl].
  intros Hfr. simpl. apply kept_resolve. by right.
Qed.

Lemma steady__processQueue_loop fuel w :
  steady o w (Scheduler._processQueue_loop fuel w).
Proof.
  revert w. induction fuel as [|fuel IH]; intros w; [apply steady_refl|].
  simpl. destruct (Nat.ltb _ _); [|apply steady_refl].
  destruct (pendingJobs (sched w)) as [|id rest]; [apply steady_refl|].
  eapply steady_trans; [|apply IH].
  eapply steady_trans; [|apply steady__runJob].
  apply steady_kept, kept_refl.
Qed.

Lemma steady__processQueue w : steady o w (Scheduler._processQueue w).
Proof.
  unfold Scheduler._processQueue.
  destruct (negb _); [apply steady_refl|].
  pose proof (steady__processQueue_loop (length (pendingJobs (sched w))) w) as H.
  destruct (Scheduler.is_idle _); [|done].
  eapply steady_trans; [exact H | apply steady__checkIdle].
Qed.

Lemma steady_on_sched_r f w w' : steady o w w' -> steady o w (on_sched f w').
Proof. done. Qed.

Lemma steady_on_sched_l f w w' : steady o (on_sched f w) w' -> steady o w w'.
Proof. done. Qed.

Lemma steady_after_sched (f : world -> world) w w1 :
  rt w1 = rt w -> steady o w1 (f w1) -> steady o w (f w1).
Proof. unfold steady. intros ->. done. Qed.

Lemma steady__jobCompleted jobId result w :
  steady o w (Scheduler._jobCompleted jobId result w).
Proof.
  unfold Scheduler._jobCompleted.
  apply steady_after_sched; [|apply steady__processQueue].
  by destruct (jobs _ !! jobId).
Qed.

Lemma steady__jobFailed jobId error w :
  steady o w (Scheduler._jobFailed jobId error w).
Proof.
  unfold Scheduler._jobFailed.
  destruct (jobs (sched w) !! jobId) as [job|]; [|apply steady_refl].
  destruct (_ && _).
  - apply steady_kept. by apply kept_heap_eq.
  - by apply steady_after_sched; [|apply steady__processQueue].
Qed.

Lemma steady_retry jobId w : steady o w (Scheduler.retry jobId w).
Proof.
  unfold Scheduler.retry.
  by apply steady_after_sched; [|apply steady__processQueue].
Qed.

Lemma steady_add taskFn opts w : steady o w (Scheduler.add taskFn opts w).1.
Proof.
  unfold Scheduler.add. destruct (reaches _ _); [apply steady_refl|].
  simpl. destruct (_isRunning (sched w)); [|apply steady_kept, kept_refl].
  by apply steady_after_sched; [|apply steady__processQueue].
Qed.

Lemma steady_start w : steady o w (Scheduler.start w).
Proof.
  unfold Scheduler.start. destruct (_isRunning (sched w)); [apply steady_refl|].
  by apply steady_after_sched; [|apply steady__processQueue].
Qed.

Lemma steady_cancel_objects ids w :
  steady o w (foldl (fun w id => (Scheduler.cancel_job_object id w).1) w ids).
Proof.
  revert w. induction ids as [|id ids IH]; intros w; [apply steady_refl|].
  simpl. eapply steady_trans; [apply steady_cancel_job_object | apply IH].
Qed.

Lemma steady_stop w : steady o w (Scheduler.stop w).
Proof.
  unfold Scheduler.stop.
  eapply steady_trans; [|apply steady_cancel_objects].
  apply steady_on_sched_r. eapply steady_on_sched_l.
  apply steady_cancel_objects.
Qed.

Lemma steady_onIdle w : steady o w (Scheduler.onIdle w).1.
Proof.
  unfold Scheduler.onIdle. destruct (_idleHope (sched w)); [apply steady_refl|].
  match goal with
  | |- context [Hope.new ?ex (rt w)] =>
      pose proof (kept_new o ex (rt w)) as Hk;
      destruct (Hope.new ex (rt w)) as [h r1]
  end.
  apply steady_kept. simpl in *. apply Hk. intros h0 r0 Hne.
  destruct (Scheduler.is_idle _); simpl; [|apply kept_refl].
  apply kept_resolve. by left.
Qed.

Lemma steady_cancelJob jobId w : steady o w (Scheduler.cancelJob jobId w).1.
Proof.
  unfold Scheduler.cancelJob.
  destruct (jobs (sched w) !! jobId); [|apply steady_refl].
  pose proof (steady_cancel_job_object jobId w) as H.
  destruct (Scheduler.cancel_job_object jobId w) as [w1 [|]]; simpl in *; [|done].
  eapply steady_trans; [exact H|].
  by apply steady_after_sched; [|apply steady__checkIdle].
Qed.

Lemma steady_cancelAll_step acc id :
  steady o acc.1 (Scheduler.cancelAll_step acc id).1.
Proof.
  destruct acc as [w ids]. unfold Scheduler.cancelAll_step.
  pose proof (steady_cancel_job_object id w) as H.
  destruct (Scheduler.cancel_job_object id w) as [w1 [|]]; [|done].
  eapply steady_trans; [exact H|]. apply steady_kept, kept_refl.
Qed.

Lemma steady_cancelAll_steps ids acc :
  steady o acc.1 (foldl Scheduler.cancelAll_step acc ids).1.
Proof.
  revert acc. induction ids as [|id ids IH]; intros acc; [apply steady_refl|].
  simpl. eapply steady_trans; [apply steady_cancelAll_step | apply IH].
Qed.

Lemma steady_cancelAll w : steady o w (Scheduler.cancelAll w).1.
Proof.
  unfold Scheduler.cancelAll. simpl.
  eapply steady_trans; [|apply steady__checkIdle].
  apply steady_on_sched_r.
  eapply steady_trans; [|apply steady_cancelAll_steps].
  apply steady_on_sched_r.
  apply (steady_cancelAll_steps (pendingJobs (sched w)) (w, [])).
Qed.

Lemma frozen_heap_eq r r' : heap r' = heap r -> frozen o r -> frozen o r'.
Proof. intros Heq (d & Hd & Hs). exists d. by rewrite Heq. Qed.

(** Settling through a runtime that differs from [r] outside the heap. *)
Lemma kept_resolve_frozen r r1 h v :
  heap r1 = heap r -> frozen o r -> kept o r (Hope._resolve h v r1).
Proof.
  intros Heq Hfr. eapply kept_trans; [by apply kept_heap_eq|].
  apply kept_resolve. right. by eapply frozen_heap_eq.
Qed.

Lemma kept_reject_frozen r r1 h reason :
  heap r1 = heap r -> frozen o r -> kept o r (Hope._reject h reason r1).
Proof.
  intros Heq Hfr. eapply kept_trans; [by apply kept_heap_eq|].
  apply kept_reject. right. by eapply frozen_heap_eq.
Qed.

Lemma kept_resolvePromise_frozen r r1 this target x :
  heap r1 = heap r -> frozen o r -> kept o r (Hope._resolvePromise this target x r1).
Proof.
  intros Heq Hfr. eapply kept_trans; [by apply kept_heap_eq|].
  apply kept_resolvePromise. right. by eapply frozen_heap_eq.
Qed.

Lemma steady_apply_fn f arg w : steady o w (apply_fn f arg w).1.
Proof.
  revert arg w. induction f; intros arg w; cbn [apply_fn fst].
  - intros Hfr. by apply kept_resolve_frozen.
  - intros Hfr. by apply kept_reject_frozen.
  - apply steady_refl.
  - destruct (any_cells (rt w) !! cell) as [c|]; [|apply steady_refl].
    destruct (Nat.eqb _ _); cbn [fst].
    + intros Hfr. by apply kept_reject_frozen.
    + apply steady_kept. by apply kept_heap_eq.
  - destruct (called_flags (rt w) !! called) as [[|]|]; try apply steady_refl.
    intros Hfr. by apply kept_resolvePromise_frozen.
  - destruct (called_flags (rt w) !! called) as [[|]|]; try apply steady_refl.
    intros Hfr. by apply kept_reject_frozen.
  - intros Hfr. by apply kept_resolve_frozen.
  - intros Hfr. by apply kept_reject_frozen.
  - intros Hfr. by apply kept_reject_frozen.
  - intros Hfr. by apply kept_resolve_frozen.
  - intros Hfr. by apply kept_reject_frozen.
  - apply steady__jobCompleted.
  - apply steady__jobFailed.
  - apply steady_retry.
  - apply IHf.
Qed.

Lemma steady_scheduleTask k w : steady o w (scheduleTask k w).
Proof.
  unfold scheduleTask.
  destruct (heap (rt w) !! k_source k) as [this|]; [|apply steady_refl].
  destruct (if hope_state_eqb (_state this) FULFILLED
            then k_onFulfilled k else k_onRejected k) as [handler|].
  - pose proof (steady_apply_fn handler
      (if hope_state_eqb (_state this) FULFILLED then _value this else _reason this)
      w) as H.
    destruct (apply_fn handler _ w) as [w1 [result|error]]; simpl in H.
    + eapply steady_trans; [exact H|].
      intros Hfr. simpl. apply kept_resolvePromise. by right.
    + eapply steady_trans; [exact H|].
      intros Hfr. simpl. apply kept_reject. by right.
  - destruct (hope_state_eqb (_state this) FULFILLED); intros Hfr; simpl.
    + apply kept_resolve. by right.
    + apply kept_reject. by right.
Qed.

Lemma steady_turn w w' : turn w = Some w' -> steady o w w'.
Proof.
  unfold turn. intros Hturn.
  destruct (microtasks (rt w)) as [|k rest].
  - destruct (next_due (timers (rt w))) as [t|]; [|done].
    injection Hturn as <-.
    eapply steady_trans; [|apply steady_apply_fn].
    apply steady_kept. by apply kept_heap_eq.
  - injection Hturn as <-.
    eapply steady_trans; [|apply steady_scheduleTask].
    apply steady_kept. by apply kept_heap_eq.
Qed.

Lemma steady_caller r r' s : caller_step r r' -> steady o (World r s) (World r' s).
Proof.
  destruct 1; intros Hfr; simpl in *.
  - apply kept_alloc.
  - apply kept_resolve. by right.
  - apply kept_reject. by right.
  - apply kept_then.
  - apply kept_static_resolve.
  - apply kept_static_reject.
  - apply kept_any.
  - apply kept_timeout.
  - unfold Hope.cancel. destruct (heap r !! h) as [d|]; [|apply kept_refl].
    destruct (_ && _); simpl; [|apply kept_refl]. apply kept_reject. by right.
  - by apply kept_heap_eq.
  - by apply kept_heap_eq.
Qed.

Lemma steady_program_step w w' : program_step w w' -> steady o w w'.
Proof.
  destruct 1.
  - apply steady_add.
  - apply steady_start.
  - apply steady_stop.
  - apply steady_onIdle.
  - apply steady_cancelJob.
  - apply steady_cancelAll.
  - by apply steady_turn.
  - destruct w as [r s]. by apply steady_caller.
Qed.

End Final.

(** Once the [_settled] flag of an instance is set, its state, value and
    reason are the same in every later state of the program. *)
Lemma settled_is_final o w w' :
  frozen o (rt w) -> rtc program_step w w' -> kept o (rt w) (rt w').
Proof.
  intros Hfr Hsteps. revert Hfr.
  change (steady o w w').
  induction Hsteps as [w|w1 w2 w3 Hstep _ IH].
  - apply steady_refl.
  - eapply steady_trans; [by apply steady_program_step | exact IH].
Qed.

(** An instance resolved with a thenable, or with itself, is pending in
    every later state of the program. *)
Lemma resolved_with_thenable_never_settles r s h d x w' :
  heap r !! h = Some d -> _settled d = false -> _state d = PENDING ->
  is_thenable x = true ->
  rtc program_step (World (Hope._resolve h x r) s) w' ->
  exists d', heap (rt w') !! h = Some d' /\ _state d' = PENDING.
Proof.
  intros Hd Hs Hst Hx Hsteps.
  assert (exists d1, heap (Hope._resolve h x r) !! h = Some d1
            /\ _state d1 = PENDING /\ _settled d1 = true) as (d1 & Hd1 & Hst1 & Hs1).
  { destruct (same_hope x h) eqn:Hself.
    - destruct x; try done. simpl in Hself. apply Nat.eqb_eq in Hself as ->.
      destruct (_resolve_self r h d Hd Hs) as [_ Hd1].
      by exists (set_settled true d).
    - destruct (_resolve_thenable r h d x Hd Hs Hx Hself) as (_ & d1 & Hd1 & Hcore).
      exists d1. unfold core in Hcore. simpl in Hcore.
      split; [done|]. split; congruence. }
  assert (frozen h (rt (World (Hope._resolve h x r) s))) as Hfr by (by exists d1).
  destruct (settled_is_final h _ _ Hfr Hsteps d1 Hd1) as (d' & Hd' & Hcore).
  exists d'. split; [done|]. unfold core in Hcore. congruence.
Qed.

(** ** Admission *)

(** C10.  When the pending queue has reached [maxQueueSize], [add] throws a
    SchedulerError and the world is the one it was called in: the id counter,
    the jobs map, the pending queue and [stats.totalJobs] are untouched. *)
Theorem add_on_full_queue_throws taskFn o w m :
  maxQueueSize (options (sched w)) = Finite m ->
  m <= length (pendingJobs (sched w)) ->
  Scheduler.add taskFn o w = (w, Throw (VError SchedulerError "Queue is full")).
Proof.
  intros Hmax Hlen. unfold Scheduler.add.
  rewrite Hmax. simpl.
  destruct (Nat.leb_spec m (length (pendingJobs (sched w)))) as [_|Hlt]; [done | lia].
Qed.

Lemma add_on_full_queue_throws_witness :
  Scheduler.add (labelled_task "late") Job.no_options full_queue
  = (full_queue, Throw (VError SchedulerError "Queue is full")).
Proof.
  apply (add_on_full_queue_throws _ _ _ 1).
  - vm_compute. reflexivity.
  - vm_compute. lia.
Defined.

(** ** The pump *)

Section Pump.

Lemma run_job_object_queue id w :
  pendingJobs (sched (Scheduler.run_job_object id w).1) = pendingJobs (sched w).
Proof.
  unfold Scheduler.run_job_object.
  destruct (jobs (sched w) !! id) as [job|]; [|done].
  by destruct (Job.run job (rt w)) as [[? ?] ?].
Qed.

Lemma _runJob_queue id w :
  pendingJobs (sched (Scheduler._runJob id w)) = pendingJobs (sched w).
Proof.
  unfold Scheduler._runJob.
  pose proof (run_job_object_queue id w) as H.
  destruct (Scheduler.run_job_object id w) as [w' [p|]]; done.
Qed.

(** The fuel [_processQueue] gives its loop is enough: when the loop
    returns, the condition of the [while] is false. *)
Lemma _processQueue_loop_exits fuel w :
  length (pendingJobs (sched w)) <= fuel ->
  let w' := Scheduler._processQueue_loop fuel w in
  Nat.ltb (length (runningJobs (sched w'))) (concurrency (options (sched w'))) = false
  \/ pendingJobs (sched w') = [].
Proof.
  revert w. induction fuel as [|fuel IH]; intros w Hlen.
  - right. simpl. destruct (pendingJobs (sched w)); [done|simpl in Hlen; lia].
  - simpl.
    destruct (Nat.ltb (length (runningJobs (sched w)))
                      (concurrency (options (sched w)))) eqn:Hlt; [|by left].
    destruct (pendingJobs (sched w)) as [|id rest] eqn:Hq; [by right|].
    apply IH. rewrite _runJob_queue. simpl. simpl in Hlen. lia.
Qed.

End Pump.

(** ** The concurrency limit *)

Section Concurrency.

Lemma same_load_refl w : same_load w w.
Proof. done. Qed.



Lemma on_rt_load f w : same_load w (on_rt f w).
Proof. done. Qed.
























End Concurrency.

(** Every step of a program is a step of an execution. *)
Lemma program_step_step w w' : program_step w w' -> step w w'.
Proof.
  destruct 1; try by constructor.
  destruct w as [r s]. exact (step_caller (fun _ => r') (World r s)).
Qed.



(** ** The scenarios, run *)

(** C5.  In the priority demonstration (concurrency 1, [autoStart: true],
    priorities 1, 10, 5, 100 for A, B, C, D) the first [add] pumps the queue
    while A is the only pending job: the tasks run in the order A, D, B, C. *)
Theorem priority_demo_order :
  quiescent priority_demo
  /\ executionOrder (rt priority_demo) = ["A"; "D"; "B"; "C"].
Proof. by_running. Qed.

(** When the scheduler is started after the four adds, the order is
    D, B, C, A. *)
Lemma priority_demo_started_late_order :
  quiescent priority_demo_started_late
  /\ executionOrder (rt priority_demo_started_late) = ["D"; "B"; "C"; "A"].
Proof. by_running. Qed.

(** C3.  With the default concurrency of 1, the job of the retry scenario is
    attempted once: after its first failure its id stays in [runningJobs], so
    the pump that follows the retry timer does not admit it again.  When
    nothing is left to run the job is pending in the queue with 1 attempt and
    nothing has completed. *)
Theorem retry_scenario_stalls :
  let w := retry_scenario default_options in
  quiescent w
  /\ Job.state <$> jobs (sched w) !! "job-1" = Some Job.pending
  /\ Job.attempts <$> jobs (sched w) !! "job-1" = Some 1
  /\ pendingJobs (sched w) = ["job-1"]
  /\ runningJobs (sched w) = ["job-1"]
  /\ Stats.completedJobs (stats (sched w)) = 0.
Proof. by_running. Qed.

(** With a concurrency of 2 the same scenario ends as the retry policy says. *)
Lemma retry_scenario_concurrency_2 :
  let w := retry_scenario (SchedulerOptionsArg (Some 2) None None) in
  quiescent w
  /\ Job.state <$> jobs (sched w) !! "job-1" = Some Job.completed
  /\ Job.attempts <$> jobs (sched w) !! "job-1" = Some 3
  /\ Job.result <$> jobs (sched w) !! "job-1" = Some (VStr "ok")
  /\ Stats.completedJobs (stats (sched w)) = 1
  /\ Stats.failedJobs (stats (sched w)) = 0.
Proof. by_running. Qed.

(** C4.  A job whose timeout of 1000 ms expires with 1 retry left is
    retried.  Two turns after [add] (the timer of the timeout decorator, then
    the rejection handler of [_runJob]) the instance of the job is rejected
    with a plain Error, the job is pending again, nothing is archived and
    [failedJobs] is 0; on the next turn, the retry timer, the task is called
    a second time. *)
Theorem timed_out_job_is_retried :
  (let w := timeout_scenario 2 in
   (exists h d, Job._hope <$> jobs (sched w) !! "job-1" = Some (Some h)
      /\ heap (rt w) !! h = Some d
      /\ _state d = REJECTED
      /\ _reason d = VError Error "Job job-1 timed out after 1000ms")
   /\ Job.state <$> jobs (sched w) !! "job-1" = Some Job.pending
   /\ completedJobs (sched w) = []
   /\ Stats.failedJobs (stats (sched w)) = 0)
  /\ (let w := timeout_scenario 3 in
      Job.state <$> jobs (sched w) !! "job-1" = Some Job.running
      /\ Job.attempts <$> jobs (sched w) !! "job-1" = Some 2
      /\ executionOrder (rt w) = ["hanging"; "hanging"]).
Proof.
  vm_compute. split; [split|].
  - eexists _, _. repeat match goal with |- _ /\ _ => split end; reflexivity.
  - repeat match goal with |- _ /\ _ => split end; reflexivity.
  - repeat match goal with |- _ /\ _ => split end; reflexivity.
Qed.

(** The guard of [_jobFailed] itself: an error that is a JobTimeoutError
    is never retried. *)
Lemma _jobFailed_JobTimeoutError jobId message w job :
  jobs (sched w) !! jobId = Some job ->
  exists w',
    Scheduler._jobFailed jobId (VError JobTimeoutError message) w
    = Scheduler._processQueue w'
    /\ Job.state <$> jobs (sched w') !! jobId = Some Job.failed
    /\ completedJobs (sched w') = completedJobs (sched w) ++ [jobId]
    /\ Stats.failedJobs (stats (sched w')) = S (Stats.failedJobs (stats (sched w))).
Proof.
  intros Hjob. unfold Scheduler._jobFailed. rewrite Hjob.
  rewrite andb_false_r. eexists. split; [reflexivity|].
  simpl. rewrite lookup_insert_eq. done.
Qed.

(** The retry branch of [_jobFailed] leaves the running set as it is: the
    id of the job that waits for its retry still counts against the
    concurrency. *)
Lemma _jobFailed_retry_keeps_running jobId error w job :
  jobs (sched w) !! jobId = Some job ->
  Job.attempts job <= Job.retries (Job.options job) ->
  instanceof_JobTimeoutError error = false ->
  runningJobs (sched (Scheduler._jobFailed jobId error w)) = runningJobs (sched w)
  /\ pendingJobs (sched (Scheduler._jobFailed jobId error w)) = pendingJobs (sched w)
  /\ Job.state <$> jobs (sched (Scheduler._jobFailed jobId error w)) !! jobId
     = Some Job.pending.
Proof.
  intros Hjob Hle Herr. unfold Scheduler._jobFailed. rewrite Hjob, Herr.
  destruct (Nat.leb_spec (Job.attempts job) (Job.retries (Job.options job)));
    [|lia].
  simpl. by rewrite lookup_insert_eq.
Qed.

(** C6.  After [add] and [stop] on a scheduler that was not started,
    [stats.totalJobs] is 1 while the queue and the running set are empty and
    no counter has moved: the observed total is 0. *)
Theorem add_then_stop_totals :
  Stats.totalJobs (stats (sched add_then_stop)) = 1
  /\ observed_total (sched add_then_stop) = 0
  /\ Job.state <$> jobs (sched add_then_stop) !! "job-1" = Some Job.canceled.
Proof. by_running. Qed.

(** C7.  [onIdle()] on a scheduler with nothing to do returns an instance
    that is fulfilled at once and stays in the slot: after a job has been
    added and is running, the next [onIdle()] returns the same, fulfilled,
    instance. *)
Theorem onIdle_returns_stale_instance :
  let '(w, first, second) := idle_scenario in
  first = second
  /\ _idleHope (sched w) = Some first
  /\ _state <$> heap (rt w) !! second = Some FULFILLED
  /\ runningJobs (sched w) = ["job-1"]
  /\ Job.state <$> jobs (sched w) !! "job-1" = Some Job.running.
Proof. by_running. Qed.

(** On a scheduler with nothing to do and an empty slot, [onIdle] makes an
    instance, fulfils it, and leaves it in the slot with its [resolve]. *)
Lemma onIdle_when_idle w :
  _idleHope (sched w) = None -> Scheduler.is_idle (sched w) = true ->
  let h := length (heap (rt w)) in
  (Scheduler.onIdle w).2 = h
  /\ _idleHope (sched (Scheduler.onIdle w).1) = Some h
  /\ _idleResolve (sched (Scheduler.onIdle w).1) = Some h
  /\ _state <$> heap (rt (Scheduler.onIdle w).1) !! h = Some FULFILLED.
Proof.
  intros Hslot Hidle. unfold Scheduler.onIdle, Hope.new. rewrite Hslot, Hidle.
  simpl. repeat split; try done.
  destruct (_resolve_unsettled (length (heap (rt w))) VUndefined
              (Hope.alloc (rt w)).2 fresh_hope) as (d & Hd & Hst & _);
    [by apply list_lookup_middle | done | done |].
  simpl in Hd. by rewrite Hd, <- Hst.
Qed.

(** While the slot is taken, [onIdle] returns the instance it holds and
    changes nothing, whatever the scheduler is doing. *)
Lemma onIdle_slot_taken w h :
  _idleHope (sched w) = Some h -> Scheduler.onIdle w = (w, h).
Proof. intros Hslot. unfold Scheduler.onIdle. by rewrite Hslot. Qed.

(** [_checkIdle], when it resolves the idle instance, empties the slot. *)
Lemma _checkIdle_clears_slot w h :
  Scheduler.is_idle (sched w) = true -> _idleResolve (sched w) = Some h ->
  _idleHope (sched (Scheduler._checkIdle w)) = None
  /\ _idleResolve (sched (Scheduler._checkIdle w)) = None.
Proof.
  intros Hidle Hres. unfold Scheduler._checkIdle. by rewrite Hidle, Hres.
Qed.

(** ** What a settlement does, exactly *)

Section Exactly.

Lemma list_alter_alter {A} (f g : A -> A) i (l : list A) :
  alter f i (alter g i l) = alter (fun x => f (g x)) i l.
Proof. revert i. induction l as [|x l IH]; intros [|i]; try done; simpl; f_equal; apply IH. Qed.

Lemma handleSettlements_queue ks r :
  foldl (fun r k => Hope.handleSettlement k r) r ks
  = with_microtasks (fun q => q ++ ks) r.
Proof.
  revert r. induction ks as [|k ks IH]; intros r; simpl.
  - destruct r. unfold with_microtasks. simpl. by rewrite app_nil_r.
  - rewrite IH. destruct r. unfold Hope.handleSettlement, queueMicrotask, with_microtasks.
    simpl. by rewrite <- app_assoc.
Qed.

Lemma _resolve_plain h v r d :
  heap r !! h = Some d -> _settled d = false -> is_thenable v = false ->
  Hope._resolve h v r
  = with_microtasks (fun q => q ++ _onFulfilledCallbacks d)
      (with_heap (alter (fulfilled_with v) h) r).
Proof.
  intros Hd Hs Hv. unfold Hope._resolve. rewrite Hd, Hs.
  assert (same_hope v h = false) as -> by (by destruct v).
  rewrite Hv. unfold Hope._callFulfilledCallbacks, Hope.update.
  destruct r as [hp mt ts nt ck cf ac th eo]. simpl in *.
  rewrite !list_lookup_alter_eq, Hd. simpl.
  rewrite handleSettlements_queue. unfold with_microtasks, with_heap. simpl.
  f_equal. rewrite !list_alter_alter. by apply list_alter_ext.
Qed.

Lemma _reject_plain h reason r d :
  heap r !! h = Some d -> _settled d = false ->
  Hope._reject h reason r
  = with_microtasks (fun q => q ++ _onRejectedCallbacks d)
      (with_heap (alter (rejected_because reason) h) r).
Proof.
  intros Hd Hs. unfold Hope._reject. rewrite Hd, Hs.
  unfold Hope._callRejectedCallbacks, Hope.update.
  destruct r as [hp mt ts nt ck cf ac th eo]. simpl in *.
  rewrite !list_lookup_alter_eq, Hd. simpl.
  rewrite handleSettlements_queue. unfold with_microtasks, with_heap. simpl.
  f_equal. rewrite !list_alter_alter. by apply list_alter_ext.
Qed.

(** A call of [then] on a pending instance registers the closure on both
    lists; on a settled one it queues it. *)
Lemma then_pending this onFulfilled onRejected r d :
  heap r !! this = Some d -> _state d = PENDING ->
  Hope.then_ this onFulfilled onRejected r
  = (length (heap r),
     with_heap (fun hp =>
       alter (registered (Continuation this onFulfilled onRejected (length (heap r))))
             this hp ++ [fresh_hope]) r).
Proof.
  intros Hd Hst. unfold Hope.then_, Hope.new, Hope.alloc, Hope.update.
  destruct r as [hp mt ts nt ck cf ac th eo]. simpl in *.
  pose proof (lookup_lt_Some _ _ _ Hd) as Hlt.
  rewrite lookup_app_l by done. rewrite Hd, Hst. simpl.
  unfold with_heap. simpl. do 2 f_equal.
  rewrite list_alter_alter. by rewrite alter_app_l.
Qed.

Lemma then_settled this onFulfilled onRejected r d :
  heap r !! this = Some d -> _state d <> PENDING ->
  Hope.then_ this onFulfilled onRejected r
  = (length (heap r),
     with_microtasks (fun q =>
       q ++ [Continuation this onFulfilled onRejected (length (heap r))])
       (with_heap (fun hp => hp ++ [fresh_hope]) r)).
Proof.
  intros Hd Hst. unfold Hope.then_, Hope.new, Hope.alloc, Hope.handleSettlement.
  destruct r as [hp mt ts nt ck cf ac th eo]. simpl in *.
  pose proof (lookup_lt_Some _ _ _ Hd) as Hlt.
  rewrite lookup_app_l by done. rewrite Hd.
  destruct (_state d); done.
Qed.


End Exactly.

(** ** Handlers *)

Section Handlers.

Lemma then_many this regs : forall r d,
  heap r !! this = Some d -> _state d = PENDING ->
  let r' := foldl (fun r (p : option fn * option fn) =>
                     (Hope.then_ this p.1 p.2 r).2) r regs in
  let ks := imap (fun i (p : option fn * option fn) =>
                    Continuation this p.1 p.2 (length (heap r) + i)) regs in
  microtasks r' = microtasks r
  /\ exists d', heap r' !! this = Some d'
       /\ _settled d' = _settled d
       /\ _onFulfilledCallbacks d' = _onFulfilledCallbacks d ++ ks
       /\ _onRejectedCallbacks d' = _onRejectedCallbacks d ++ ks.
Proof.
  induction regs as [|p regs IH]; intros r d Hd Hst; simpl.
  - split; [done|]. exists d. by rewrite !app_nil_r.
  - rewrite (then_pending _ _ _ _ _ Hd Hst). simpl.
    pose proof (lookup_lt_Some _ _ _ Hd) as Hlt.
    set (k := Continuation this p.1 p.2 (length (heap r))).
    set (r1 := with_heap _ r).
    assert (heap r1 !! this = Some (registered k d)) as Hd1.
    { unfold r1. destruct r. simpl in *.
      rewrite lookup_app_l by (by rewrite length_alter).
      by rewrite list_lookup_alter_eq, Hd. }
    destruct (IH r1 (registered k d) Hd1 Hst) as (Hm & d' & Hd' & Hs' & Hf & Hr).
    split; [rewrite Hm; by destruct r|].
    exists d'. split; [done|]. split; [done|].
    assert (length (heap r1) = S (length (heap r))) as Hlen.
    { unfold r1. destruct r. simpl. rewrite length_app, length_alter. simpl. lia. }
    rewrite Hlen in Hf, Hr.
    rewrite Nat.add_0_r. fold k.
    assert (imap (fun i (p : option fn * option fn) =>
                    Continuation this p.1 p.2 (S (length (heap r)) + i)) regs
            = imap ((fun i (p : option fn * option fn) =>
                       Continuation this p.1 p.2 (length (heap r) + i)) ∘ S) regs) as Heq.
    { apply imap_ext. intros i x _. simpl. f_equal. lia. }
    rewrite Heq in Hf, Hr.
    rewrite Hf, Hr. simpl. by rewrite <- !app_assoc.
Qed.

(** X1.  Handlers attached to a pending instance with [then] are queued, when
    it settles, in the order they were attached and behind those attached
    before: after the calls [then(f_i, g_i)] of [regs], none of which queues
    anything, [_resolve] with a value that is not a thenable (and likewise
    [_reject]) appends to the microtask queue the closures registered before
    and then one closure per call, in order, each with the instance that its
    call returned. *)
Theorem handlers_queue_in_registration_order this d regs v reason r :
  heap r !! this = Some d -> _state d = PENDING -> _settled d = false ->
  is_thenable v = false ->
  let r' := foldl (fun r (p : option fn * option fn) =>
                     (Hope.then_ this p.1 p.2 r).2) r regs in
  let ks := imap (fun i (p : option fn * option fn) =>
                    Continuation this p.1 p.2 (length (heap r) + i)) regs in
  microtasks r' = microtasks r
  /\ microtasks (Hope._resolve this v r')
     = microtasks r ++ _onFulfilledCallbacks d ++ ks
  /\ microtasks (Hope._reject this reason r')
     = microtasks r ++ _onRejectedCallbacks d ++ ks.
Proof.
  intros Hd Hst Hs Hv r' ks.
  destruct (then_many this regs r d Hd Hst) as (Hm & d' & Hd' & Hs' & Hf & Hr).
  fold r' in Hm, Hd'. fold ks in Hf, Hr. rewrite Hs in Hs'.
  split; [done|]. split.
  - rewrite (_resolve_plain _ _ _ _ Hd' Hs' Hv). destruct r'. simpl in *.
    by rewrite Hm, Hf.
  - rewrite (_reject_plain _ _ _ _ Hd' Hs'). destruct r'. simpl in *.
    by rewrite Hm, Hr.
Qed.

Lemma handlers_queue_in_registration_order_witness :
  let r := (Hope.new (fun _ r => (r, Return VUndefined)) empty_runtime).2 in
  let f := Some (FnUser (fun v => Return v)) in
  let r' := (Hope.then_ 0 None f (Hope.then_ 0 f None r).2).2 in
  microtasks r' = []
  /\ microtasks (Hope._resolve 0 (VNum 1) r')
     = [Continuation 0 f None 1; Continuation 0 None f 2].
Proof.
  intros r f r'.
  destruct (handlers_queue_in_registration_order 0 fresh_hope [(f, None); (None, f)]
              (VNum 1) VNull r) as (H1 & H2 & _); try reflexivity.
  split; [exact H1 | exact H2].
Defined.

(** With nothing else queued, the turn after a call of [then] on a settled
    instance runs the closure of the call. *)
Lemma turn_after_then this onFulfilled onRejected r s d :
  heap r !! this = Some d -> _state d <> PENDING -> microtasks r = [] ->
  turn (World (Hope.then_ this onFulfilled onRejected r).2 s)
  = Some (scheduleTask (Continuation this onFulfilled onRejected (length (heap r)))
            (World (Hope.alloc r).2 s)).
Proof.
  intros Hd Hst Hm. rewrite (then_settled _ _ _ _ _ Hd Hst).
  destruct r. simpl in *. subst. done.
Qed.

Lemma lookup_alloc_old r h d :
  heap r !! h = Some d -> heap (Hope.alloc r).2 !! h = Some d.
Proof.
  intros Hd. destruct r. simpl in *.
  by rewrite lookup_app_l by (by eapply lookup_lt_Some).
Qed.

Lemma lookup_alloc_new r : heap (Hope.alloc r).2 !! length (heap r) = Some fresh_hope.
Proof. destruct r. simpl. by apply list_lookup_middle. Qed.

Lemma lookup_fulfilled_with h v r d :
  heap r !! h = Some d ->
  heap (with_microtasks (fun q => q ++ _onFulfilledCallbacks d)
          (with_heap (alter (fulfilled_with v) h) r)) !! h
  = Some (fulfilled_with v d).
Proof. intros Hd. destruct r. simpl in *. by rewrite list_lookup_alter_eq, Hd. Qed.

Lemma lookup_rejected_because h reason r d :
  heap r !! h = Some d ->
  heap (with_microtasks (fun q => q ++ _onRejectedCallbacks d)
          (with_heap (alter (rejected_because reason) h) r)) !! h
  = Some (rejected_because reason d).
Proof. intros Hd. destruct r. simpl in *. by rewrite list_lookup_alter_eq, Hd. Qed.

(** Settling one instance leaves every other where it is. *)
Lemma _resolve_plain_at h v r d :
  heap r !! h = Some d -> _settled d = false -> is_thenable v = false ->
  heap (Hope._resolve h v r) !! h = Some (fulfilled_with v d)
  /\ forall o, o <> h -> heap (Hope._resolve h v r) !! o = heap r !! o.
Proof.
  intros Hd Hs Hv. rewrite (_resolve_plain _ _ _ _ Hd Hs Hv). split.
  - by apply lookup_fulfilled_with.
  - intros o Ho. destruct r. simpl. by rewrite list_lookup_alter_ne.
Qed.

Lemma _reject_at h reason r d :
  heap r !! h = Some d -> _settled d = false ->
  heap (Hope._reject h reason r) !! h = Some (rejected_because reason d)
  /\ forall o, o <> h -> heap (Hope._reject h reason r) !! o = heap r !! o.
Proof.
  intros Hd Hs. rewrite (_reject_plain _ _ _ _ Hd Hs). split.
  - by apply lookup_rejected_because.
  - intros o Ho. destruct r. simpl. by rewrite list_lookup_alter_ne.
Qed.

Lemma _resolvePromise_plain this target y r :
  is_thenable y = false ->
  Hope._resolvePromise this target y r = Hope._resolve target y r.
Proof.
  intros Hy. unfold Hope._resolvePromise. rewrite Hy.
  by assert (same_hope y this = false) as -> by (by destruct y).
Qed.

(** What the closure of a call of [then] does once its source is settled,
    when the handler is the caller's function [g], and when there is none. *)
Lemma scheduleTask_user k w d g :
  heap (rt w) !! k_source k = Some d ->
  (if hope_state_eqb (_state d) FULFILLED then k_onFulfilled k else k_onRejected k)
  = Some (FnUser g) ->
  scheduleTask k w
  = on_rt (match g (outcome d) with
           | Return y => Hope._resolvePromise (k_source k) (k_target k) y
           | Throw e => Hope._reject (k_target k) e
           end) w.
Proof.
  intros Hd Hh. unfold scheduleTask, outcome. rewrite Hd. simpl. rewrite Hh. simpl.
  destruct w as [r s]. by destruct (g _).
Qed.

Lemma scheduleTask_no_handler k w d :
  heap (rt w) !! k_source k = Some d ->
  (if hope_state_eqb (_state d) FULFILLED then k_onFulfilled k else k_onRejected k)
  = None ->
  scheduleTask k w
  = on_rt (if hope_state_eqb (_state d) FULFILLED
           then Hope._resolve (k_target k) (_value d)
           else Hope._reject (k_target k) (_reason d)) w.
Proof.
  intros Hd Hh. unfold scheduleTask. rewrite Hd. simpl. rewrite Hh.
  by destruct (hope_state_eqb _ _).
Qed.

(** The closure of a call of [then], run in the world the call was made in,
    with the instance the call returned still as the constructor left it. *)
Lemma handler_outcome this onFulfilled onRejected g r s d :
  heap r !! this = Some d ->
  (if hope_state_eqb (_state d) FULFILLED then onFulfilled else onRejected)
  = Some (FnUser g) ->
  let q := length (heap r) in
  let w' := scheduleTask (Continuation this onFulfilled onRejected q)
              (World (Hope.alloc r).2 s) in
  sched w' = s
  /\ match g (outcome d) with
     | Return y =>
         is_thenable y = false ->
         heap (rt w') !! q = Some (fulfilled_with y fresh_hope)
         /\ heap (rt w') !! this = Some d
     | Throw e =>
         heap (rt w') !! q = Some (rejected_because e fresh_hope)
         /\ heap (rt w') !! this = Some d
     end.
Proof.
  intros Hd Hh q w'.
  assert (this <> q) as Hne by (apply lookup_lt_Some in Hd; unfold q; lia).
  pose proof (lookup_alloc_new r) as Hnew.
  pose proof (lookup_alloc_old _ _ _ Hd) as Hold.
  unfold w'. rewrite (scheduleTask_user _ _ d g) by done.
  split; [done|]. simpl.
  destruct (g (outcome d)) as [y|e].
  - intros Hy. rewrite _resolvePromise_plain by done.
    destruct (_resolve_plain_at _ y _ _ Hnew eq_refl Hy) as [Hq Ho].
    split; [done|]. by rewrite Ho.
  - destruct (_reject_at _ e _ _ Hnew eq_refl) as [Hq Ho].
    split; [done|]. by rewrite Ho.
Qed.

(** X2.  [then] on a fulfilled instance calls the handler later, with the
    instance's value, and settles the instance it returned by what the
    handler does.  With nothing else queued, the next turn of the event
    loop leaves the returned instance fulfilled with what the handler
    returned, if that is not a thenable, or rejected with what it threw; the
    source stays as it was and the rejection handler is not used. *)
Theorem then_settles_by_handler this d g onRejected r s :
  heap r !! this = Some d -> _state d = FULFILLED -> microtasks r = [] ->
  let q := (Hope.then_ this (Some (FnUser g)) onRejected r).1 in
  exists w',
    turn (World (Hope.then_ this (Some (FnUser g)) onRejected r).2 s) = Some w'
    /\ sched w' = s
    /\ match g (_value d) with
       | Return y =>
           is_thenable y = false ->
           heap (rt w') !! q = Some (fulfilled_with y fresh_hope)
           /\ heap (rt w') !! this = Some d
       | Throw e =>
           heap (rt w') !! q = Some (rejected_because e fresh_hope)
           /\ heap (rt w') !! this = Some d
       end.
Proof.
  intros Hd Hst Hm q.
  assert (_state d <> PENDING) as Hnp by (by rewrite Hst).
  assert (q = length (heap r)) as ->
    by (unfold q; by rewrite (then_settled _ _ _ _ _ Hd Hnp)).
  eexists. split; [by apply (turn_after_then _ _ _ _ _ d)|].
  pose proof (handler_outcome this (Some (FnUser g)) onRejected g r s d Hd) as H.
  unfold outcome in H. rewrite Hst in H. by apply H.
Qed.

Lemma then_settles_by_handler_witness :
  let r := (Hope.resolve (VNum 1) empty_runtime).2 in
  let g := fun v => match v with VNum n => Return (VNum (n + 1)) | _ => Throw v end in
  exists w',
    turn (World (Hope.then_ 0 (Some (FnUser g)) None r).2
                (sched (Scheduler.new default_options empty_runtime))) = Some w'
    /\ heap (rt w') !! 1 = Some (fulfilled_with (VNum 2) fresh_hope).
Proof.
  intros r g.
  destruct (then_settles_by_handler 0 (fulfilled_with (VNum 1) fresh_hope) g None r
              (sched (Scheduler.new default_options empty_runtime)))
    as (w' & Ht & _ & H); try reflexivity.
  exists w'. split; [exact Ht|]. exact (proj1 (H eq_refl)).
Defined.

(** X3.  [catch] on a rejected instance calls the handler later, with the
    reason, and what the handler returns fulfils the instance that [catch]
    returned: the rejection is recovered from.  With nothing else queued,
    the next turn leaves the returned instance fulfilled with what the
    handler returned, if that is not a thenable, or rejected with what it
    threw. *)
Theorem catch_settles_by_handler this d g r s :
  heap r !! this = Some d -> _state d = REJECTED -> microtasks r = [] ->
  let q := (HopeMore.catch this (Some (FnUser g)) r).1 in
  exists w',
    turn (World (HopeMore.catch this (Some (FnUser g)) r).2 s) = Some w'
    /\ sched w' = s
    /\ match g (_reason d) with
       | Return y =>
           is_thenable y = false ->
           heap (rt w') !! q = Some (fulfilled_with y fresh_hope)
           /\ heap (rt w') !! this = Some d
       | Throw e =>
           heap (rt w') !! q = Some (rejected_because e fresh_hope)
           /\ heap (rt w') !! this = Some d
       end.
Proof.
  intros Hd Hst Hm q. unfold HopeMore.catch in *.
  assert (_state d <> PENDING) as Hnp by (by rewrite Hst).
  assert (q = length (heap r)) as ->
    by (unfold q; by rewrite (then_settled _ _ _ _ _ Hd Hnp)).
  eexists. split; [by apply (turn_after_then _ _ _ _ _ d)|].
  pose proof (handler_outcome this None (Some (FnUser g)) g r s d Hd) as H.
  unfold outcome in H. rewrite Hst in H. by apply H.
Qed.

Lemma catch_settles_by_handler_witness :
  let r := (Hope.reject (VStr "no") empty_runtime).2 in
  let g := fun _ => Return (VStr "recovered") in
  exists w',
    turn (World (HopeMore.catch 0 (Some (FnUser g)) r).2
                (sched (Scheduler.new default_options empty_runtime))) = Some w'
    /\ heap (rt w') !! 1 = Some (fulfilled_with (VStr "recovered") fresh_hope).
Proof.
  intros r g.
  destruct (catch_settles_by_handler 0 (rejected_because (VStr "no") fresh_hope) g r
              (sched (Scheduler.new default_options empty_runtime)))
    as (w' & Ht & _ & H); try reflexivity.
  exists w'. split; [exact Ht|]. exact (proj1 (H eq_refl)).
Defined.

(** X4.  A settlement passes through a call of [then] that has no handler
    for it.  With nothing else queued, the next turn after [catch] on an
    instance fulfilled with a value that is not a thenable leaves the
    returned instance fulfilled with the same value, whatever the handler;
    and after [then] without a second argument on a rejected instance it
    leaves the returned instance rejected with the same reason, whatever the
    first argument. *)
Theorem settlement_passes_through this d handler r s :
  heap r !! this = Some d -> microtasks r = [] ->
  (_state d = FULFILLED -> is_thenable (_value d) = false ->
   exists w',
     turn (World (HopeMore.catch this handler r).2 s) = Some w'
     /\ sched w' = s
     /\ heap (rt w') !! (HopeMore.catch this handler r).1
        = Some (fulfilled_with (_value d) fresh_hope))
  /\ (_state d = REJECTED ->
      exists w',
        turn (World (Hope.then_ this handler None r).2 s) = Some w'
        /\ sched w' = s
        /\ heap (rt w') !! (Hope.then_ this handler None r).1
           = Some (rejected_because (_reason d) fresh_hope)).
Proof.
  intros Hd Hm.
  pose proof (lookup_alloc_new r) as Hnew.
  pose proof (lookup_alloc_old _ _ _ Hd) as Hold.
  split.
  - intros Hst Hv. unfold HopeMore.catch.
    assert (_state d <> PENDING) as Hnp by (by rewrite Hst).
    assert (forall f g, (Hope.then_ this f g r).1 = length (heap r)) as ->
      by (intros; by rewrite (then_settled _ _ _ _ _ Hd Hnp)).
    eexists. split; [by apply (turn_after_then _ _ _ _ _ d)|].
    rewrite (scheduleTask_no_handler _ _ d) by (done || by rewrite Hst).
    rewrite Hst. simpl. split; [done|].
    by destruct (_resolve_plain_at _ (_value d) _ _ Hnew eq_refl Hv) as [? _].
  - intros Hst.
    assert (_state d <> PENDING) as Hnp by (by rewrite Hst).
    assert (forall f g, (Hope.then_ this f g r).1 = length (heap r)) as ->
      by (intros; by rewrite (then_settled _ _ _ _ _ Hd Hnp)).
    eexists. split; [by apply (turn_after_then _ _ _ _ _ d)|].
    rewrite (scheduleTask_no_handler _ _ d) by (done || by rewrite Hst).
    rewrite Hst. simpl. split; [done|].
    by destruct (_reject_at _ (_reason d) _ _ Hnew eq_refl) as [? _].
Qed.

Lemma settlement_passes_through_witness :
  let s := sched (Scheduler.new default_options empty_runtime) in
  let f := Some (FnUser (fun _ => Return (VStr "unused"))) in
  (exists w',
     turn (World (HopeMore.catch 0 f (Hope.resolve (VNum 1) empty_runtime).2).2 s) = Some w'
     /\ heap (rt w') !! 1 = Some (fulfilled_with (VNum 1) fresh_hope))
  /\ (exists w',
        turn (World (Hope.then_ 0 f None (Hope.reject (VStr "no") empty_runtime).2).2 s)
        = Some w'
        /\ heap (rt w') !! 1 = Some (rejected_because (VStr "no") fresh_hope)).
Proof.
  intros s f. split.
  - destruct (settlement_passes_through 0 (fulfilled_with (VNum 1) fresh_hope) f
                (Hope.resolve (VNum 1) empty_runtime).2 s eq_refl eq_refl)
      as [H _].
    destruct (H eq_refl eq_refl) as (w' & Ht & _ & Hq). by exists w'.
  - destruct (settlement_passes_through 0 (rejected_because (VStr "no") fresh_hope) f
                (Hope.reject (VStr "no") empty_runtime).2 s eq_refl eq_refl)
      as [_ H].
    destruct (H eq_refl) as (w' & Ht & _ & Hq). by exists w'.
Defined.

(** X5.  What the executor throws rejects the new instance, unless the
    executor has resolved or rejected it before: then the exception is
    dropped and the instance stays as the executor left it. *)
Theorem executor_throw_rejects executor r error d :
  let h := length (heap r) in
  (executor h (Hope.alloc r).2).2 = Throw error ->
  heap (executor h (Hope.alloc r).2).1 !! h = Some d ->
  (Hope.new executor r).1 = h
  /\ (_settled d = false ->
      heap (Hope.new executor r).2 !! h = Some (rejected_because error d)
      /\ microtasks (Hope.new executor r).2
         = microtasks (executor h (Hope.alloc r).2).1 ++ _onRejectedCallbacks d)
  /\ (_settled d = true ->
      (Hope.new executor r).2 = (executor h (Hope.alloc r).2).1).
Proof.
  intros h Hthrow Hd. unfold Hope.new. simpl in *.
  destruct (executor _ _) as [r1 c]. simpl in *. subst c.
  split; [done|]. split.
  - intros Hs. destruct (_reject_at _ error _ _ Hd Hs) as [Hh _]. split; [exact Hh|].
    rewrite (_reject_plain _ _ _ _ Hd Hs). by destruct r1.
  - intros Hs. by rewrite (_reject_settled _ _ _ _ Hd Hs).
Qed.

Lemma executor_throw_rejects_witness :
  let executor := fun (_ : nat) r => (r, Throw (VError Error "boom")) in
  heap (Hope.new executor empty_runtime).2 !! 0
  = Some (rejected_because (VError Error "boom") fresh_hope).
Proof.
  intros executor.
  destruct (executor_throw_rejects executor empty_runtime (VError Error "boom")
              fresh_hope eq_refl eq_refl) as (_ & H & _).
  exact (proj1 (H eq_refl)).
Defined.

End Handlers.

(** ** A Hope returned by a handler *)

Section Adoption.

(** [_resolvePromise] with a settled Hope that is not the source: a flag is
    made for the call and [then] queues the adopting closure. *)
Lemma _resolvePromise_settled_hope this target x r dx :
  heap r !! x = Some dx -> _state dx <> PENDING -> x <> this ->
  Hope._resolvePromise this target (VHope x) r
  = with_microtasks (fun q =>
      q ++ [Continuation x
              (Some (FnAdoptFulfilled this (length (called_flags r)) target))
              (Some (FnAdoptRejected (length (called_flags r)) target))
              (length (heap r))])
      (with_heap (fun hp => hp ++ [fresh_hope])
         (with_called_flags (fun l => l ++ [false]) r)).
Proof.
  intros Hx Hst Hne. unfold Hope._resolvePromise. simpl.
  assert (Nat.eqb x this = false) as -> by (by apply Nat.eqb_neq).
  set (r1 := with_called_flags _ r).
  assert (heap r1 !! x = Some dx) as Hx1 by (by destruct r).
  rewrite (then_settled _ _ _ _ _ Hx1 Hst). by destruct r.
Qed.

(** The turn that runs the adopting closure of a settled Hope. *)
Lemma adopt_turn this x dx q q2 called r s :
  microtasks r = [Continuation x (Some (FnAdoptFulfilled this called q))
                                 (Some (FnAdoptRejected called q)) q2] ->
  heap r !! x = Some dx -> _state dx <> PENDING ->
  (_state dx = FULFILLED -> is_thenable (_value dx) = false) ->
  called_flags r !! called = Some false ->
  heap r !! q = Some fresh_hope -> q2 <> q ->
  exists w',
    turn (World r s) = Some w'
    /\ heap (rt w') !! q
       = Some (if hope_state_eqb (_state dx) FULFILLED
               then fulfilled_with (_value dx) fresh_hope
               else rejected_because (_reason dx) fresh_hope)
    /\ sched w' = s.
Proof.
  intros Hm Hx Hst Hv Hc Hq Hne.
  unfold turn. simpl. rewrite Hm. eexists. split; [done|].
  unfold scheduleTask. simpl.
  destruct r as [hp mt ts nt ck cf ac th eo]. simpl in *. rewrite Hx.
  destruct (hope_state_eqb (_state dx) FULFILLED) eqn:Hf; simpl; rewrite Hc; simpl.
  - assert (is_thenable (_value dx) = false) as Hv'.
    { apply Hv. by destruct (_state dx). }
    rewrite !_resolvePromise_plain by done.
    split; [|done].
    match goal with |- heap (Hope._resolve q2 VUndefined ?r1) !! q = _ =>
      destruct (_resolve_plain_elsewhere q q2 VUndefined r1 Hne eq_refl) as [-> _] end.
    match goal with |- heap (Hope._resolve q ?v ?r1) !! q = _ =>
      by destruct (_resolve_plain_at q v r1 fresh_hope) as [-> _] end.
  - rewrite !_resolvePromise_plain by done.
    split; [|done].
    match goal with |- heap (Hope._resolve q2 VUndefined ?r1) !! q = _ =>
      destruct (_resolve_plain_elsewhere q q2 VUndefined r1 Hne eq_refl) as [-> _] end.
    match goal with |- heap (Hope._reject q ?v ?r1) !! q = _ =>
      by destruct (_reject_at q v r1 fresh_hope) as [-> _] end.
Qed.

Lemma then_adopts_settled this x d dx g onRejected r s :
  heap r !! this = Some d -> _state d = FULFILLED -> microtasks r = [] ->
  g (_value d) = Return (VHope x) ->
  heap r !! x = Some dx -> _state dx <> PENDING -> x <> this ->
  (_state dx = FULFILLED -> is_thenable (_value dx) = false) ->
  let q := (Hope.then_ this (Some (FnUser g)) onRejected r).1 in
  let w' := run 2 (World (Hope.then_ this (Some (FnUser g)) onRejected r).2 s) in
  heap (rt w') !! q
  = Some (if hope_state_eqb (_state dx) FULFILLED
          then fulfilled_with (_value dx) fresh_hope
          else rejected_because (_reason dx) fresh_hope)
  /\ sched w' = s.
Proof.
  intros Hd Hst Hm Hg Hx Hstx Hne Hv q w'.
  assert (_state d <> PENDING) as Hnp by (by rewrite Hst).
  pose proof (lookup_lt_Some _ _ _ Hd) as Hlt.
  pose proof (lookup_lt_Some _ _ _ Hx) as Hltx.
  unfold w', q. cbn [run].
  rewrite (turn_after_then _ _ _ _ _ d Hd Hnp Hm).
  rewrite (then_settled _ _ _ _ _ Hd Hnp). cbn [fst].
  rewrite (scheduleTask_user _ _ d g); [|by apply lookup_alloc_old|by simpl; rewrite Hst].
  unfold outcome. rewrite Hst. cbn [hope_state_eqb k_source k_target]. rewrite Hg.
  unfold on_rt. cbn [rt sched].
  rewrite (_resolvePromise_settled_hope _ _ _ _ dx (lookup_alloc_old _ _ _ Hx) Hstx Hne).
  match goal with |- context [turn (World ?r1 s)] =>
    destruct (adopt_turn this x dx (length (heap r)) (length (heap (Hope.alloc r).2))
                (length (called_flags (Hope.alloc r).2)) r1 s)
      as (w2 & -> & Hq & Hs) end.
  - destruct r. simpl in *. by subst.
  - destruct r. simpl in *. rewrite lookup_app_l by (rewrite length_app; simpl; lia).
    by rewrite lookup_app_l.
  - done.
  - done.
  - destruct r. simpl. by apply list_lookup_middle.
  - destruct r. simpl. rewrite lookup_app_l by (rewrite length_app; simpl; lia).
    by apply list_lookup_middle.
  - destruct r. simpl. rewrite length_app. simpl. lia.
  - done.
Qed.


(** X6.  A settled Hope returned by a handler is adopted: when the handler
    of [then] on a fulfilled instance returns another instance that is
    fulfilled or rejected, the instance that [then] returned has, two turns
    later, the same value or the same reason.  But when the handler returns
    the instance it was attached to, the returned instance is rejected after
    one turn with a TypeError 'Promise cannot be resolved with itself'. *)
Theorem then_adopts_returned_hope this d g onRejected r s :
  heap r !! this = Some d -> _state d = FULFILLED -> microtasks r = [] ->
  let q := (Hope.then_ this (Some (FnUser g)) onRejected r).1 in
  let w := World (Hope.then_ this (Some (FnUser g)) onRejected r).2 s in
  (forall x dx,
     g (_value d) = Return (VHope x) -> x <> this ->
     heap r !! x = Some dx -> _state dx <> PENDING ->
     (_state dx = FULFILLED -> is_thenable (_value dx) = false) ->
     heap (rt (run 2 w)) !! q
     = Some (if hope_state_eqb (_state dx) FULFILLED
             then fulfilled_with (_value dx) fresh_hope
             else rejected_because (_reason dx) fresh_hope))
  /\ (g (_value d) = Return (VHope this) ->
      heap (rt (run 1 w)) !! q
      = Some (rejected_because
                (VError TypeError "Promise cannot be resolved with itself")
                fresh_hope)).
Proof.
  intros Hd Hst Hm q w. split.
  - intros x dx Hg Hne Hx Hstx Hv.
    by destruct (then_adopts_settled this x d dx g onRejected r s) as [? _].
  - intros Hg.
    assert (_state d <> PENDING) as Hnp by (by rewrite Hst).
    unfold w, q. cbn [run].
    rewrite (turn_after_then _ _ _ _ _ d Hd Hnp Hm).
    rewrite (then_settled _ _ _ _ _ Hd Hnp). cbn [fst].
    rewrite (scheduleTask_user _ _ d g); [|by apply lookup_alloc_old|by simpl; rewrite Hst].
    unfold outcome. rewrite Hst. cbn [hope_state_eqb k_source k_target]. rewrite Hg.
    unfold on_rt, Hope._resolvePromise. cbn [rt sched same_hope].
    rewrite Nat.eqb_refl.
    by destruct (_reject_at (length (heap r))
                   (VError TypeError "Promise cannot be resolved with itself")
                   (Hope.alloc r).2 fresh_hope (lookup_alloc_new r) eq_refl) as [-> _].
Qed.

Lemma then_adopts_returned_hope_witness :
  let r := (Hope.reject (VStr "no") (Hope.resolve (VNum 1) empty_runtime).2).2 in
  let g := fun _ : value => Return (VHope 1) in
  let w := World (Hope.then_ 0 (Some (FnUser g)) None r).2
                 (sched (Scheduler.new default_options empty_runtime)) in
  heap (rt (run 2 w)) !! 2 = Some (rejected_because (VStr "no") fresh_hope).
Proof.
  intros r g w.
  destruct (then_adopts_returned_hope 0 (fulfilled_with (VNum 1) fresh_hope) g None r
              (sched (Scheduler.new default_options empty_runtime))
              eq_refl eq_refl eq_refl) as [H _].
  apply (H 1 (rejected_because (VStr "no") fresh_hope)); try reflexivity;
    discriminate.
Defined.

End Adoption.

(** ** Timeouts *)

Section Timeouts.

Lemma timeout_pending this ms reason r d :
  heap r !! this = Some d -> _state d = PENDING ->
  let p := length (heap r) in
  let timer := next_timer r in
  let k := Continuation this (Some (FnTimeoutFulfilled timer p))
                             (Some (FnTimeoutRejected timer p)) (S p) in
  Hope.timeout this ms reason r
  = (p, with_heap (fun hp => alter (registered k) this hp ++ [fresh_hope; fresh_hope])
          (with_next_timer (S timer)
             (with_timers (fun ts =>
                ts ++ [Timer timer (clock r + ms) (FnTimeoutExpired p reason)]) r))).
Proof.
  intros Hd Hst. unfold Hope.timeout, Hope.new, Hope.alloc, setTimeout, Hope.then_,
    Hope.new, Hope.alloc, Hope.update.
  destruct r as [hp mt ts nt ck cf ac th eo]. simpl in *.
  pose proof (lookup_lt_Some _ _ _ Hd) as Hlt.
  rewrite length_app. simpl.
  rewrite lookup_app_l by (rewrite length_app; simpl; lia).
  rewrite lookup_app_l by done. rewrite Hd, Hst. simpl.
  unfold with_heap, with_next_timer, with_timers. simpl.
  replace (length hp + 1) with (S (length hp)) by lia.
  do 2 f_equal. rewrite list_alter_alter.
  rewrite !alter_app_l by (rewrite ?length_app; simpl; lia).
  by rewrite <- !app_assoc.
Qed.

Lemma timeout_settled this ms reason r d :
  heap r !! this = Some d -> _state d <> PENDING ->
  let p := length (heap r) in
  let timer := next_timer r in
  let k := Continuation this (Some (FnTimeoutFulfilled timer p))
                             (Some (FnTimeoutRejected timer p)) (S p) in
  Hope.timeout this ms reason r
  = (p, with_microtasks (fun q => q ++ [k])
          (with_heap (fun hp => hp ++ [fresh_hope; fresh_hope])
             (with_next_timer (S timer)
                (with_timers (fun ts =>
                   ts ++ [Timer timer (clock r + ms) (FnTimeoutExpired p reason)]) r)))).
Proof.
  intros Hd Hst. unfold Hope.timeout, Hope.new, Hope.alloc, setTimeout, Hope.then_,
    Hope.new, Hope.alloc, Hope.update, Hope.handleSettlement, queueMicrotask.
  destruct r as [hp mt ts nt ck cf ac th eo]. simpl in *.
  pose proof (lookup_lt_Some _ _ _ Hd) as Hlt.
  rewrite length_app. simpl.
  rewrite lookup_app_l by (rewrite length_app; simpl; lia).
  rewrite lookup_app_l by done. rewrite Hd.
  replace (length hp + 1) with (S (length hp)) by lia.
  destruct (_state d); try done; simpl;
    unfold with_heap, with_next_timer, with_timers, with_microtasks; simpl;
    by rewrite <- !app_assoc.
Qed.

(** The host fires first a timer armed last for a time before all others. *)
Lemma next_due_snoc ts t :
  Forall (fun t' => timer_due t < timer_due t') ts ->
  next_due (ts ++ [t]) = Some t.
Proof.
  induction 1 as [|t' ts Ht' Hts IH]; simpl; [done|].
  rewrite IH. by apply Nat.ltb_lt in Ht' as ->.
Qed.

(** X7.  [timeout] on a pending instance arms a timer for [ms] from now and
    returns a new instance; when the timer is the next thing the host runs,
    the turn moves the clock to the due time and rejects the returned
    instance with the reason, a string reason wrapped in an Error.  The
    source is not settled by this: it stays pending. *)
Theorem timeout_rejects_when_timer_fires this d ms reason r s :
  heap r !! this = Some d -> _state d = PENDING -> microtasks r = [] ->
  Forall (fun t => clock r + ms < timer_due t) (timers r) ->
  let p := (Hope.timeout this ms reason r).1 in
  exists w',
    turn (World (Hope.timeout this ms reason r).2 s) = Some w'
    /\ sched w' = s
    /\ clock (rt w') = clock r + ms
    /\ heap (rt w') !! p = Some (rejected_because (wrap_reason reason) fresh_hope)
    /\ (exists d', heap (rt w') !! this = Some d' /\ core d' = core d)
    /\ Forall (fun t => timer_id t <> next_timer r) (timers (rt w')).
Proof.
  intros Hd Hst Hm Hts p. unfold p. rewrite (timeout_pending _ _ _ _ _ Hd Hst).
  pose proof (lookup_lt_Some _ _ _ Hd) as Hlt.
  destruct r as [hp mt ts nt ck cf ac th eo]. simpl in *. subst mt.
  unfold turn. simpl. rewrite next_due_snoc by done. simpl.
  eexists. split; [done|]. simpl. split; [done|].
  match goal with |- context [Hope._reject ?h ?e ?r0] =>
    destruct (_reject_at h e r0 fresh_hope) as [Hp Ho] end.
  { simpl. rewrite lookup_app_r by (by rewrite length_alter).
    by rewrite length_alter, Nat.sub_diag. }
  { done. }
  split; [|split; [done|split]].
  - match goal with |- context [Hope._reject ?h ?e ?r0] =>
      rewrite (_reject_plain h e r0 fresh_hope) end; simpl; [lia| |done].
    rewrite lookup_app_r by (by rewrite length_alter).
    by rewrite length_alter, Nat.sub_diag.
  - rewrite Ho by lia. simpl.
    rewrite lookup_app_l by (by rewrite length_alter).
    rewrite list_lookup_alter_eq, Hd. simpl. eauto.
  - match goal with |- context [Hope._reject ?h ?e ?r0] =>
      rewrite (_reject_plain h e r0 fresh_hope) end; simpl; [| |done].
    + apply Forall_forall. intros t Ht. by apply list_elem_of_filter in Ht as [? _].
    + rewrite lookup_app_r by (by rewrite length_alter).
      by rewrite length_alter, Nat.sub_diag.
Qed.

Lemma timeout_rejects_when_timer_fires_witness :
  let r := (Hope.new (fun _ r => (r, Return VUndefined)) empty_runtime).2 in
  exists w',
    turn (World (Hope.timeout 0 50 (VStr "too slow") r).2
                (sched (Scheduler.new default_options empty_runtime))) = Some w'
    /\ clock (rt w') = 50
    /\ heap (rt w') !! 1
       = Some (rejected_because (VError Error "too slow") fresh_hope)
    /\ _state <$> heap (rt w') !! 0 = Some PENDING.
Proof.
  intros r.
  destruct (timeout_rejects_when_timer_fires 0 fresh_hope 50 (VStr "too slow") r
              (sched (Scheduler.new default_options empty_runtime)))
    as (w' & Ht & _ & Hc & Hp & (d' & Hd' & Hcore) & _);
    [reflexivity | reflexivity | reflexivity | by constructor |].
  exists w'. split; [exact Ht|]. split; [exact Hc|]. split; [exact Hp|].
  rewrite Hd'. simpl. by injection Hcore as -> _ _ _.
Defined.

(** With nothing else queued, the turn after [timeout] on a settled instance
    runs the closure that mirrors the settlement and clears the timer. *)
Lemma timeout_settled_turn this d ms reason r s :
  heap r !! this = Some d -> _state d <> PENDING -> microtasks r = [] ->
  (_state d = FULFILLED -> is_thenable (_value d) = false) ->
  let p := (Hope.timeout this ms reason r).1 in
  exists w',
    turn (World (Hope.timeout this ms reason r).2 s) = Some w'
    /\ sched w' = s
    /\ clock (rt w') = clock r
    /\ heap (rt w') !! p
       = Some (if hope_state_eqb (_state d) FULFILLED
               then fulfilled_with (_value d) fresh_hope
               else rejected_because (_reason d) fresh_hope)
    /\ heap (rt w') !! this = Some d
    /\ Forall (fun t => timer_id t <> next_timer r) (timers (rt w')).
Proof.
  intros Hd Hst Hm Hv p. unfold p. rewrite (timeout_settled _ _ _ _ _ Hd Hst).
  pose proof (lookup_lt_Some _ _ _ Hd) as Hlt.
  destruct r as [hp mt ts nt ck cf ac th eo]. simpl in *. subst mt.
  unfold turn. simpl. eexists. split; [done|].
  unfold scheduleTask. simpl.
  rewrite lookup_app_l by done. rewrite Hd. simpl.
  destruct (hope_state_eqb (_state d) FULFILLED) eqn:Hf; simpl.
  - rewrite _resolvePromise_plain by done.
    assert (is_thenable (_value d) = false) as Hv'.
    { apply Hv. by destruct (_state d). }
    unfold clearTimeout, with_microtasks, with_heap, with_next_timer, with_timers. simpl.
    rewrite (_resolve_plain (length hp) (_value d) _ fresh_hope); [|simpl|done|done].
    2:{ by apply list_lookup_middle. }
    unfold with_microtasks, with_heap. simpl.
    rewrite (_resolve_plain (S (length hp)) VUndefined _ fresh_hope); [|simpl|done|done].
    2:{ rewrite alter_app_r_alt by done. rewrite Nat.sub_diag. simpl.
        rewrite lookup_app_r by lia. by replace (S (length hp) - length hp) with 1 by lia. }
    simpl. split; [done|]. split; [done|]. split; [|split].
    + rewrite list_lookup_alter_ne by lia. rewrite list_lookup_alter_eq.
      by rewrite list_lookup_middle.
    + rewrite !list_lookup_alter_ne by lia. by rewrite lookup_app_l.
    + apply Forall_forall. intros t Ht. by apply list_elem_of_filter in Ht as [? _].
  - assert (_state d = REJECTED) as Hr by (by destruct (_state d)).
    unfold clearTimeout, with_microtasks, with_heap, with_next_timer, with_timers. simpl.
    rewrite _resolvePromise_plain by done.
    rewrite (_reject_plain (length hp) (_reason d) _ fresh_hope); [|simpl|done].
    2:{ by apply list_lookup_middle. }
    unfold with_microtasks, with_heap. simpl.
    rewrite (_resolve_plain (S (length hp)) VUndefined _ fresh_hope); [|simpl|done|done].
    2:{ rewrite alter_app_r_alt by done. rewrite Nat.sub_diag. simpl.
        rewrite lookup_app_r by lia. by replace (S (length hp) - length hp) with 1 by lia. }
    simpl. split; [done|]. split; [done|]. split; [|split].
    + rewrite list_lookup_alter_ne by lia. rewrite list_lookup_alter_eq.
      by rewrite list_lookup_middle.
    + rewrite !list_lookup_alter_ne by lia. by rewrite lookup_app_l.
    + apply Forall_forall. intros t Ht. by apply list_elem_of_filter in Ht as [? _].
Qed.

Lemma static_resolve_plain v r :
  is_thenable v = false ->
  Hope.resolve v r
  = (length (heap r), with_heap (fun hp => hp ++ [fulfilled_with v fresh_hope]) r).
Proof.
  intros Hv.
  assert (Hope.resolve v r
          = Hope.new (fun h r => (Hope._resolve h v r, Return VUndefined)) r) as ->
    by (by destruct v).
  pose proof (_resolve_plain _ v _ fresh_hope (lookup_alloc_new r) eq_refl Hv) as H.
  unfold Hope.new. simpl in *. rewrite H.
  destruct r as [hp mt ts nt ck cf ac th eo].
  unfold with_microtasks, with_heap. simpl. rewrite app_nil_r.
  do 2 f_equal. rewrite alter_app_r_alt by done. by rewrite Nat.sub_diag.
Qed.

(** X8.  [Hope.withTimeout] on something already settled mirrors it and
    disarms the timer.  With nothing else queued, one turn after the call
    the returned instance is fulfilled with the value, or rejected with the
    reason, that a settled Hope passed in holds, and fulfilled with the
    value passed in when that is not a thenable; no timer with the id that
    was armed is left, and the clock has not moved. *)
Theorem withTimeout_mirrors_settled ms reason r s :
  microtasks r = [] ->
  (forall h d,
     heap r !! h = Some d -> _state d <> PENDING ->
     (_state d = FULFILLED -> is_thenable (_value d) = false) ->
     exists w',
       turn (World (HopeMore.withTimeout (VHope h) ms reason r).2 s) = Some w'
       /\ clock (rt w') = clock r
       /\ heap (rt w') !! (HopeMore.withTimeout (VHope h) ms reason r).1
          = Some (if hope_state_eqb (_state d) FULFILLED
                  then fulfilled_with (_value d) fresh_hope
                  else rejected_because (_reason d) fresh_hope)
       /\ Forall (fun t => timer_id t <> next_timer r) (timers (rt w')))
  /\ (forall v,
        is_thenable v = false ->
        exists w',
          turn (World (HopeMore.withTimeout v ms reason r).2 s) = Some w'
          /\ clock (rt w') = clock r
          /\ heap (rt w') !! (HopeMore.withTimeout v ms reason r).1
             = Some (fulfilled_with v fresh_hope)
          /\ Forall (fun t => timer_id t <> next_timer r) (timers (rt w'))).
Proof.
  intros Hm. split.
  - intros h d Hd Hst Hv. unfold HopeMore.withTimeout. simpl.
    destruct (timeout_settled_turn h d ms reason r s Hd Hst Hm Hv)
      as (w' & Ht & _ & Hc & Hp & _ & Hts).
    by exists w'.
  - intros v Hv. unfold HopeMore.withTimeout.
    rewrite (static_resolve_plain _ _ Hv).
    set (r1 := with_heap _ r).
    assert (heap r1 !! length (heap r) = Some (fulfilled_with v fresh_hope)) as Hd.
    { unfold r1. destruct r. simpl. by apply list_lookup_middle. }
    destruct (timeout_settled_turn (length (heap r)) _ ms reason r1 s Hd)
      as (w' & Ht & _ & Hc & Hp & _ & Hts); [done|by destruct r|done|].
    exists w'. split; [done|]. split; [by destruct r|]. split; [done|by destruct r].
Qed.

Lemma withTimeout_mirrors_settled_witness :
  exists w',
    turn (World (HopeMore.withTimeout (VNum 7) 50 (VStr "Timeout") empty_runtime).2
                (sched (Scheduler.new default_options empty_runtime))) = Some w'
    /\ heap (rt w') !! 1 = Some (fulfilled_with (VNum 7) fresh_hope)
    /\ timers (rt w') = [].
Proof.
  destruct (withTimeout_mirrors_settled 50 (VStr "Timeout") empty_runtime
              (sched (Scheduler.new default_options empty_runtime)) eq_refl)
    as [_ H].
  destruct (H (VNum 7) eq_refl) as (w' & Ht & _ & Hp & _).
  exists w'. split; [exact Ht|]. split; [exact Hp|].
  vm_compute in Ht. injection Ht as <-. reflexivity.
Defined.

End Timeouts.

(** ** Cancellation *)

Section Cancellation.

(** X9.  [cancel] on an instance that is not cancelable or not pending
    returns false and changes nothing.  On a cancelable, pending instance
    that nothing has resolved yet it returns true, rejects the instance with
    a CancelError of the reason and queues its rejection handlers; a second
    [cancel] then returns false.  On a cancelable instance that is still
    pending but was resolved with a thenable it returns true although
    nothing is changed. *)
Theorem cancel_outcomes this reason r d :
  heap r !! this = Some d ->
  (_isCancelable d = false \/ _state d <> PENDING ->
   Hope.cancel this reason r = (false, r))
  /\ (_isCancelable d = true -> _state d = PENDING -> _settled d = false ->
      let r' := (Hope.cancel this reason r).2 in
      (Hope.cancel this reason r).1 = true
      /\ heap r' !! this = Some (rejected_because (VError CancelError reason) d)
      /\ microtasks r' = microtasks r ++ _onRejectedCallbacks d
      /\ forall again, Hope.cancel this again r' = (false, r'))
  /\ (_isCancelable d = true -> _state d = PENDING -> _settled d = true ->
      Hope.cancel this reason r = (true, r)).
Proof.
  intros Hd. unfold Hope.cancel. rewrite Hd. split; [|split].
  - intros [-> | Hst]; [done|]. rewrite andb_comm. by destruct (_state d).
  - intros -> -> Hs. simpl. split; [done|].
    destruct (_reject_at _ (VError CancelError reason) _ _ Hd Hs) as [Hthis _].
    split; [done|]. split.
    + rewrite (_reject_plain _ _ _ _ Hd Hs). by destruct r.
    + intros again. rewrite Hthis. simpl. by rewrite andb_false_r.
  - intros -> -> Hs. simpl. by rewrite (_reject_settled _ _ _ _ Hd Hs).
Qed.

Lemma cancel_outcomes_witness :
  let r := (Hope.cancellable (fun _ r => (r, Return VUndefined)) empty_runtime).2 in
  (Hope.cancel 0 "stop" r).1 = true
  /\ heap (Hope.cancel 0 "stop" r).2 !! 0
     = Some (rejected_because (VError CancelError "stop")
               (set_isCancelable true fresh_hope)).
Proof.
  intros r.
  destruct (cancel_outcomes 0 "stop" r (set_isCancelable true fresh_hope) eq_refl)
    as (_ & H & _).
  destruct (H eq_refl eq_refl eq_refl) as (H1 & H2 & _).
  split; [exact H1 | exact H2].
Defined.

(** X10.  [Hope.cancellable] returns an instance that [cancel] works on: if
    the executor leaves the instance unresolved, [cancel] returns true and
    the instance is rejected with a CancelError of the reason, as it is by
    the function returned beside it. *)
Theorem cancellable_can_be_canceled executor reason r d :
  let h := (Hope.new executor r).1 in
  heap (Hope.new executor r).2 !! h = Some d ->
  _state d = PENDING -> _settled d = false ->
  let r' := (Hope.cancellable executor r).2 in
  (Hope.cancellable executor r).1 = h
  /\ (Hope.cancel h reason r').1 = true
  /\ (Hope.cancel h reason r').2 = Hope.cancelFunction h reason r'
  /\ exists d', heap (Hope.cancel h reason r').2 !! h = Some d'
       /\ _state d' = REJECTED
       /\ _reason d' = VError CancelError reason.
Proof.
  intros h Hd Hst Hs r'. unfold r', Hope.cancellable.
  destruct (Hope.new executor r) as [h0 r0] eqn:Hnew. simpl in *. subst h.
  split; [done|].
  assert (heap (Hope.update h0 (set_isCancelable true) r0) !! h0
          = Some (set_isCancelable true d)) as Hd'.
  { destruct r0. simpl in *. by rewrite list_lookup_alter_eq, Hd. }
  unfold Hope.cancel, Hope.cancelFunction. rewrite Hd'. simpl. rewrite Hst. simpl.
  split; [done|]. split; [done|].
  destruct (_reject_at _ (VError CancelError reason) _ _ Hd' Hs) as [-> _].
  eauto.
Qed.

Lemma cancellable_can_be_canceled_witness :
  let executor := fun (_ : nat) r => (r, Return VUndefined) in
  let r' := (Hope.cancellable executor empty_runtime).2 in
  (Hope.cancel 0 "stop" r').1 = true
  /\ exists d', heap (Hope.cancel 0 "stop" r').2 !! 0 = Some d'
       /\ _state d' = REJECTED
       /\ _reason d' = VError CancelError "stop".
Proof.
  intros executor r'.
  destruct (cancellable_can_be_canceled executor "stop" empty_runtime fresh_hope
              eq_refl eq_refl eq_refl) as (_ & H1 & _ & d' & Hd' & Hst & Hr).
  split; [exact H1|]. exists d'. split; [exact Hd'|]. split; [exact Hst | exact Hr].
Defined.

End Cancellation.

(** ** Settled for good *)

(** X11.  Once an instance has been resolved or rejected, nothing a program
    does later changes what its getters report: through any sequence of
    calls of the scheduler's interface, turns of the event loop and calls
    of the methods of class Hope and of the host's timers, [state] stays the
    same, and [value] and [reason] return or throw as before. *)
Theorem getters_are_final o d w w' :
  heap (rt w) !! o = Some d -> _settled d = true ->
  rtc program_step w w' ->
  HopeMore.get_state o (rt w') = Some (_state d)
  /\ HopeMore.get_value o (rt w') = HopeMore.get_value o (rt w)
  /\ HopeMore.get_reason o (rt w') = HopeMore.get_reason o (rt w).
Proof.
  intros Hd Hs Hrtc.
  destruct (settled_is_final o w w') with (d := d) as (d' & Hd' & Hc);
    [by exists d | done | done |].
  unfold HopeMore.get_state, HopeMore.get_value, HopeMore.get_reason.
  rewrite Hd, Hd'. simpl. unfold core in Hc. by injection Hc as -> -> -> _.
Qed.

Lemma getters_are_final_witness :
  let w := World (Hope.resolve (VNum 1) empty_runtime).2
                 (sched (Scheduler.new default_options empty_runtime)) in
  let w' := on_rt (Hope._reject 0 (VStr "late")) (on_rt (Hope._resolve 0 (VNum 2)) w) in
  HopeMore.get_state 0 (rt w') = Some FULFILLED
  /\ HopeMore.get_value 0 (rt w') = Return (VNum 1).
Proof.
  intros w w'.
  destruct (getters_are_final 0 (fulfilled_with (VNum 1) fresh_hope) w w' eq_refl eq_refl)
    as (H1 & H2 & _).
  - eapply rtc_l; [apply (program_caller w), (caller_resolve 0 (VNum 2))|].
    eapply rtc_l; [apply program_caller, (caller_reject 0 (VStr "late"))|].
    apply rtc_refl.
  - split; [exact H1 | exact H2].
Defined.

(** ** Hope.race *)

Section Race.







(** When an input settles, the closure that [race] attached to it runs the
    handler and then resolves the instance that [then] returned, which is
    not [o]. *)
Lemma scheduleTask_race o p target w this :
  heap (rt w) !! p = Some this -> _state this <> PENDING ->
  scheduleTask (Continuation p (Some (FnResolve o)) (Some (FnReject o)) target) w
  = on_rt (Hope._resolvePromise p target VUndefined)
      (race_handle o w (if hope_state_eqb (_state this) FULFILLED
                        then InputFulfils 0 (_value this)
                        else InputRejects 0 (_reason this))).
Proof.
  intros Hp Hst. unfold scheduleTask. simpl. rewrite Hp.
  by destruct (_state this).
Qed.



End Race.

(** ** The progress channel *)

Section ProgressChannel.

Lemma received_by_app cb cbs vs c l :
  Progress.received_by cb (Progress.Channel cbs vs (Progress.received c ++ l))
  = Progress.received_by cb c ++ (filter (fun p : nat * value => p.1 = cb) l).*2.
Proof. unfold Progress.received_by. simpl. by rewrite filter_app, fmap_app. Qed.

Lemma filter_replay cb cb0 (vs : list value) :
  (filter (fun p : nat * value => p.1 = cb) ((fun v => (cb0, v)) <$> vs)).*2
  = if decide (cb0 = cb) then vs else [].
Proof.
  destruct (decide (cb0 = cb)) as [Heq|Hne].
  - induction vs as [|v vs IH]; [done|].
    rewrite fmap_cons, filter_cons_True by done. rewrite fmap_cons. by rewrite IH.
  - induction vs as [|v vs IH]; [done|].
    by rewrite fmap_cons, filter_cons_False.
Qed.

Lemma filter_live cb v (cbs : list nat) :
  NoDup cbs ->
  (filter (fun p : nat * value => p.1 = cb) ((fun cb0 => (cb0, v)) <$> cbs)).*2
  = if decide (cb ∈ cbs) then [v] else [].
Proof.
  induction 1 as [|cb0 cbs Hnotin Hnd IH].
  - destruct (decide _) as [H|H]; [by apply elem_of_nil in H|done].
  - rewrite fmap_cons. destruct (decide (cb0 = cb)) as [->|Hne].
    + rewrite filter_cons_True by done. rewrite fmap_cons, IH.
      rewrite decide_False by done. by rewrite decide_True by left.
    + rewrite filter_cons_False by done. rewrite IH.
      destruct (decide (cb ∈ cbs)) as [Hin|Hnin].
      * by rewrite decide_True by (by right).
      * rewrite decide_False; [done|]. intros [->|?]%elem_of_cons; done.
Qed.

Lemma progress_invariant this r ops :
  Progress.is_pending this r = true ->
  NoDup (Progress.subscribers ops) ->
  let c := foldl (Progress.step this r) Progress.empty ops in
  Progress._progressCallbacks c = Progress.subscribers ops
  /\ Progress._pendingProgressValues c = Progress.emitted ops
  /\ forall cb, Progress.received_by cb c
       = if decide (cb ∈ Progress.subscribers ops) then Progress.emitted ops else [].
Proof.
  intros Hp. induction ops as [|o ops IH] using rev_ind; intros Hnd; simpl.
  - split; [done|]. split; [done|]. by intros cb.
  - unfold Progress.subscribers, Progress.emitted in *.
    rewrite omap_app in Hnd. rewrite !omap_app, foldl_app. simpl.
    destruct o as [v|cb0]; simpl in *.
    + rewrite app_nil_r in Hnd. destruct (IH Hnd) as (Hc & Hv & Hr).
      unfold Progress._progress. rewrite Hp. simpl.
      rewrite app_nil_r. split; [done|]. split; [by rewrite Hv|].
      intros cb. rewrite received_by_app, Hr, Hc, filter_live by done.
      by destruct (decide _); rewrite ?app_nil_r.
    + apply NoDup_app in Hnd as (Hnd & Hnotin & _).
      destruct (IH Hnd) as (Hc & Hv & Hr).
      unfold Progress.progress. rewrite Hp. simpl.
      rewrite app_nil_r. split; [by rewrite Hc|]. split; [done|].
      intros cb. rewrite received_by_app, Hr, Hv, filter_replay.
      destruct (decide (cb0 = cb)) as [->|Hne].
      * rewrite decide_False by (intros Hin; apply (Hnotin _ Hin); left).
        rewrite decide_True by (apply elem_of_app; right; left). done.
      * destruct (decide (cb ∈ _)) as [Hin|Hnin].
        -- rewrite decide_True by (apply elem_of_app; by left). by rewrite app_nil_r.
        -- rewrite decide_False; [done|].
           intros [?|?%list_elem_of_singleton]%elem_of_app; done.
Qed.

(** X13.  Every subscriber of a pending instance is called with every
    progress value, once each and in the order of emission, however
    subscriptions and emissions interleave: a callback passed to [progress]
    is first called with the values emitted before, and then with each
    value emitted later.  On an instance that is no longer pending both
    [progress] and [_progress] do nothing. *)
Theorem progress_reaches_every_subscriber this r :
  (Progress.is_pending this r = true ->
   forall ops cb,
     NoDup (Progress.subscribers ops) -> cb ∈ Progress.subscribers ops ->
     Progress.received_by cb (foldl (Progress.step this r) Progress.empty ops)
     = Progress.emitted ops)
  /\ (Progress.is_pending this r = false ->
      forall c o, Progress.step this r c o = c).
Proof.
  split.
  - intros Hp ops cb Hnd Hin.
    destruct (progress_invariant this r ops Hp Hnd) as (_ & _ & Hr).
    by rewrite Hr, decide_True.
  - intros Hp c [v|cb]; simpl; unfold Progress._progress, Progress.progress;
      by rewrite Hp.
Qed.

Lemma progress_reaches_every_subscriber_witness :
  let r := (Hope.new (fun _ r => (r, Return VUndefined)) empty_runtime).2 in
  let ops := [Progress.Emit (VNum 10); Progress.Subscribe 0; Progress.Emit (VNum 50);
              Progress.Subscribe 1; Progress.Emit (VNum 100)] in
  Progress.received_by 1 (foldl (Progress.step 0 r) Progress.empty ops)
  = [VNum 10; VNum 50; VNum 100].
Proof.
  intros r ops.
  destruct (progress_reaches_every_subscriber 0 r) as [H _].
  apply (H eq_refl ops 1).
  - compute_done.
  - compute_done.
Defined.

End ProgressChannel.

(** ** Invariants of the scheduler *)

Section WellFormed.

Lemma StronglySorted_weaken {A} (R R' : A -> A -> Prop) l :
  (forall a b, R a b -> R' a b) -> StronglySorted R l -> StronglySorted R' l.
Proof.
  intros HR. induction 1 as [|x l Hl IH Hx]; constructor; [done|].
  eapply Forall_impl; [exact Hx|]. auto.
Qed.

Lemma Forall_insert_by_priority (P : string -> Prop) prio x l :
  P x -> Forall P l -> Forall P (insert_by_priority prio x l).
Proof.
  intros Hx. induction 1 as [|y l Hy Hl IH]; simpl; [by constructor|].
  destruct (Z.ltb _ _); repeat constructor; done.
Qed.

Lemma insert_by_priority_sorted prio x l :
  StronglySorted (fun a b => (prio b <= prio a)%Z) l ->
  StronglySorted (fun a b => (prio b <= prio a)%Z) (insert_by_priority prio x l).
Proof.
  induction 1 as [|y l Hl IH Hy]; simpl; [repeat constructor|].
  destruct (Z.ltb (prio x) (prio y)) eqn:Hlt.
  - apply Z.ltb_lt in Hlt. constructor; [done|].
    apply Forall_insert_by_priority; [lia|done].
  - apply Z.ltb_ge in Hlt. constructor; [by constructor|].
    constructor; [done|]. eapply Forall_impl; [exact Hy|]. simpl. lia.
Qed.

Lemma sort_by_priority_sorted prio l :
  StronglySorted (fun a b => (prio b <= prio a)%Z) (sort_by_priority prio l).
Proof.
  induction l as [|x l IH]; simpl; [constructor|]. by apply insert_by_priority_sorted.
Qed.

Lemma remove_first_sorted (R : string -> string -> Prop) x l :
  StronglySorted R l -> StronglySorted R (remove_first x l).
Proof.
  induction 1 as [|y l Hl IH Hy]; simpl; [constructor|].
  destruct (bool_decide _); [done|]. constructor; [done|].
  clear -Hy. induction Hy as [|z l Hz Hl IH]; simpl; [constructor|].
  destruct (bool_decide _); [done|]. by constructor.
Qed.

Lemma job_priority_insert s id j j' x :
  jobs s !! id = Some j -> Job.options j' = Job.options j ->
  Scheduler.job_priority (set_jobs (insert id j') s) x = Scheduler.job_priority s x.
Proof.
  intros Hj Ho. unfold Scheduler.job_priority. simpl.
  destruct (decide (id = x)) as [->|Hne].
  - by rewrite lookup_insert_eq, Hj, Ho.
  - by rewrite lookup_insert_ne.
Qed.

(** Fields that the invariant does not read. *)
Lemma wf_set_runningJobs f s : well_formed s -> well_formed (set_runningJobs f s).
Proof. done. Qed.

Lemma wf_set_isRunning b s : well_formed s -> well_formed (set_isRunning b s).
Proof. done. Qed.

Lemma wf_set_idleHope h s : well_formed s -> well_formed (set_idleHope h s).
Proof. done. Qed.

Lemma wf_set_idleResolve h s : well_formed s -> well_formed (set_idleResolve h s).
Proof. done. Qed.

Lemma wf_incr_canceledJobs s :
  well_formed s -> well_formed (set_stats Stats.incr_canceledJobs s).
Proof. done. Qed.

Lemma wf_set_pendingJobs f s :
  StronglySorted (by_priority s) (f (pendingJobs s)) ->
  well_formed s -> well_formed (set_pendingJobs f s).
Proof. intros Hf (HJ & HQ & HL & HN & HM). done. Qed.

Lemma wf_sort_pending s : well_formed s -> well_formed (Scheduler.sort_pending s).
Proof. apply wf_set_pendingJobs. apply sort_by_priority_sorted. Qed.

Lemma wf_push_sort f s :
  well_formed s -> well_formed (Scheduler.sort_pending (set_pendingJobs f s)).
Proof.
  intros (HJ & HQ & HL & HN & HM).
  split; [exact HJ|split; [|split; [exact HL|split; [exact HN|exact HM]]]].
  apply sort_by_priority_sorted.
Qed.

Lemma wf_update_job s id j j' :
  jobs s !! id = Some j -> Job.options j' = Job.options j -> job_ok id j' ->
  well_formed s -> well_formed (set_jobs (insert id j') s).
Proof.
  intros Hj Ho Hok (HJ & HQ & HL & HN & HM). split; [|split; [|split; [|split]]].
  - by apply map_Forall_insert_2.
  - eapply StronglySorted_weaken; [|exact HQ]. unfold by_priority.
    intros a b. by rewrite !(job_priority_insert _ _ _ _ _ Hj Ho).
  - done.
  - done.
  - intros x. simpl. rewrite <- (HM x).
    rewrite lookup_insert_is_Some. split.
    + intros [<-|[_ ?]]; [by rewrite Hj|done].
    + intros ?. destruct (decide (id = x)); [by left|by right].
Qed.

Lemma wf_alter_job s id f :
  (forall j, job_ok id j -> job_ok id (f j) /\ Job.options (f j) = Job.options j) ->
  well_formed s -> well_formed (set_jobs (alter f id) s).
Proof.
  intros Hf Hwf. destruct (jobs s !! id) as [j|] eqn:Hj.
  - assert (alter f id (jobs s) = <[id := f j]> (jobs s)) as Heq.
    { apply map_eq. intros x. destruct (decide (id = x)) as [->|Hne].
      - by rewrite lookup_alter_eq, lookup_insert_eq, Hj.
      - by rewrite lookup_alter_ne, lookup_insert_ne. }
    assert (job_ok id j) as Hok by (destruct Hwf as [HJ _]; by apply (HJ id j)).
    destruct (Hf j Hok) as [Hok' Ho].
    pose proof (wf_update_job s id j (f j) Hj Ho Hok' Hwf) as H.
    unfold set_jobs in *. by rewrite Heq.
  - assert (alter f id (jobs s) = jobs s) as Heq.
    { apply map_eq. intros x. destruct (decide (id = x)) as [->|Hne].
      - by rewrite lookup_alter_eq, Hj.
      - by rewrite lookup_alter_ne. }
    unfold set_jobs. rewrite Heq. by destruct s.
Qed.

(** What the methods of class Job keep. *)
Lemma Job_run_ok id job r :
  job_ok id job ->
  job_ok id (Job.run job r).1.1 /\ Job.options (Job.run job r).1.1 = Job.options job.
Proof.
  intros Hok. pose proof Hok as (Hid & Ha & Hp & Hh & He). unfold Job.run.
  destruct (Job.state job) eqn:Hst; simpl; try done.
  specialize (Hp eq_refl).
  assert (Job.error job = VNull) as Herr by (by apply He).
  destruct (Hope.cancellable _ _) as [hope r1]. simpl.
  destruct (Nat.ltb _ _); [destruct (Hope.timeout _ _ _ _)|]; simpl;
    (split; [|done]); repeat split; simpl; try done; lia.
Qed.

Lemma Job_cancel_ok id job r :
  job_ok id job ->
  job_ok id (Job.cancel job r).1.1 /\ Job.options (Job.cancel job r).1.1 = Job.options job.
Proof.
  intros Hok. pose proof Hok as (Hid & Ha & Hp & Hh & He). unfold Job.cancel.
  destruct (Job.state job) eqn:Hst; simpl;
    try destruct (Job._cancel job); simpl; try done;
    (split; [|done]); repeat split; simpl; try done; intros; by apply He.
Qed.

Lemma wf_run_job_object id w :
  well_formed (sched w) -> well_formed (sched (Scheduler.run_job_object id w).1).
Proof.
  intros Hwf. unfold Scheduler.run_job_object.
  destruct (jobs (sched w) !! id) as [job|] eqn:Hjob; [|done].
  assert (job_ok id job) as Hok by (destruct Hwf as [HJ _]; by apply (HJ id job)).
  destruct (Job_run_ok id job (rt w) Hok) as [Hok' Ho].
  destruct (Job.run job (rt w)) as [[job' r'] p]. simpl in *.
  by apply (wf_update_job _ _ job).
Qed.

Lemma wf_cancel_job_object id w :
  well_formed (sched w) -> well_formed (sched (Scheduler.cancel_job_object id w).1).
Proof.
  intros Hwf. unfold Scheduler.cancel_job_object.
  destruct (jobs (sched w) !! id) as [job|] eqn:Hjob; [|done].
  assert (job_ok id job) as Hok by (destruct Hwf as [HJ _]; by apply (HJ id job)).
  destruct (Job_cancel_ok id job (rt w) Hok) as [Hok' Ho].
  destruct (Job.cancel job (rt w)) as [[job' r'] b]. simpl in *.
  by apply (wf_update_job _ _ job).
Qed.

Lemma wf__runJob id w :
  well_formed (sched w) -> well_formed (sched (Scheduler._runJob id w)).
Proof.
  intros Hwf. unfold Scheduler._runJob.
  pose proof (wf_run_job_object id w Hwf) as H.
  by destruct (Scheduler.run_job_object id w) as [w' [p|]].
Qed.

Lemma wf__checkIdle w :
  well_formed (sched w) -> well_formed (sched (Scheduler._checkIdle w)).
Proof.
  intros Hwf. unfold Scheduler._checkIdle.
  destruct (Scheduler.is_idle _); [|done]. by destruct (_idleResolve _).
Qed.

Lemma wf__processQueue_loop fuel : forall w,
  well_formed (sched w) -> well_formed (sched (Scheduler._processQueue_loop fuel w)).
Proof.
  induction fuel as [|fuel IH]; intros w Hwf; simpl; [done|].
  destruct (Nat.ltb _ _); [|done].
  destruct (pendingJobs (sched w)) as [|id rest] eqn:Hq; [done|].
  apply IH, wf__runJob. simpl. apply wf_set_runningJobs.
  apply wf_set_pendingJobs; [|done].
  destruct Hwf as (_ & HQ & _). rewrite Hq in HQ.
  by apply StronglySorted_inv in HQ as [? _].
Qed.

Lemma wf__processQueue w :
  well_formed (sched w) -> well_formed (sched (Scheduler._processQueue w)).
Proof.
  intros Hwf. unfold Scheduler._processQueue.
  destruct (negb _); [done|].
  pose proof (wf__processQueue_loop (length (pendingJobs (sched w))) w Hwf) as H.
  destruct (Scheduler.is_idle _); [by apply wf__checkIdle|done].
Qed.

Lemma wf__jobCompleted jobId result w :
  well_formed (sched w) -> well_formed (sched (Scheduler._jobCompleted jobId result w)).
Proof.
  intros Hwf. unfold Scheduler._jobCompleted. apply wf__processQueue. simpl.
  destruct (jobs (sched w) !! jobId) as [job|] eqn:Hjob; [|done].
  assert (job_ok jobId job) as (Hid & Ha & Hp & Hh & He)
    by (destruct Hwf as [HJ _]; by apply (HJ jobId job)).
  set (job' := Job.set_endTime _ _).
  assert (well_formed (set_jobs (insert jobId job') (sched w))) as (HJ & HQ & HL & HN & HM).
  { apply (wf_update_job _ _ job); [done|done| |done]. by repeat split. }
  split; [exact HJ|split; [exact HQ|split; [|split; [exact HN|exact HM]]]].
  simpl in *. rewrite length_app. simpl. lia.
Qed.

Lemma wf__jobFailed jobId error w :
  well_formed (sched w) -> well_formed (sched (Scheduler._jobFailed jobId error w)).
Proof.
  intros Hwf. unfold Scheduler._jobFailed.
  destruct (jobs (sched w) !! jobId) as [job|] eqn:Hjob; [|done].
  assert (job_ok jobId job) as (Hid & Ha & Hp & Hh & He)
    by (destruct Hwf as [HJ _]; by apply (HJ jobId job)).
  destruct (Nat.leb _ _ && _) eqn:Hretry.
  - apply andb_true_iff in Hretry as [Hle%Nat.leb_le _]. simpl.
    apply (wf_update_job _ _ job); [done|done| |done]. by repeat split.
  - apply wf__processQueue. simpl.
    set (job' := Job.set_endTime _ _).
    assert (well_formed (set_jobs (insert jobId job') (sched w)))
      as (HJ & HQ & HL & HN & HM).
    { apply (wf_update_job _ _ job); [done|done| |done]. by repeat split. }
    split; [exact HJ|split; [exact HQ|split; [|split; [exact HN|exact HM]]]].
    simpl in *. rewrite length_app. simpl. lia.
Qed.

Lemma wf_retry jobId w :
  well_formed (sched w) -> well_formed (sched (Scheduler.retry jobId w)).
Proof.
  intros Hwf. unfold Scheduler.retry. apply wf__processQueue.
  by apply wf_push_sort.
Qed.

Lemma wf_add_core taskFn o s :
  well_formed s ->
  let id := "job-" +:+ pretty (_nextJobId s) in
  well_formed
    (Scheduler.sort_pending
       (set_stats Stats.incr_totalJobs
          (set_pendingJobs (fun l => l ++ [id])
             (set_jobs (insert id (Job.new id taskFn o))
                (set_nextJobId (S (_nextJobId s)) s))))).
Proof.
  intros (HJ & HQ & HL & HN & HM) id.
  split; [|split; [|split; [exact HL|split]]].
  - apply map_Forall_insert_2; [|exact HJ]. repeat split; simpl; lia.
  - apply sort_by_priority_sorted.
  - simpl. by rewrite HN.
  - intros x. simpl. rewrite lookup_insert_is_Some. split.
    + intros [<-|[_ Hx]].
      * exists (_nextJobId s). split; [lia|done].
      * apply HM in Hx as (k & Hk & ->). exists k. split; [lia|done].
    + intros (k & Hk & ->). destruct (decide (k = _nextJobId s)) as [->|Hne].
      * by left.
      * destruct (decide (id = "job-" +:+ pretty k)); [by left|right].
        split; [done|]. apply HM. exists k. split; [lia|done].
Qed.

Lemma wf_add taskFn o w :
  well_formed (sched w) -> well_formed (sched (Scheduler.add taskFn o w).1).
Proof.
  intros Hwf. unfold Scheduler.add. destruct (reaches _ _); [done|].
  pose proof (wf_add_core taskFn o (sched w) Hwf) as H. simpl in *.
  destruct (_isRunning (sched w)); [|done]. by apply wf__processQueue.
Qed.

Lemma wf_start w : well_formed (sched w) -> well_formed (sched (Scheduler.start w)).
Proof.
  intros Hwf. unfold Scheduler.start. destruct (_isRunning _); [done|].
  by apply wf__processQueue.
Qed.

Lemma wf_cancel_objects ids : forall w,
  well_formed (sched w) ->
  well_formed (sched (foldl (fun w id => (Scheduler.cancel_job_object id w).1) w ids)).
Proof.
  induction ids as [|id ids IH]; intros w Hwf; simpl; [done|].
  by apply IH, wf_cancel_job_object.
Qed.

Lemma wf_clear_pending s : well_formed s -> well_formed (set_pendingJobs (fun _ => []) s).
Proof. apply wf_set_pendingJobs. constructor. Qed.

Lemma wf_stop w : well_formed (sched w) -> well_formed (sched (Scheduler.stop w)).
Proof.
  intros Hwf. unfold Scheduler.stop.
  apply wf_cancel_objects. simpl. apply wf_clear_pending.
  by apply wf_cancel_objects.
Qed.

Lemma wf_onIdle w : well_formed (sched w) -> well_formed (sched (Scheduler.onIdle w).1).
Proof.
  intros Hwf. unfold Scheduler.onIdle. destruct (_idleHope _); [done|].
  by destruct (Hope.new _ _).
Qed.

Lemma wf_cancelJob jobId w :
  well_formed (sched w) -> well_formed (sched (Scheduler.cancelJob jobId w).1).
Proof.
  intros Hwf. unfold Scheduler.cancelJob.
  destruct (jobs (sched w) !! jobId); [|done].
  pose proof (wf_cancel_job_object jobId w Hwf) as H.
  destruct (Scheduler.cancel_job_object jobId w) as [w1 [|]]; [|done].
  simpl. apply wf__checkIdle. simpl.
  apply wf_set_pendingJobs; [|done].
  apply remove_first_sorted. by destruct H as (_ & HQ & _).
Qed.

Lemma wf_cancelAll_step acc id :
  well_formed (sched acc.1) -> well_formed (sched (Scheduler.cancelAll_step acc id).1).
Proof.
  intros Hwf. destruct acc as [w ids]. unfold Scheduler.cancelAll_step.
  pose proof (wf_cancel_job_object id w Hwf) as H.
  by destruct (Scheduler.cancel_job_object id w) as [w1 [|]].
Qed.

Lemma wf_cancelAll_steps ids : forall acc,
  well_formed (sched acc.1) ->
  well_formed (sched (foldl Scheduler.cancelAll_step acc ids).1).
Proof.
  induction ids as [|id ids IH]; intros acc Hwf; simpl; [done|].
  by apply IH, wf_cancelAll_step.
Qed.

Lemma wf_cancelAll w :
  well_formed (sched w) -> well_formed (sched (Scheduler.cancelAll w).1).
Proof.
  intros Hwf. unfold Scheduler.cancelAll. simpl.
  apply wf__checkIdle. simpl. apply wf_set_runningJobs.
  apply wf_cancelAll_steps. simpl. apply wf_clear_pending.
  by apply wf_cancelAll_steps.
Qed.

Lemma wf_apply_fn f : forall arg w,
  well_formed (sched w) -> well_formed (sched (apply_fn f arg w).1).
Proof.
  induction f; intros arg w Hwf; simpl; try done.
  - destruct (any_cells (rt w) !! cell) as [c|]; [|done].
    by destruct (match cell_length c with 0 => _ | S _ => _ end).
  - by destruct (called_flags _ !! _) as [[|]|].
  - by destruct (called_flags _ !! _) as [[|]|].
  - apply wf_alter_job; [|done]. intros j (Hid & Ha & Hp & Hh & He). by repeat split.
  - apply wf_alter_job; [|done]. intros j (Hid & Ha & Hp & Hh & He). by repeat split.
  - by apply wf__jobCompleted.
  - by apply wf__jobFailed.
  - by apply wf_retry.
  - by apply IHf.
Qed.

Lemma wf_scheduleTask k w :
  well_formed (sched w) -> well_formed (sched (scheduleTask k w)).
Proof.
  intros Hwf. unfold scheduleTask.
  destruct (heap (rt w) !! k_source k) as [this|]; [|done].
  destruct (if hope_state_eqb _ _ then _ else _) as [handler|].
  - pose proof (wf_apply_fn handler
      (if hope_state_eqb (_state this) FULFILLED then _value this else _reason this)
      w Hwf) as H.
    destruct (apply_fn _ _ w) as [w1 [result|error]]; done.
  - by destruct (hope_state_eqb _ _).
Qed.

Lemma wf_turn w w' :
  turn w = Some w' -> well_formed (sched w) -> well_formed (sched w').
Proof.
  unfold turn. intros Ht Hwf. destruct (microtasks (rt w)) as [|k rest].
  - destruct (next_due _) as [t|]; [|done]. injection Ht as <-.
    by apply wf_apply_fn.
  - injection Ht as <-. by apply wf_scheduleTask.
Qed.

Lemma wf_step w w' : step w w' -> well_formed (sched w) -> well_formed (sched w').
Proof.
  intros Hstep Hwf. destruct Hstep.
  - by apply wf_add.
  - by apply wf_start.
  - by apply wf_stop.
  - by apply wf_onIdle.
  - by apply wf_cancelJob.
  - by apply wf_cancelAll.
  - by eapply wf_turn.
  - done.
Qed.

Lemma wf_new o r : well_formed (sched (Scheduler.new o r)).
Proof.
  unfold Scheduler.new.
  set (w := World r _).
  assert (well_formed (sched w)) as Hwf.
  { split; [|split; [|split; [|split]]]; simpl.
    - apply map_Forall_empty.
    - constructor.
    - done.
    - done.
    - intros x. simpl. rewrite lookup_empty. split.
      + by intros [? ?].
      + intros (k & Hk & _). lia. }
  destruct (autoStart _); [by apply wf_start|done].
Qed.

Lemma wf_reachable o r w : reachable o r w -> well_formed (sched w).
Proof.
  unfold reachable. revert w. apply (rtc_ind_r (fun w => well_formed (sched w))).
  - apply wf_new.
  - intros w1 w2 _ Hstep Hwf. by apply (wf_step w1).
Qed.

End WellFormed.

(** ** What starting and cancelling jobs leaves alone *)

Section Books.

Lemma same_books_refl s : same_books s s.
Proof. done. Qed.

Lemma same_books_trans s1 s2 s3 :
  same_books s1 s2 -> same_books s2 s3 -> same_books s1 s3.
Proof.
  intros (H1 & H2 & H3 & H4 & H5) (G1 & G2 & G3 & G4 & G5).
  repeat split; congruence.
Qed.

Lemma books_run_job_object id w :
  same_books (sched w) (sched (Scheduler.run_job_object id w).1).
Proof.
  unfold Scheduler.run_job_object. destruct (jobs _ !! _); [|done].
  by destruct (Job.run _ _) as [[job' r'] p].
Qed.

Lemma books_cancel_job_object id w :
  same_books (sched w) (sched (Scheduler.cancel_job_object id w).1).
Proof.
  unfold Scheduler.cancel_job_object. destruct (jobs _ !! _); [|done].
  by destruct (Job.cancel _ _) as [[job' r'] b].
Qed.

Lemma books_cancel_objects ids : forall w,
  same_books (sched w)
    (sched (foldl (fun w id => (Scheduler.cancel_job_object id w).1) w ids)).
Proof.
  induction ids as [|id ids IH]; intros w; simpl; [done|].
  eapply same_books_trans; [apply books_cancel_job_object|apply IH].
Qed.

Lemma books__runJob id w : same_books (sched w) (sched (Scheduler._runJob id w)).
Proof.
  unfold Scheduler._runJob. pose proof (books_run_job_object id w) as H.
  by destruct (Scheduler.run_job_object id w) as [w' [p|]].
Qed.

Lemma books__checkIdle w : same_books (sched w) (sched (Scheduler._checkIdle w)).
Proof.
  unfold Scheduler._checkIdle. destruct (Scheduler.is_idle _); [|done].
  by destruct (_idleResolve _).
Qed.

Lemma books__processQueue_loop fuel : forall w,
  same_books (sched w) (sched (Scheduler._processQueue_loop fuel w)).
Proof.
  induction fuel as [|fuel IH]; intros w; simpl; [done|].
  destruct (Nat.ltb _ _); [|done].
  destruct (pendingJobs (sched w)) as [|id rest]; [done|].
  eapply same_books_trans; [|apply IH].
  eapply same_books_trans; [|apply books__runJob]. done.
Qed.

Lemma books__processQueue w : same_books (sched w) (sched (Scheduler._processQueue w)).
Proof.
  unfold Scheduler._processQueue. destruct (negb _); [done|].
  pose proof (books__processQueue_loop (length (pendingJobs (sched w))) w) as H.
  destruct (Scheduler.is_idle _); [|done].
  eapply same_books_trans; [exact H|apply books__checkIdle].
Qed.

End Books.

Section Invariants.

Lemma job_id_inj (a b : nat) : "job-" +:+ pretty a = "job-" +:+ pretty b -> a = b.
Proof. simpl. intros H. injection H as H. by apply (inj pretty). Qed.

Lemma StronglySorted_lookup {A} (R : A -> A -> Prop) l i j a b :
  StronglySorted R l -> i < j -> l !! i = Some a -> l !! j = Some b -> R a b.
Proof.
  intros Hl. revert i j. induction Hl as [|x l Hl IH Hx]; intros i j Hij Hi Hj; [done|].
  destruct j as [|j]; [lia|]. destruct i as [|i]; simpl in *.
  - injection Hi as <-. eapply Forall_forall; [exact Hx|]. by eapply list_elem_of_lookup_2.
  - apply (IH i j); [lia|done|done].
Qed.

Lemma reachable_run o r n : forall w, reachable o r w -> reachable o r (run n w).
Proof.
  induction n as [|n IH]; intros w H; simpl; [done|].
  destruct (turn w) as [w'|] eqn:Ht; [|done].
  apply IH. eapply rtc_r; [exact H|by apply step_turn].
Qed.

(** X14.  In every state a scheduler can reach, the history [completedJobs]
    holds one entry for each job counted as completed or failed: the number
    [completed] that [getStatus] reports is the sum of [stats.completedJobs]
    and [stats.failedJobs]. *)
Theorem history_matches_counters o r w :
  reachable o r w ->
  SchedulerMore.completed (SchedulerMore.getStatus w)
  = Stats.completedJobs (SchedulerMore.stats_copy (SchedulerMore.getStatus w))
    + Stats.failedJobs (SchedulerMore.stats_copy (SchedulerMore.getStatus w)).
Proof. intros H. by destruct (wf_reachable o r w H) as (_ & _ & HL & _). Qed.

Lemma history_matches_counters_witness :
  let w := run 100 (Scheduler.add (labelled_task "A") Job.no_options
                      (Scheduler.new default_options empty_runtime)).1 in
  SchedulerMore.completed (SchedulerMore.getStatus w) = 1
  /\ SchedulerMore.completed (SchedulerMore.getStatus w)
     = Stats.completedJobs (SchedulerMore.stats_copy (SchedulerMore.getStatus w))
       + Stats.failedJobs (SchedulerMore.stats_copy (SchedulerMore.getStatus w)).
Proof.
  intros w.
  assert (reachable default_options empty_runtime w) as H.
  { apply reachable_run. eapply rtc_l; [apply step_add|]. apply rtc_refl. }
  split; [reflexivity|].
  exact (history_matches_counters default_options empty_runtime w H).
Defined.

(** X15.  In every state a scheduler can reach, the ids in the jobs map are
    exactly job-1, ..., job-n for n = [stats.totalJobs]; the next id to be
    minted is n + 1, and every job is filed under its own id.  So no job is
    ever dropped from the map and no id is used twice. *)
Theorem job_ids_are_sequential o r w :
  reachable o r w ->
  _nextJobId (sched w) = S (Stats.totalJobs (stats (sched w)))
  /\ (forall id,
        is_Some (Scheduler.getJob id w)
        <-> exists k, 1 <= k <= Stats.totalJobs (stats (sched w))
                      /\ id = "job-" +:+ pretty k)
  /\ (forall id j, Scheduler.getJob id w = Some j -> Job.id j = id).
Proof.
  intros H. destruct (wf_reachable o r w H) as (HJ & _ & _ & HN & HM).
  split; [done|]. split.
  - intros id. unfold Scheduler.getJob. rewrite (HM id). rewrite <- HN.
    split; intros (k & Hk & ->); exists k; (split; [lia|done]).
  - intros id j Hj. by destruct (HJ id j Hj).
Qed.

Lemma job_ids_are_sequential_witness :
  let w := (Scheduler.add hanging_task Job.no_options
              (Scheduler.add hanging_task Job.no_options
                 (Scheduler.new default_options empty_runtime)).1).1 in
  _nextJobId (sched w) = 3
  /\ (is_Some (Scheduler.getJob "job-3" w) <-> exists k, 1 <= k <= 2 /\ "job-3" = "job-" +:+ pretty k).
Proof.
  intros w.
  assert (reachable default_options empty_runtime w) as H.
  { eapply rtc_l; [apply step_add|]. eapply rtc_l; [apply step_add|]. apply rtc_refl. }
  destruct (job_ids_are_sequential default_options empty_runtime w H) as (H1 & H2 & _).
  split; [exact H1 | exact (H2 "job-3")].
Defined.

(** X16.  A job is never attempted more often than its [retries] allow: in
    every state a scheduler can reach, each job has been started at most
    [retries] + 1 times, and a job whose state is 'pending' has an attempt
    left. *)
Theorem attempts_within_retries o r w id j :
  reachable o r w -> Scheduler.getJob id w = Some j ->
  Job.attempts j <= S (Job.retries (Job.options j))
  /\ (Job.state j = Job.pending -> Job.attempts j <= Job.retries (Job.options j)).
Proof.
  intros H Hj. destruct (wf_reachable o r w H) as (HJ & _).
  by destruct (HJ id j Hj) as (_ & ? & ? & _ & _).
Qed.

Lemma attempts_within_retries_witness :
  let w := (Scheduler.add flaky_task (Job.OptionsArg None (Some 2) (Some 0) None)
              (Scheduler.new default_options empty_runtime)).1 in
  exists j, Scheduler.getJob "job-1" w = Some j
    /\ Job.attempts j <= S (Job.retries (Job.options j)).
Proof.
  intros w.
  assert (reachable default_options empty_runtime w) as H.
  { eapply rtc_l; [apply step_add|]. apply rtc_refl. }
  destruct (Scheduler.getJob "job-1" w) as [j|] eqn:Hj; [|discriminate Hj].
  exists j. split; [reflexivity|].
  exact (proj1 (attempts_within_retries default_options empty_runtime w "job-1" j H Hj)).
Defined.

(** X17.  The pending queue is kept in priority order: in every state a
    scheduler can reach, a job that stands before another in [pendingJobs]
    has a priority at least as high. *)
Theorem pending_queue_is_sorted o r w i j a b :
  reachable o r w -> i < j ->
  pendingJobs (sched w) !! i = Some a -> pendingJobs (sched w) !! j = Some b ->
  (Scheduler.job_priority (sched w) b <= Scheduler.job_priority (sched w) a)%Z.
Proof.
  intros H Hij Ha Hb. destruct (wf_reachable o r w H) as (_ & HQ & _).
  exact (StronglySorted_lookup _ _ i j a b HQ Hij Ha Hb).
Qed.

Lemma pending_queue_is_sorted_witness :
  let o := SchedulerOptionsArg (Some 1) None (Some false) in
  let w := add_ABCD (Scheduler.new o empty_runtime) in
  pendingJobs (sched w) = ["job-4"; "job-2"; "job-3"; "job-1"]
  /\ (Scheduler.job_priority (sched w) "job-2"
      <= Scheduler.job_priority (sched w) "job-4")%Z.
Proof.
  intros o w.
  assert (reachable o empty_runtime w) as H.
  { unfold w, add_ABCD. eapply rtc_l; [apply step_add|]. eapply rtc_l; [apply step_add|].
    eapply rtc_l; [apply step_add|]. eapply rtc_l; [apply step_add|]. apply rtc_refl. }
  split; [reflexivity|].
  exact (pending_queue_is_sorted o empty_runtime w 0 1 "job-4" "job-2" H
           (Nat.lt_0_1) eq_refl eq_refl).
Defined.

(** X18.  [add] on a queue that is not full mints an id that no job has: in
    every state a scheduler can reach, it returns job-(n+1) for
    n = [stats.totalJobs], no job was filed under this id before, one is
    afterwards, and every job that was in the map still is. *)
Theorem add_mints_a_fresh_id o r w taskFn opts :
  reachable o r w ->
  reaches (length (pendingJobs (sched w))) (maxQueueSize (options (sched w))) = false ->
  let id := "job-" +:+ pretty (S (Stats.totalJobs (stats (sched w)))) in
  let w' := (Scheduler.add taskFn opts w).1 in
  (Scheduler.add taskFn opts w).2 = Return (VStr id)
  /\ Scheduler.getJob id w = None
  /\ is_Some (Scheduler.getJob id w')
  /\ Stats.totalJobs (stats (sched w')) = S (Stats.totalJobs (stats (sched w)))
  /\ forall id', is_Some (Scheduler.getJob id' w) -> is_Some (Scheduler.getJob id' w').
Proof.
  intros H Hroom id w'.
  assert (reachable o r w') as H' by (eapply rtc_r; [exact H|apply step_add]).
  destruct (wf_reachable o r w H) as (_ & _ & _ & HN & HM).
  destruct (wf_reachable o r w' H') as (_ & _ & _ & HN' & HM').
  assert (_nextJobId (sched w') = S (_nextJobId (sched w))) as Hnext.
  { unfold w', Scheduler.add. rewrite Hroom. simpl.
    destruct (_isRunning (sched w)); [|done].
    match goal with |- context [Scheduler._processQueue ?w0] =>
      by destruct (books__processQueue w0) as (_ & -> & _) end. }
  split; [|split; [|split; [|split]]].
  - unfold Scheduler.add. rewrite Hroom. unfold id. by rewrite HN.
  - unfold Scheduler.getJob. apply eq_None_not_Some. intros (k & Hk & Heq)%HM.
    apply job_id_inj in Heq. lia.
  - apply HM'. exists (S (Stats.totalJobs (stats (sched w)))). split; [lia|done].
  - lia.
  - intros id' (k & Hk & ->)%HM. apply HM'. exists k. split; [lia|done].
Qed.

Lemma add_mints_a_fresh_id_witness :
  let w := (Scheduler.add hanging_task Job.no_options
              (Scheduler.new default_options empty_runtime)).1 in
  (Scheduler.add hanging_task Job.no_options w).2 = Return (VStr "job-2")
  /\ Scheduler.getJob "job-2" w = None
  /\ is_Some (Scheduler.getJob "job-2" (Scheduler.add hanging_task Job.no_options w).1).
Proof.
  intros w.
  assert (reachable default_options empty_runtime w) as H.
  { eapply rtc_l; [apply step_add|]. apply rtc_refl. }
  destruct (add_mints_a_fresh_id default_options empty_runtime w hanging_task
              Job.no_options H eq_refl) as (H1 & H2 & H3 & _).
  split; [exact H1|]. split; [exact H2 | exact H3].
Defined.

End Invariants.

(** ** The interface of the scheduler *)

Section Interface.

Lemma _checkIdle_queue w :
  pendingJobs (sched (Scheduler._checkIdle w)) = pendingJobs (sched w)
  /\ runningJobs (sched (Scheduler._checkIdle w)) = runningJobs (sched w)
  /\ options (sched (Scheduler._checkIdle w)) = options (sched w).
Proof.
  unfold Scheduler._checkIdle. destruct (Scheduler.is_idle _); [|done].
  by destruct (_idleResolve _).
Qed.

Lemma _processQueue_saturates w :
  _isRunning (sched w) = true -> saturated (sched (Scheduler._processQueue w)).
Proof.
  intros Hrun. unfold Scheduler._processQueue. rewrite Hrun. simpl.
  pose proof (_processQueue_loop_exits (length (pendingJobs (sched w))) w (le_n _)) as H.
  simpl in H. set (w1 := Scheduler._processQueue_loop _ w) in *.
  assert (saturated (sched w1)) as Hs.
  { destruct H as [H|H]; [left; by apply Nat.ltb_ge in H|by right]. }
  destruct (Scheduler.is_idle _); [|done].
  destruct (_checkIdle_queue w1) as (Hq & Hr & Ho).
  unfold saturated. by rewrite Hq, Hr, Ho.
Qed.

(** X19.  The pump fills the free slots.  When [_processQueue] returns on a
    running scheduler, the running set has reached the concurrency or no
    job is pending; so it is after [start] on a stopped scheduler, which
    also sets the running flag, and after [add] on a running scheduler
    whose queue is not full.  A second [start] changes nothing. *)
Theorem pump_fills_free_slots w :
  (_isRunning (sched w) = true -> saturated (sched (Scheduler._processQueue w)))
  /\ (_isRunning (sched w) = false ->
      saturated (sched (Scheduler.start w))
      /\ _isRunning (sched (Scheduler.start w)) = true)
  /\ (forall taskFn o,
        _isRunning (sched w) = true ->
        reaches (length (pendingJobs (sched w))) (maxQueueSize (options (sched w))) = false ->
        saturated (sched (Scheduler.add taskFn o w).1))
  /\ Scheduler.start (Scheduler.start w) = Scheduler.start w.
Proof.
  split; [apply _processQueue_saturates|]. split; [|split].
  - intros Hrun. unfold Scheduler.start. rewrite Hrun. split.
    + by apply _processQueue_saturates.
    + by destruct (books__processQueue (on_sched (set_isRunning true) w)) as (_ & _ & -> & _).
  - intros taskFn o Hrun Hroom. unfold Scheduler.add. rewrite Hroom. simpl.
    rewrite Hrun. by apply _processQueue_saturates.
  - unfold Scheduler.start at 2 3. destruct (_isRunning (sched w)) eqn:Hrun.
    + unfold Scheduler.start. by rewrite Hrun.
    + unfold Scheduler.start.
      by destruct (books__processQueue (on_sched (set_isRunning true) w)) as (_ & _ & -> & _).
Qed.

Lemma pump_fills_free_slots_witness :
  let w := add_ABCD (Scheduler.new (SchedulerOptionsArg (Some 2) None (Some false))
                                   empty_runtime) in
  saturated (sched (Scheduler.start w))
  /\ length (runningJobs (sched (Scheduler.start w))) = 2
  /\ pendingJobs (sched (Scheduler.start w)) = ["job-3"; "job-1"].
Proof.
  intros w.
  destruct (pump_fills_free_slots w) as (_ & H & _).
  split; [exact (proj1 (H eq_refl))|]. by vm_compute.
Defined.

Lemma cancel_job_object_queues id w :
  pendingJobs (sched (Scheduler.cancel_job_object id w).1) = pendingJobs (sched w)
  /\ runningJobs (sched (Scheduler.cancel_job_object id w).1) = runningJobs (sched w).
Proof.
  unfold Scheduler.cancel_job_object. destruct (jobs _ !! _); [|done].
  by destruct (Job.cancel _ _) as [[job' r'] b].
Qed.

Lemma cancel_objects_queues ids : forall w,
  let w' := foldl (fun w id => (Scheduler.cancel_job_object id w).1) w ids in
  pendingJobs (sched w') = pendingJobs (sched w)
  /\ runningJobs (sched w') = runningJobs (sched w).
Proof.
  induction ids as [|id ids IH]; intros w; simpl; [done|].
  destruct (IH (Scheduler.cancel_job_object id w).1) as [-> ->].
  apply cancel_job_object_queues.
Qed.

Lemma Job_cancel_state job r :
  (cancelable job \/ Job.state job = Job.canceled ->
   Job.state (Job.cancel job r).1.1 = Job.canceled)
  /\ (cancelable job <-> (Job.cancel job r).2 = true).
Proof.
  unfold Job.cancel, cancelable.
  destruct (Job.state job) eqn:Hst; destruct (Job._cancel job) eqn:Hc; simpl;
    (split; [intros [[?|[? [? ?]]]|?]; done|]);
    (split; [intros [?|[? [? ?]]]; done|]); try done; intros _; eauto.
Qed.

Lemma doomed_cancel_job_object id id' w :
  doomed id w ->
  doomed id (Scheduler.cancel_job_object id' w).1
  /\ (id' = id ->
      Job.state <$> jobs (sched (Scheduler.cancel_job_object id' w).1) !! id
      = Some Job.canceled).
Proof.
  intros (j & Hj & Hst). unfold Scheduler.cancel_job_object.
  destruct (decide (id' = id)) as [->|Hne].
  - rewrite Hj. destruct (Job_cancel_state j (rt w)) as [Hc _].
    specialize (Hc Hst).
    destruct (Job.cancel j (rt w)) as [[j' r'] b]. simpl in *.
    split.
    + exists j'. simpl. rewrite lookup_insert_eq. split; [done|by right].
    + intros _. rewrite lookup_insert_eq. simpl. by rewrite Hc.
  - split; [|done]. destruct (jobs (sched w) !! id') as [j0|]; [|by exists j].
    destruct (Job.cancel j0 (rt w)) as [[j' r'] b]. simpl.
    exists j. simpl. by rewrite lookup_insert_ne.
Qed.

Lemma canceled_cancel_job_object id id' w :
  Job.state <$> jobs (sched w) !! id = Some Job.canceled ->
  Job.state <$> jobs (sched (Scheduler.cancel_job_object id' w).1) !! id
  = Some Job.canceled.
Proof.
  intros Hc. destruct (jobs (sched w) !! id) as [j|] eqn:Hj; [|done].
  simpl in Hc. injection Hc as Hc.
  assert (doomed id w) as Hd by (exists j; split; [done|by right]).
  destruct (decide (id' = id)) as [->|Hne].
  - by apply (doomed_cancel_job_object id id w Hd).
  - unfold Scheduler.cancel_job_object.
    destruct (jobs (sched w) !! id') as [j0|].
    + destruct (Job.cancel j0 (rt w)) as [[j' r'] b]. simpl.
      rewrite lookup_insert_ne by done. rewrite Hj. simpl. by rewrite Hc.
    + simpl. rewrite Hj. simpl. by rewrite Hc.
Qed.

Lemma canceled_cancel_objects id ids : forall w,
  Job.state <$> jobs (sched w) !! id = Some Job.canceled ->
  Job.state <$> jobs (sched (foldl (fun w id => (Scheduler.cancel_job_object id w).1)
                               w ids)) !! id
  = Some Job.canceled.
Proof.
  induction ids as [|id' ids IH]; intros w Hc; simpl; [done|].
  by apply IH, canceled_cancel_job_object.
Qed.

Lemma doomed_cancel_objects id ids : forall w,
  doomed id w ->
  let w' := foldl (fun w id => (Scheduler.cancel_job_object id w).1) w ids in
  doomed id w'
  /\ (id ∈ ids -> Job.state <$> jobs (sched w') !! id = Some Job.canceled).
Proof.
  induction ids as [|id' ids IH]; intros w Hd; simpl.
  - split; [done|]. by intros ?%elem_of_nil.
  - destruct (doomed_cancel_job_object id id' w Hd) as [Hd' Heq].
    destruct (IH _ Hd') as [Hd'' Hin]. split; [done|].
    intros [->|?]%elem_of_cons; [|by apply Hin].
    by apply canceled_cancel_objects, Heq.
Qed.

(** X20.  [stop] cancels what is queued or running and counts none of it.
    Afterwards the scheduler is not running and nothing is pending; every
    job that was in the queue or in the running set, and was pending or
    running with its cancel function, is in state 'canceled'; but the
    counters, [stats.canceledJobs] among them, the history and the running
    set are as they were. *)
Theorem stop_cancels_without_counting w :
  let w' := Scheduler.stop w in
  _isRunning (sched w') = false
  /\ pendingJobs (sched w') = []
  /\ runningJobs (sched w') = runningJobs (sched w)
  /\ stats (sched w') = stats (sched w)
  /\ completedJobs (sched w') = completedJobs (sched w)
  /\ forall id j,
       id ∈ pendingJobs (sched w) ++ runningJobs (sched w) ->
       jobs (sched w) !! id = Some j -> cancelable j ->
       Job.state <$> jobs (sched w') !! id = Some Job.canceled.
Proof.
  intros w'. unfold w', Scheduler.stop.
  set (w0 := on_sched (set_isRunning false) w).
  set (w1 := foldl _ w0 (pendingJobs (sched w0))).
  set (w2 := on_sched (set_pendingJobs (fun _ => [])) w1).
  destruct (cancel_objects_queues (pendingJobs (sched w0)) w0) as [Hq1 Hr1].
  fold w1 in Hq1, Hr1.
  destruct (cancel_objects_queues (runningJobs (sched w2)) w2) as [Hq2 Hr2].
  destruct (books_cancel_objects (pendingJobs (sched w0)) w0) as (_ & _ & Hi1 & Hc1 & Hs1).
  fold w1 in Hi1, Hc1, Hs1.
  destruct (books_cancel_objects (runningJobs (sched w2)) w2) as (_ & _ & Hi2 & Hc2 & Hs2).
  split; [by rewrite Hi2; simpl; rewrite Hi1|].
  split; [by rewrite Hq2|].
  split; [by rewrite Hr2; simpl; rewrite Hr1|].
  split; [by rewrite Hs2; simpl; rewrite Hs1|].
  split; [by rewrite Hc2; simpl; rewrite Hc1|].
  intros id j Hin Hj Hcan.
  assert (doomed id w0) as Hd0 by (exists j; split; [done|by left]).
  destruct (doomed_cancel_objects id (pendingJobs (sched w0)) w0 Hd0) as [Hd1 Hin1].
  fold w1 in Hd1, Hin1.
  assert (doomed id w2) as Hd2 by done.
  destruct (doomed_cancel_objects id (runningJobs (sched w2)) w2 Hd2) as [_ Hin2].
  apply elem_of_app in Hin as [Hin|Hin].
  - apply canceled_cancel_objects. by apply Hin1.
  - apply Hin2. simpl. by rewrite Hr1.
Qed.

Lemma stop_cancels_without_counting_witness :
  let w := (Scheduler.add hanging_task Job.no_options
              (Scheduler.add hanging_task Job.no_options
                 (Scheduler.new default_options empty_runtime)).1).1 in
  Job.state <$> jobs (sched (Scheduler.stop w)) !! "job-1" = Some Job.canceled
  /\ Job.state <$> jobs (sched (Scheduler.stop w)) !! "job-2" = Some Job.canceled
  /\ Stats.canceledJobs (stats (sched (Scheduler.stop w))) = 0.
Proof.
  intros w.
  destruct (stop_cancels_without_counting w) as (_ & _ & _ & Hs & _ & H).
  split; [|split].
  - destruct (jobs (sched w) !! "job-1") as [j|] eqn:Hj; [|discriminate Hj].
    apply (H "job-1" j); [compute_done|exact Hj|].
    vm_compute in Hj. injection Hj as <-. right. split; [reflexivity|by eexists].
  - destruct (jobs (sched w) !! "job-2") as [j|] eqn:Hj; [|discriminate Hj].
    apply (H "job-2" j); [compute_done|exact Hj|].
    vm_compute in Hj. injection Hj as <-. by left.
  - by rewrite Hs.
Defined.

Lemma cancelAll_step_counts acc id :
  let acc' := Scheduler.cancelAll_step acc id in
  (exists new, acc'.2 = acc.2 ++ new
     /\ Stats.canceledJobs (stats (sched acc'.1))
        = Stats.canceledJobs (stats (sched acc.1)) + length new)
  /\ other_counters (stats (sched acc'.1)) = other_counters (stats (sched acc.1))
  /\ pendingJobs (sched acc'.1) = pendingJobs (sched acc.1)
  /\ runningJobs (sched acc'.1) = runningJobs (sched acc.1)
  /\ _isRunning (sched acc'.1) = _isRunning (sched acc.1)
  /\ completedJobs (sched acc'.1) = completedJobs (sched acc.1).
Proof.
  destruct acc as [w ids]. unfold Scheduler.cancelAll_step.
  destruct (cancel_job_object_queues id w) as [Hq Hr].
  destruct (books_cancel_job_object id w) as (_ & _ & Hi & Hc & Hs).
  destruct (Scheduler.cancel_job_object id w) as [w1 [|]]; simpl in *.
  - rewrite Hs. split; [|done]. exists [id]. split; [done|]. simpl. lia.
  - rewrite Hs. split; [|done]. exists []. rewrite app_nil_r. split; [done|]. simpl. lia.
Qed.

Lemma cancelAll_steps_counts l : forall acc,
  let acc' := foldl Scheduler.cancelAll_step acc l in
  (exists new, acc'.2 = acc.2 ++ new
     /\ Stats.canceledJobs (stats (sched acc'.1))
        = Stats.canceledJobs (stats (sched acc.1)) + length new)
  /\ other_counters (stats (sched acc'.1)) = other_counters (stats (sched acc.1))
  /\ pendingJobs (sched acc'.1) = pendingJobs (sched acc.1)
  /\ runningJobs (sched acc'.1) = runningJobs (sched acc.1)
  /\ _isRunning (sched acc'.1) = _isRunning (sched acc.1)
  /\ completedJobs (sched acc'.1) = completedJobs (sched acc.1).
Proof.
  induction l as [|id l IH]; intros acc; simpl.
  - split; [|done]. exists []. by rewrite app_nil_r, Nat.add_0_r.
  - destruct (cancelAll_step_counts acc id) as ((n1 & E1 & C1) & O1 & Q1 & R1 & I1 & H1).
    destruct (IH (Scheduler.cancelAll_step acc id))
      as ((n2 & E2 & C2) & O2 & Q2 & R2 & I2 & H2).
    split; [|by rewrite O2, Q2, R2, I2, H2].
    exists (n1 ++ n2). rewrite E2, E1, C2, C1, <- app_assoc, length_app.
    split; [done|lia].
Qed.

Lemma collected_cancelAll_step id acc id' :
  collected id acc ->
  collected id (Scheduler.cancelAll_step acc id')
  /\ (id' = id ->
      Job.state <$> jobs (sched (Scheduler.cancelAll_step acc id').1) !! id
      = Some Job.canceled
      /\ id ∈ (Scheduler.cancelAll_step acc id').2).
Proof.
  destruct acc as [w ids]. intros (j & Hj & Hst). simpl in Hj, Hst.
  unfold Scheduler.cancelAll_step, Scheduler.cancel_job_object.
  destruct (decide (id' = id)) as [->|Hne].
  - rewrite Hj. destruct (Job_cancel_state j (rt w)) as [Hc Hb].
    destruct (Job.cancel j (rt w)) as [[j' r'] b]. simpl in *.
    destruct Hst as [Hcan|[Hcd Hin]].
    + rewrite (proj1 Hb Hcan). specialize (Hc (or_introl Hcan)).
      assert (id ∈ ids ++ [id]) as Hin by (apply elem_of_app; right; left).
      split.
      * exists j'. simpl. rewrite lookup_insert_eq. split; [done|]. by right.
      * intros _. simpl. rewrite lookup_insert_eq. simpl. by rewrite Hc.
    + specialize (Hc (or_intror Hcd)).
      destruct b; simpl.
      * assert (id ∈ ids ++ [id]) as Hin' by (apply elem_of_app; right; left).
        split.
        -- exists j'. simpl. rewrite lookup_insert_eq. split; [done|]. by right.
        -- intros _. rewrite lookup_insert_eq. simpl. by rewrite Hc.
      * split.
        -- exists j'. simpl. rewrite lookup_insert_eq. split; [done|]. by right.
        -- intros _. rewrite lookup_insert_eq. simpl. by rewrite Hc.
  - split; [|done].
    destruct (jobs (sched w) !! id') as [j0|].
    + destruct (Job.cancel j0 (rt w)) as [[j' r'] b]. simpl.
      destruct b; simpl.
      * exists j. simpl. rewrite lookup_insert_ne by done. split; [done|].
        destruct Hst as [?|[? ?]]; [by left|right]. split; [done|].
        apply elem_of_app. by left.
      * exists j. simpl. by rewrite lookup_insert_ne.
    + by exists j.
Qed.

Lemma settled_cancelAll_step id acc id' :
  Job.state <$> jobs (sched acc.1) !! id = Some Job.canceled -> id ∈ acc.2 ->
  Job.state <$> jobs (sched (Scheduler.cancelAll_step acc id').1) !! id
  = Some Job.canceled
  /\ id ∈ (Scheduler.cancelAll_step acc id').2.
Proof.
  intros Hc Hin. destruct (jobs (sched acc.1) !! id) as [j|] eqn:Hj; [|done].
  simpl in Hc. injection Hc as Hc.
  assert (collected id acc) as Hcol by (exists j; split; [done|by right]).
  destruct (collected_cancelAll_step id acc id' Hcol) as [(j' & Hj' & Hst') Heq].
  destruct (decide (id' = id)) as [->|Hne]; [by apply Heq|].
  destruct acc as [w ids]. unfold Scheduler.cancelAll_step, Scheduler.cancel_job_object.
  simpl in *.
  destruct (jobs (sched w) !! id') as [j0|].
  - destruct (Job.cancel j0 (rt w)) as [[j1 r1] b]. simpl.
    destruct b; simpl; rewrite lookup_insert_ne by done; rewrite Hj; simpl; rewrite Hc;
      (split; [done|]); [apply elem_of_app; by left|done].
  - simpl. rewrite Hj. simpl. by rewrite Hc.
Qed.

Lemma settled_cancelAll_steps id l : forall acc,
  Job.state <$> jobs (sched acc.1) !! id = Some Job.canceled -> id ∈ acc.2 ->
  Job.state <$> jobs (sched (foldl Scheduler.cancelAll_step acc l).1) !! id
  = Some Job.canceled
  /\ id ∈ (foldl Scheduler.cancelAll_step acc l).2.
Proof.
  induction l as [|id' l IH]; intros acc Hc Hin; simpl; [done|].
  destruct (settled_cancelAll_step id acc id' Hc Hin). by apply IH.
Qed.

Lemma collected_cancelAll_steps id l : forall acc,
  collected id acc ->
  collected id (foldl Scheduler.cancelAll_step acc l)
  /\ (id ∈ l ->
      Job.state <$> jobs (sched (foldl Scheduler.cancelAll_step acc l).1) !! id
      = Some Job.canceled
      /\ id ∈ (foldl Scheduler.cancelAll_step acc l).2).
Proof.
  induction l as [|id' l IH]; intros acc Hcol; simpl.
  - split; [done|]. by intros ?%elem_of_nil.
  - destruct (collected_cancelAll_step id acc id' Hcol) as [Hcol' Heq].
    destruct (IH _ Hcol') as [Hcol'' Hin]. split; [done|].
    intros [->|?]%elem_of_cons; [|by apply Hin].
    destruct (Heq eq_refl). by apply settled_cancelAll_steps.
Qed.

(** X21.  [cancelAll] empties the queue and the running set and counts what
    it cancels: [stats.canceledJobs] grows by the number of ids returned
    and the other counters stay; every job that was in the queue or in the
    running set, and was pending or running with its cancel function, is
    in state 'canceled' and its id is among those returned; the running
    flag is as it was and no [resolve] of an idle instance is left waiting. *)
Theorem cancelAll_counts_what_it_cancels w :
  let w' := (Scheduler.cancelAll w).1 in
  let canceledIds := (Scheduler.cancelAll w).2 in
  pendingJobs (sched w') = []
  /\ runningJobs (sched w') = []
  /\ Stats.canceledJobs (stats (sched w'))
     = Stats.canceledJobs (stats (sched w)) + length canceledIds
  /\ other_counters (stats (sched w')) = other_counters (stats (sched w))
  /\ _isRunning (sched w') = _isRunning (sched w)
  /\ _idleResolve (sched w') = None
  /\ forall id j,
       id ∈ pendingJobs (sched w) ++ runningJobs (sched w) ->
       jobs (sched w) !! id = Some j -> cancelable j ->
       Job.state <$> jobs (sched w') !! id = Some Job.canceled
       /\ id ∈ canceledIds.
Proof.
  intros w' canceledIds. unfold w', canceledIds, Scheduler.cancelAll. simpl.
  set (a1 := foldl Scheduler.cancelAll_step (w, []) (pendingJobs (sched w))).
  set (a2 := (on_sched (set_pendingJobs (fun _ => [])) a1.1, a1.2)).
  set (a3 := foldl Scheduler.cancelAll_step a2 (runningJobs (sched a1.1))).
  set (w3 := on_sched (set_runningJobs (fun _ => [])) a3.1).
  destruct (cancelAll_steps_counts (pendingJobs (sched w)) (w, []))
    as ((n1 & E1 & C1) & O1 & Q1 & R1 & I1 & H1). fold a1 in E1, C1, O1, Q1, R1, I1, H1.
  destruct (cancelAll_steps_counts (runningJobs (sched a1.1)) a2)
    as ((n2 & E2 & C2) & O2 & Q2 & R2 & I2 & H2). fold a3 in E2, C2, O2, Q2, R2, I2, H2.
  simpl in *.
  destruct (_checkIdle_queue w3) as (Hq & Hr & _).
  destruct (books__checkIdle w3) as (_ & _ & Hi & _ & Hs).
  split; [by rewrite Hq; simpl; rewrite Q2|].
  split; [by rewrite Hr|].
  split; [rewrite Hs; simpl; rewrite C2, E2, E1, C1, length_app; lia|].
  split; [by rewrite Hs; simpl; rewrite O2, O1|].
  split; [by rewrite Hi; simpl; rewrite I2, I1|].
  split.
  { unfold Scheduler._checkIdle.
    assert (Scheduler.is_idle (sched w3) = true) as ->.
    { unfold Scheduler.is_idle. simpl. by rewrite Q2. }
    by destruct (_idleResolve (sched w3)) eqn:Hres. }
  intros id j Hin Hj Hcan.
  assert (collected id (w, [])) as Hc0 by (exists j; split; [done|by left]).
  destruct (collected_cancelAll_steps id (pendingJobs (sched w)) (w, []) Hc0)
    as [Hc1 Hin1]. fold a1 in Hc1, Hin1.
  assert (collected id a2) as Hc2 by done.
  destruct (collected_cancelAll_steps id (runningJobs (sched a1.1)) a2 Hc2)
    as [_ Hin2]. fold a3 in Hin2.
  assert (Job.state <$> jobs (sched a3.1) !! id = Some Job.canceled /\ id ∈ a3.2) as H.
  { apply elem_of_app in Hin as [Hin|Hin].
    - destruct (Hin1 Hin). by apply settled_cancelAll_steps.
    - apply Hin2. by rewrite R1. }
  destruct H as [Hst Hid]. split; [|done].
  unfold Scheduler._checkIdle. destruct (Scheduler.is_idle _); [|done].
  by destruct (_idleResolve _).
Qed.

Lemma cancelAll_counts_what_it_cancels_witness :
  let w := (Scheduler.add hanging_task Job.no_options
              (Scheduler.add hanging_task Job.no_options
                 (Scheduler.new default_options empty_runtime)).1).1 in
  Job.state <$> jobs (sched (Scheduler.cancelAll w).1) !! "job-2" = Some Job.canceled
  /\ "job-2" ∈ (Scheduler.cancelAll w).2
  /\ Stats.canceledJobs (stats (sched (Scheduler.cancelAll w).1)) = 2.
Proof.
  intros w.
  destruct (cancelAll_counts_what_it_cancels w) as (_ & _ & Hs & _ & _ & _ & H).
  destruct (jobs (sched w) !! "job-2") as [j|] eqn:Hj; [|discriminate Hj].
  destruct (H "job-2" j) as [H1 H2]; [compute_done|exact Hj| |].
  - vm_compute in Hj. injection Hj as <-. by left.
  - split; [exact H1|]. split; [exact H2|]. rewrite Hs. reflexivity.
Defined.

Lemma _checkIdle_jobs w : jobs (sched (Scheduler._checkIdle w)) = jobs (sched w).
Proof.
  unfold Scheduler._checkIdle. destruct (Scheduler.is_idle _); [|done].
  by destruct (_idleResolve _).
Qed.

(** [_checkIdle] leaves a settled instance as it is. *)
Lemma _checkIdle_settled w h d :
  heap (rt w) !! h = Some d -> _settled d = true ->
  heap (rt (Scheduler._checkIdle w)) !! h = Some d.
Proof.
  intros Hd Hs. unfold Scheduler._checkIdle. destruct (Scheduler.is_idle _); [|done].
  destruct (_idleResolve _) as [h'|]; [|done]. simpl.
  destruct (decide (h' = h)) as [->|Hne].
  - by rewrite (_resolve_settled _ _ _ _ Hd Hs).
  - by destruct (_resolve_plain_elsewhere h h' VUndefined (rt w) Hne eq_refl) as [-> _].
Qed.

(** X22.  [cancelJob] returns false and changes nothing for an id that is
    unknown and for a job that is neither pending nor running with its
    cancel function.  Otherwise it returns true: the job is in state
    'canceled', its id is taken out of the queue and of the running set,
    [stats.canceledJobs] is one more, the other jobs are untouched, and the
    instance of a running job, if nothing had resolved it, is rejected with
    a CancelError 'Canceled'. *)
Theorem cancelJob_outcomes jobId w :
  (Scheduler.getJob jobId w = None -> Scheduler.cancelJob jobId w = (w, false))
  /\ (forall j,
        Scheduler.getJob jobId w = Some j -> ~ cancelable j ->
        Scheduler.cancelJob jobId w = (w, false))
  /\ (forall j,
        Scheduler.getJob jobId w = Some j -> cancelable j ->
        let w' := (Scheduler.cancelJob jobId w).1 in
        (Scheduler.cancelJob jobId w).2 = true
        /\ Job.state <$> Scheduler.getJob jobId w' = Some Job.canceled
        /\ pendingJobs (sched w') = remove_first jobId (pendingJobs (sched w))
        /\ runningJobs (sched w') = set_delete jobId (runningJobs (sched w))
        /\ Stats.canceledJobs (stats (sched w')) = S (Stats.canceledJobs (stats (sched w)))
        /\ (forall id, id <> jobId -> Scheduler.getJob id w' = Scheduler.getJob id w)
        /\ (forall h d,
              Job.state j = Job.running -> Job._cancel j = Some h ->
              heap (rt w) !! h = Some d -> _settled d = false ->
              heap (rt w') !! h
              = Some (rejected_because (VError CancelError "Canceled") d))).
Proof.
  unfold Scheduler.getJob. split; [|split].
  - intros Hj. unfold Scheduler.cancelJob. by rewrite Hj.
  - intros j Hj Hnc. unfold Scheduler.cancelJob, Scheduler.cancel_job_object.
    rewrite Hj.
    assert (Job.cancel j (rt w) = (j, rt w, false)) as ->.
    { unfold Job.cancel. unfold cancelable in Hnc.
      destruct (Job.state j) eqn:Hst; try done.
      - exfalso. apply Hnc. by left.
      - destruct (Job._cancel j) eqn:Hc; [|done].
        exfalso. apply Hnc. right. split; [done|]. rewrite ?Hc. by eexists. }
    f_equal. destruct w as [r s]. simpl in *. f_equal.
    destruct s. unfold set_jobs. simpl in *. by rewrite insert_id.
  - intros j Hj Hcan. unfold Scheduler.cancelJob.
    rewrite Hj. unfold Scheduler.cancel_job_object. rewrite Hj.
    destruct (Job_cancel_state j (rt w)) as [Hst Hb].
    specialize (Hst (or_introl Hcan)). apply Hb in Hcan as Htrue.
    destruct (Job.cancel j (rt w)) as [[j' r'] b] eqn:Hcancel. simpl in *. subst b.
    simpl. split; [done|].
    rewrite _checkIdle_jobs. simpl.
    split; [by rewrite lookup_insert_eq; simpl; rewrite Hst|].
    match goal with |- context [Scheduler._checkIdle ?w0] =>
      destruct (_checkIdle_queue w0) as (-> & -> & _);
      destruct (books__checkIdle w0) as (_ & _ & _ & _ & ->) end.
    simpl. split; [done|]. split; [done|]. split; [done|].
    split; [intros id Hne; by rewrite lookup_insert_ne|].
    intros h d Hrun Hc Hd Hs.
    unfold Job.cancel in Hcancel. rewrite Hrun, Hc in Hcancel.
    injection Hcancel as <- <-.
    destruct (_reject_at h (VError CancelError "Canceled") (rt w) d Hd Hs) as [Hh _].
    by apply _checkIdle_settled.
Qed.

Lemma cancelJob_outcomes_witness :
  let w := (Scheduler.add hanging_task Job.no_options
              (Scheduler.add hanging_task Job.no_options
                 (Scheduler.new default_options empty_runtime)).1).1 in
  (Scheduler.cancelJob "job-2" w).2 = true
  /\ pendingJobs (sched (Scheduler.cancelJob "job-2" w).1) = []
  /\ Scheduler.cancelJob "job-7" w = (w, false).
Proof.
  intros w.
  destruct (cancelJob_outcomes "job-2" w) as (_ & _ & H).
  destruct (Scheduler.getJob "job-2" w) as [j|] eqn:Hj; [|discriminate Hj].
  destruct (H j eq_refl) as (H1 & _ & H2 & _).
  - vm_compute in Hj. injection Hj as <-. by left.
  - split; [exact H1|]. split; [exact H2|].
    destruct (cancelJob_outcomes "job-7" w) as (H0 & _). by apply H0.
Defined.

(** X23.  [waitForJob] throws a SchedulerError for an unknown id, returns
    the result of a completed job and throws a plain Error
    'Job <id> canceled' for a canceled one.  For a job that has not been
    started yet it returns null at once, as the job has no instance before
    its first attempt: it does not wait.  This holds in every state a
    scheduler can reach. *)
Theorem waitForJob_outcomes o r w jobId :
  reachable o r w ->
  (Scheduler.getJob jobId w = None ->
   SchedulerMore.waitForJob jobId w
   = Throw (VError SchedulerError ("Job " +:+ jobId +:+ " not found")))
  /\ (forall j,
        Scheduler.getJob jobId w = Some j ->
        Job.state j = Job.pending -> Job.attempts j = 0 ->
        SchedulerMore.waitForJob jobId w = Return VNull)
  /\ (forall j,
        Scheduler.getJob jobId w = Some j -> Job.state j = Job.completed ->
        SchedulerMore.waitForJob jobId w = Return (Job.result j))
  /\ (forall j,
        Scheduler.getJob jobId w = Some j -> Job.state j = Job.canceled ->
        SchedulerMore.waitForJob jobId w
        = Throw (VError Error ("Job " +:+ jobId +:+ " canceled"))).
Proof.
  intros H. destruct (wf_reachable o r w H) as (HJ & _).
  unfold Scheduler.getJob, SchedulerMore.waitForJob.
  split; [by intros ->|]. split; [|split].
  - intros j Hj Hst Ha. rewrite Hj, Hst.
    destruct (HJ jobId j Hj) as (_ & _ & _ & Hh & _). by rewrite (Hh Ha).
  - intros j Hj Hst. by rewrite Hj, Hst.
  - intros j Hj Hst. rewrite Hj, Hst.
    destruct (HJ jobId j Hj) as (_ & _ & _ & _ & He).
    rewrite He by (by rewrite Hst). done.
Qed.

Lemma waitForJob_outcomes_witness :
  let w := (Scheduler.add hanging_task Job.no_options
              (Scheduler.add hanging_task Job.no_options
                 (Scheduler.new default_options empty_runtime)).1).1 in
  SchedulerMore.waitForJob "job-2" w = Return VNull
  /\ SchedulerMore.waitForJob "job-3" w
     = Throw (VError SchedulerError "Job job-3 not found").
Proof.
  intros w.
  assert (reachable default_options empty_runtime w) as H.
  { eapply rtc_l; [apply step_add|]. eapply rtc_l; [apply step_add|]. apply rtc_refl. }
  destruct (waitForJob_outcomes default_options empty_runtime w "job-2" H)
    as (_ & H2 & _).
  destruct (waitForJob_outcomes default_options empty_runtime w "job-3" H)
    as (H3 & _).
  split; [|exact (H3 eq_refl)].
  destruct (Scheduler.getJob "job-2" w) as [j|] eqn:Hj; [|discriminate Hj].
  apply (H2 j eq_refl); vm_compute in Hj; by injection Hj as <-.
Defined.

End Interface.

(** ** Class Job *)

Section JobRun.

Lemma static_reject_exactly reason r :
  Hope.reject reason r
  = (length (heap r),
     with_heap (fun hp => hp ++ [rejected_because reason fresh_hope]) r).
Proof.
  unfold Hope.reject, Hope.new.
  pose proof (_reject_plain _ reason _ fresh_hope (lookup_alloc_new r) eq_refl) as H.
  simpl in *. rewrite H.
  destruct r as [hp mt ts nt ck cf ac th eo].
  unfold with_microtasks, with_heap. simpl. rewrite app_nil_r.
  do 2 f_equal. rewrite alter_app_r_alt by done. by rewrite Nat.sub_diag.
Qed.

(** X24.  [run] on a job that is not pending returns an instance rejected
    with an Error 'Job <id> is not pending' and leaves the job alone: the
    task is not called.  On a pending job without a timeout it calls the
    task once, with the job running and its attempts counted; if the task
    throws, the instance returned is rejected with what was thrown, and if
    the task returns something that is not a Hope it is rejected with a
    TypeError 'Task must return a Hope instance'. *)
Theorem run_failures this r :
  (Job.state this <> Job.pending ->
   (Job.run this r).1.1 = this
   /\ executionOrder (Job.run this r).1.2 = executionOrder r
   /\ heap (Job.run this r).1.2 !! (Job.run this r).2
      = Some (rejected_because
                (VError Error ("Job " +:+ Job.id this +:+ " is not pending"))
                fresh_hope))
  /\ (Job.state this = Job.pending -> Job.timeout (Job.options this) = 0 ->
      forall reason,
        task_attempt (Job.taskFn this) (S (Job.attempts this)) = TaskThrows reason
        \/ (exists v,
              task_attempt (Job.taskFn this) (S (Job.attempts this)) = TaskValue v
              /\ (forall h, v <> VHope h)
              /\ reason = VError TypeError "Task must return a Hope instance") ->
        Job.state (Job.run this r).1.1 = Job.running
        /\ Job.attempts (Job.run this r).1.1 = S (Job.attempts this)
        /\ Job._hope (Job.run this r).1.1 = Some (Job.run this r).2
        /\ executionOrder (Job.run this r).1.2
           = executionOrder r ++ [task_label (Job.taskFn this)]
        /\ heap (Job.run this r).1.2 !! (Job.run this r).2
           = Some (set_isCancelable true (rejected_because reason fresh_hope))).
Proof.
  split.
  - intros Hst. unfold Job.run.
    assert (negb (Job.status_eqb (Job.state this) Job.pending) = true) as ->
      by (by destruct (Job.state this)).
    rewrite static_reject_exactly. simpl. split; [done|]. split; [by destruct r|].
    destruct r. simpl. by apply list_lookup_middle.
  - intros Hst Ht reason Htask.
    destruct this as [id tf [t rt rd p] st res err att stt ent hp cn].
    simpl in *. subst st t. unfold Job.run. simpl.
    unfold Hope.cancellable, Hope.new, call_task. simpl.
    set (r1 := with_executionOrder _ _).
    assert (heap r1 !! length (heap r) = Some fresh_hope) as Hnew.
    { unfold r1. destruct r. simpl. by apply list_lookup_middle. }
    assert (forall e,
      heap (Hope.update (length (heap r)) (set_isCancelable true)
              (Hope._reject (length (heap r)) e r1)) !! length (heap r)
      = Some (set_isCancelable true (rejected_because e fresh_hope))
      /\ executionOrder (Hope.update (length (heap r)) (set_isCancelable true)
              (Hope._reject (length (heap r)) e r1))
         = executionOrder r ++ [task_label tf]) as Hrej.
    { intros e. rewrite (_reject_plain _ e _ fresh_hope Hnew eq_refl).
      unfold r1. destruct r. simpl. split; [|done].
      rewrite !list_lookup_alter_eq. by rewrite list_lookup_middle. }
    destruct Htask as [->|(v & -> & Hv & ->)].
    + simpl. destruct (Hrej reason) as [H1 H2]. simpl in H1, H2. by rewrite H1, H2.
    + destruct v; try (by destruct (Hv h)); simpl;
        match goal with |- context [Hope._reject _ ?e _] =>
          destruct (Hrej e) as [H1 H2]; simpl in H1, H2; by rewrite H1, H2 end.
Qed.

Lemma run_failures_witness :
  let job := Job.new "job-1" (TaskFn "bad" (fun _ => TaskValue (VNum 3))) Job.no_options in
  Job.state (Job.run job empty_runtime).1.1 = Job.running
  /\ heap (Job.run job empty_runtime).1.2 !! (Job.run job empty_runtime).2
     = Some (set_isCancelable true
               (rejected_because (VError TypeError "Task must return a Hope instance")
                                 fresh_hope)).
Proof.
  intros job.
  destruct (run_failures job empty_runtime) as [_ H].
  destruct (H eq_refl eq_refl (VError TypeError "Task must return a Hope instance"))
    as (H1 & _ & _ & _ & H2).
  - right. exists (VNum 3). split; [reflexivity|]. split; [discriminate|reflexivity].
  - split; [exact H1 | exact H2].
Defined.

End JobRun.

(** ** Hope.resolve and Hope.reject *)

(** X25.  [Hope.resolve] of an instance of Hope returns that instance and
    makes nothing.  Of a value that is not a thenable it returns a new
    instance that is already fulfilled with the value, and [Hope.reject]
    one that is already rejected with the reason, whatever the reason is (a
    thenable is not adopted); neither queues anything nor touches the
    instances there are. *)
Theorem static_resolve_and_reject r :
  (forall h, Hope.resolve (VHope h) r = (h, r))
  /\ (forall v,
        is_thenable v = false ->
        (Hope.resolve v r).1 = length (heap r)
        /\ HopeMore.get_state (Hope.resolve v r).1 (Hope.resolve v r).2 = Some FULFILLED
        /\ HopeMore.get_value (Hope.resolve v r).1 (Hope.resolve v r).2 = Return v
        /\ microtasks (Hope.resolve v r).2 = microtasks r
        /\ forall o d, heap r !! o = Some d -> heap (Hope.resolve v r).2 !! o = Some d)
  /\ (forall e,
        (Hope.reject e r).1 = length (heap r)
        /\ HopeMore.get_state (Hope.reject e r).1 (Hope.reject e r).2 = Some REJECTED
        /\ HopeMore.get_reason (Hope.reject e r).1 (Hope.reject e r).2 = Return e
        /\ microtasks (Hope.reject e r).2 = microtasks r
        /\ forall o d, heap r !! o = Some d -> heap (Hope.reject e r).2 !! o = Some d).
Proof.
  split; [done|]. split.
  - intros v Hv. rewrite (static_resolve_plain v r Hv). simpl.
    unfold HopeMore.get_state, HopeMore.get_value. destruct r. simpl.
    rewrite list_lookup_middle by done. simpl. repeat split; try done.
    intros o d Hd. rewrite lookup_app_l; [done|]. by eapply lookup_lt_Some.
  - intros e. rewrite (static_reject_exactly e r). simpl.
    unfold HopeMore.get_state, HopeMore.get_reason. destruct r. simpl.
    rewrite list_lookup_middle by done. simpl. repeat split; try done.
    intros o d Hd. rewrite lookup_app_l; [done|]. by eapply lookup_lt_Some.
Qed.

Lemma static_resolve_and_reject_witness :
  HopeMore.get_value 0 (Hope.resolve (VStr "v") empty_runtime).2 = Return (VStr "v").
Proof.
  destruct (static_resolve_and_reject empty_runtime) as (_ & H & _).
  destruct (H (VStr "v") eq_refl) as (_ & _ & Hv & _). exact Hv.
Defined.

(** ** Jobs from start to end *)

Section Lifecycle.

(** X26.  On a new scheduler with the default options, a job whose task
    returns a Hope fulfilled with a value that is not a thenable is
    completed with that value as its result once the event loop has
    nothing left to run, and a job whose task returns a rejected Hope and
    has no retries is failed with the reason as its error.  In both cases
    the task has been called once, nothing is pending or running, the
    history has one entry and the counters count the job once. *)
Theorem job_runs_to_its_end label :
  (forall v,
     is_thenable v = false ->
     let w := run 100 (Scheduler.add (TaskFn label (fun _ => TaskHope (TaskResolved v)))
                         Job.no_options
                         (Scheduler.new default_options empty_runtime)).1 in
     quiescent w
     /\ Job.state <$> Scheduler.getJob "job-1" w = Some Job.completed
     /\ Job.result <$> Scheduler.getJob "job-1" w = Some v
     /\ SchedulerMore.getStatus w
        = SchedulerMore.Status true 0 0 1 (Stats.Make 1 1 0 0 0)
     /\ executionOrder (rt w) = [label]
     /\ SchedulerMore.waitForJob "job-1" w = Return v)
  /\ (forall e,
        let w := run 100 (Scheduler.add (TaskFn label (fun _ => TaskHope (TaskRejected e)))
                            Job.no_options
                            (Scheduler.new default_options empty_runtime)).1 in
        quiescent w
        /\ Job.state <$> Scheduler.getJob "job-1" w = Some Job.failed
        /\ Job.error <$> Scheduler.getJob "job-1" w = Some e
        /\ SchedulerMore.getStatus w
           = SchedulerMore.Status true 0 0 1 (Stats.Make 1 0 1 0 0)
        /\ executionOrder (rt w) = [label]).
Proof.
  split.
  - intros v Hv. destruct v; try discriminate Hv; by_running.
  - intros e. by_running.
Qed.

Lemma job_runs_to_its_end_witness :
  let w := run 100 (Scheduler.add (labelled_task "A") Job.no_options
                      (Scheduler.new default_options empty_runtime)).1 in
  quiescent w
  /\ Job.result <$> Scheduler.getJob "job-1" w = Some (VStr "A").
Proof.
  intros w.
  destruct (job_runs_to_its_end "A") as [H _].
  destruct (H (VStr "A") eq_refl) as (H1 & _ & H2 & _).
  split; [exact H1 | exact H2].
Defined.

(** X27.  Cancelling a running job is not final.  On a new scheduler with
    the default options, [cancelJob] on a job whose task is still pending
    returns true and the job is in state 'canceled'; but the rejection of
    its instance then reaches [_jobFailed], which does not look at the
    state.  With retries left, the job is pending again after one turn and
    running again, its task called a second time, after the next; with no
    retries it ends up failed with the CancelError as its error, counted
    both as canceled and as failed. *)
Theorem canceled_job_is_retried_or_failed label :
  (forall n d,
     let w := (Scheduler.add (TaskFn label (fun _ => TaskHope TaskNever))
                 (Job.OptionsArg None (Some (S n)) (Some d) None)
                 (Scheduler.new default_options empty_runtime)).1 in
     let w1 := (Scheduler.cancelJob "job-1" w).1 in
     (Scheduler.cancelJob "job-1" w).2 = true
     /\ Job.state <$> Scheduler.getJob "job-1" w1 = Some Job.canceled
     /\ Job.state <$> Scheduler.getJob "job-1" (run 1 w1) = Some Job.pending
     /\ Job.state <$> Scheduler.getJob "job-1" (run 2 w1) = Some Job.running
     /\ Job.attempts <$> Scheduler.getJob "job-1" (run 2 w1) = Some 2
     /\ executionOrder (rt (run 2 w1)) = [label; label]
     /\ Stats.canceledJobs (stats (sched (run 2 w1))) = 1)
  /\ (let w := (Scheduler.add (TaskFn label (fun _ => TaskHope TaskNever))
                  Job.no_options
                  (Scheduler.new default_options empty_runtime)).1 in
      let w1 := run 100 (Scheduler.cancelJob "job-1" w).1 in
      quiescent w1
      /\ Job.state <$> Scheduler.getJob "job-1" w1 = Some Job.failed
      /\ Job.error <$> Scheduler.getJob "job-1" w1
         = Some (VError CancelError "Canceled")
      /\ Stats.canceledJobs (stats (sched w1)) = 1
      /\ Stats.failedJobs (stats (sched w1)) = 1
      /\ completedJobs (sched w1) = ["job-1"]).
Proof.
  split.
  - intros n d. by_running.
  - by_running.
Qed.

End Lifecycle.
